(** * Extracting annuli from real data: the snippets of
      docs/tutorials/extractingdata.ipynb

    The notebook holds five fenced Python blocks.  They are embedded here
    statement by statement, over a small model of the NumPy operations they
    call, with the interpreter's name space threaded explicitly and Python
    exceptions as an error result.

    Numbers.  NumPy evaluates the snippets in IEEE binary64; the definitions
    are written over an interface [Float64], whose instance [binary64] is
    Rocq's primitive binary64, the arithmetic the code runs.  What is proved
    about numbers is proved at that instance, from the IEEE specification
    of the primitive operations. *)

From Stdlib Require Import Reals Lra Psatz.
From Stdlib Require Import ZArith List Bool QArith Lia Floats.
From stdpp Require Import gmap strings.
Import ListNotations.

Set Warnings "-inexact-float".
Local Open Scope Z_scope.

(** ** Python results *)

Inductive exn : Type :=
| NameError | KeyError | IndexError | ValueError | OverflowError | MemoryError.

Inductive result (A : Type) : Type :=
| Ok (a : A)
| Raise (e : exn).
Arguments Ok {A} a.
Arguments Raise {A} e.

Definition result_map {A B} (f : A -> B) (r : result A) : result B :=
  match r with
  | Ok a => Ok (f a)
  | Raise e => Raise e
  end.

(** ** The arithmetic of array elements *)

Class Float64 (F : Type) : Type := {
  of_int : Z -> F;            (* int64 -> float64 conversion, and literals *)
  fadd : F -> F -> F;
  fsub : F -> F -> F;
  fmul : F -> F -> F;
  fdiv : F -> F -> F;
  fle : F -> F -> bool;       (* x <= y *)
  fceil : F -> option Z;      (* ceiling; None for nan and the infinities *)
  ffinite : F -> bool         (* neither nan nor an infinity *)
}.

(** binary64, as NumPy computes. *)
Module B64.

Definition of_int (z : Z) : float :=
  SF2Prim (binary_normalize prec emax z 0 false).

Definition ceil (x : float) : option Z :=
  match Prim2SF x with
  | S754_zero _ => Some 0
  | S754_finite s m e =>
      let v := cond_Zopp s (Zpos m) in
      Some (if 0 <=? e then v * 2 ^ e else - ((- v) / 2 ^ (- e)))
  | S754_infinity _ | S754_nan => None
  end.

(** A double that is neither zero, nan nor infinite. *)
Definition finite_nonzero (x : float) : bool :=
  match Prim2SF x with
  | S754_finite _ _ _ => true
  | _ => false
  end.

(** A double other than nan and the infinities. *)
Definition finite (x : float) : bool :=
  match Prim2SF x with
  | S754_finite _ _ _ | S754_zero _ => true
  | _ => false
  end.

(** The exact value of a finite double. *)
Definition to_Q (x : float) : Q :=
  match Prim2SF x with
  | S754_finite s m e =>
      let v := cond_Zopp s (Zpos m) in
      if 0 <=? e then inject_Z (v * 2 ^ e) else Qmake v (Z.to_pos (2 ^ (- e)))
  | _ => 0%Q
  end.

(** The double of a positive integer below 2^53: the integer itself, its
    mantissa shifted to 53 bits. *)
Definition exact_int (s : bool) (z : positive) : spec_float :=
  match 53 - Zpos (digits2_pos z) with
  | Zpos k => S754_finite s (Pos.iter xO z k) (Zpos (digits2_pos z) - 53)
  | _ => S754_finite s z 0
  end.

End B64.

#[export] Instance binary64 : Float64 float := {
  of_int := B64.of_int;
  fadd := PrimFloat.add;
  fsub := PrimFloat.sub;
  fmul := PrimFloat.mul;
  fdiv := PrimFloat.div;
  fle := PrimFloat.leb;
  fceil := B64.ceil;
  ffinite := B64.finite
}.

(** ** The real value of a double

    The order properties of the snippets are proved on the real numbers:
    a double that is not nan has a value in the reals extended by the two
    infinities, and each operation of [binary64] returns the rounding to
    nearest, ties to even, of the exact result. *)

Module Round.

Definition bpow (e : Z) : R := powerRZ 2 e.

Definition F2R (m e : Z) : R := (IZR m * bpow e)%R.

(** The exponent of the doubles of the binade [bpow (x - 1) <= v < bpow x]. *)
Definition fexp64 (x : Z) : Z := fexp prec emax x.

(** Where a real lies between two consecutive multiples of [bpow e]. *)
Definition located (v : R) (m e : Z) (l : location) : Prop :=
  match l with
  | loc_Exact => v = F2R m e
  | loc_Inexact Lt => (F2R m e < v < (IZR m + / 2) * bpow e)%R
  | loc_Inexact Eq => v = ((IZR m + / 2) * bpow e)%R
  | loc_Inexact Gt => ((IZR m + / 2) * bpow e < v < F2R (m + 1) e)%R
  end.

(** [k * bpow e] is a multiple of [bpow e] nearest to [v], the even one of
    the two at a tie. *)
Definition nearest_even (v : R) (k e : Z) : Prop :=
  (Rabs (F2R k e - v) < bpow e / 2)%R
  \/ (Rabs (F2R k e - v) = bpow e / 2 /\ Z.even k = true)%R.

(** The reals with the two infinities. *)
Inductive xr : Type := NInf | Fin (r : R) | PInf.

Definition xopp (x : xr) : xr :=
  match x with NInf => PInf | Fin r => Fin (- r) | PInf => NInf end.

Definition xsign (s : bool) (x : xr) : xr := if s then xopp x else x.

Definition sgnR (s : bool) (r : R) : R := if s then (- r)%R else r.

Definition xle (a b : xr) : Prop :=
  match a, b with
  | NInf, _ => True
  | _, PInf => True
  | Fin x, Fin y => (x <= y)%R
  | _, _ => False
  end.

Definition Rcmp (c : comparison) (a b : R) : Prop :=
  match c with Lt => (a < b)%R | Eq => a = b | Gt => (b < a)%R end.

(** The value of a double; nan has none. *)
Definition SF2X (f : spec_float) : option xr :=
  match f with
  | S754_zero _ => Some (Fin 0)
  | S754_infinity s => Some (xsign s PInf)
  | S754_nan => None
  | S754_finite s m e => Some (xsign s (Fin (F2R (Zpos m) e)))
  end.

Definition val (x : float) : option xr := SF2X (Prim2SF x).

(** The rounding of a positive real: the nearest multiple of the unit of
    its binade. *)
Definition pos_round (v rho : R) : Prop :=
  exists M k : Z,
    (bpow (M - 1) <= v < bpow M)%R /\ 0 <= k
    /\ nearest_even v k (fexp64 M) /\ rho = F2R k (fexp64 M).

(** A rounded real from [bpow 1024] on overflows to infinity. *)
Definition clip (r : R) : xr := if Rlt_dec r (bpow 1024) then Fin r else PInf.

(** [x] is the [binary64] rounding of the real [v]. *)
Definition rounds (v : R) (x : xr) : Prop :=
  (v = 0%R /\ x = Fin 0)
  \/ ((0 < v)%R /\ exists rho, pos_round v rho /\ x = clip rho)
  \/ ((v < 0)%R /\ exists rho, pos_round (- v) rho /\ x = xopp (clip rho)).

(** What a double operation with one finite operand computes on the
    values: the rounding of [phi] on the reals, the infinities kept
    ([up = true]) or swapped. *)
Definition op1_rel (phi : R -> R) (up : bool) (a z : xr) : Prop :=
  match a with
  | Fin r => rounds (phi r) z
  | PInf => z = if up then PInf else NInf
  | NInf => z = if up then NInf else PInf
  end.

Definition sem (g : float -> float) (phi : R -> R) (up : bool) : Prop :=
  forall x a, val x = Some a -> exists z, val (g x) = Some z /\ op1_rel phi up a z.

End Round.

(** ** NumPy *)

Section NumPy.
Context {F : Type} {num : Float64 F}.

(** A Python number: a header card or a literal. *)
Inductive scalar : Type :=
| Int (n : Z)
| Float (x : F).

(** A one-dimensional numeric array with its dtype. *)
Inductive arr : Type :=
| IntArr (l : list Z)       (* dtype int64 *)
| FloatArr (l : list F).    (* dtype float64 *)

(** The entries of an array read as float64. *)
Definition as_floats (a : arr) : list F :=
  match a with
  | IntArr l => map of_int l
  | FloatArr l => l
  end.

(** int64 arithmetic wraps around. *)
Definition wrap64 (z : Z) : Z := (z + 2 ^ 63) mod 2 ^ 64 - 2 ^ 63.

(** The double of a Python number: a float is one, an int is rounded to
    the nearest.  An int beyond the largest double has none, and Python
    raises OverflowError when it converts it: [float_ok] below tells, and
    the operations test it before they use [promote]. *)
Definition promote (s : scalar) : F :=
  match s with
  | Int n => of_int n
  | Float x => x
  end.

(** NumPy converts the Python number of an operation to the dtype of the
    array: an int that goes with an int64 array must lie in the int64
    range, an int that goes with a float64 array must not exceed the
    largest double.  Otherwise the operation raises OverflowError. *)
Definition int64_ok (n : Z) : bool := (- 2 ^ 63 <=? n) && (n <? 2 ^ 63).

Definition float_ok (s : scalar) : bool :=
  match s with
  | Int n => ffinite (of_int n)
  | Float _ => true
  end.

Definition fits_int64 (s : scalar) : bool :=
  match s with
  | Int n => int64_ok n
  | Float _ => true
  end.

(** 0, 1, ..., n - 1; empty when [n <= 0]. *)
Definition count_up (n : Z) : list Z := map Z.of_nat (seq 0 (Z.to_nat n)).

(** The length [np.arange] computes for a count, held as a double: its
    ceiling.  nan has none, and a ceiling beyond [2^63] in absolute value
    is refused, both with ValueError.  The ceiling is then cast to a signed
    64-bit integer, where [2^63] itself wraps to a negative length. *)
Definition arange_length (v : F) : result Z :=
  match fceil v with
  | None => Raise ValueError
  | Some c =>
      if (c <? - 2 ^ 63) || (2 ^ 63 <? c) then Raise ValueError
      else if c =? 2 ^ 63 then Ok (- 2 ^ 63)
      else Ok c
  end.

(** Room for an array of [len] eight-byte elements, on a machine that can
    hold [memory] of them: [2^60] elements and more exceed the largest
    size NumPy accepts (ValueError), and what the machine cannot hold is
    a MemoryError.  A length that is not positive stands for the empty
    array. *)
Definition allocate (memory len : Z) : result unit :=
  if len <=? 0 then Ok tt
  else if 2 ^ 60 <=? len then Raise ValueError
  else if memory <? len then Raise MemoryError
  else Ok tt.

(** [np.arange(stop)]: 0, 1, ..., one entry less than the length.  The
    count goes through a double also when it is an int; the array is int64
    for an int in the int64 range and float64 otherwise. *)
Definition arange (memory : Z) (stop : scalar) : result arr :=
  match arange_length (promote stop) with
  | Raise e => Raise e
  | Ok len =>
      match allocate memory len with
      | Raise e => Raise e
      | Ok _ =>
          match stop with
          | Int n =>
              if int64_ok n then Ok (IntArr (count_up len))
              else Ok (FloatArr (map of_int (count_up len)))
          | Float _ => Ok (FloatArr (map of_int (count_up len)))
          end
      end
  end.

(** [a op s] and [s op a], elementwise, with NumPy's promotion: int64 with
    an int stays int64 and wraps around, anything with a float is
    float64. *)
Definition arr_op_scalar (zop : Z -> Z -> Z) (fop : F -> F -> F)
    (a : arr) (s : scalar) : result arr :=
  match a, s with
  | IntArr l, Int n =>
      if int64_ok n then Ok (IntArr (map (fun i => wrap64 (zop i n)) l))
      else Raise OverflowError
  | IntArr l, Float x => Ok (FloatArr (map (fun i => fop (of_int i) x) l))
  | FloatArr l, _ =>
      if float_ok s then Ok (FloatArr (map (fun v => fop v (promote s)) l))
      else Raise OverflowError
  end.

Definition scalar_op_arr (zop : Z -> Z -> Z) (fop : F -> F -> F)
    (s : scalar) (a : arr) : result arr :=
  match a, s with
  | IntArr l, Int n =>
      if int64_ok n then Ok (IntArr (map (fun i => wrap64 (zop n i)) l))
      else Raise OverflowError
  | IntArr l, Float x => Ok (FloatArr (map (fun i => fop x (of_int i)) l))
  | FloatArr l, _ =>
      if float_ok s then Ok (FloatArr (map (fun v => fop (promote s) v) l))
      else Raise OverflowError
  end.

(** [a / s]: true division always yields float64. *)
Definition arr_truediv (a : arr) (s : scalar) : result arr :=
  match a, s with
  | IntArr l, Int n =>
      if int64_ok n
      then Ok (FloatArr (map (fun i => fdiv (of_int i) (of_int n)) l))
      else Raise OverflowError
  | IntArr l, Float x => Ok (FloatArr (map (fun i => fdiv (of_int i) x) l))
  | FloatArr l, _ =>
      if float_ok s then Ok (FloatArr (map (fun v => fdiv v (promote s)) l))
      else Raise OverflowError
  end.

(** An n-dimensional array: its shape and its entries in C order, as many
    as the shape says ([well_shaped]). *)
Record ndarray (A : Type) : Type := mk_ndarray {
  shape : list nat;
  flat : list A
}.
Arguments mk_ndarray {A} shape flat.
Arguments shape {A} n.
Arguments flat {A} n.

Definition numel (s : list nat) : nat := fold_right Nat.mul 1%nat s.

Definition well_shaped {A} (a : ndarray A) : Prop :=
  length (flat a) = numel (shape a).

(** [a.flatten()] *)
Definition flatten {A} (a : ndarray A) : ndarray A :=
  mk_ndarray [length (flat a)] (flat a).

(** [a.shape[0]] *)
Definition shape0 {A} (a : ndarray A) : result nat :=
  match shape a with
  | [] => Raise IndexError
  | n :: _ => Ok n
  end.

(** [a.reshape(n0, -1)] *)
Definition reshape {A} (a : ndarray A) (n0 : nat) : result (ndarray A) :=
  let sz := length (flat a) in
  if (n0 =? 0)%nat || negb (sz mod n0 =? 0)%nat then Raise ValueError
  else Ok (mk_ndarray [n0; (sz / n0)%nat] (flat a)).

(** [n] consecutive chunks of [k] entries. *)
Fixpoint chunks {A} (n k : nat) (l : list A) : list (list A) :=
  match n with
  | O => []
  | S n' => firstn k l :: chunks n' k (skipn k l)
  end.

(** The entries of [l] where the mask holds. *)
Fixpoint select {A} (m : list bool) (l : list A) : list A :=
  match m, l with
  | b :: m', x :: l' => if b then x :: select m' l' else select m' l'
  | _, _ => []
  end.

Definition count_true (m : list bool) : nat := length (List.filter (fun b : bool => b) m).

Fixpoint strip_prefix (p s : list nat) : option (list nat) :=
  match p, s with
  | [], _ => Some s
  | a :: p', b :: s' => if (a =? b)%nat then strip_prefix p' s' else None
  | _ :: _, [] => None
  end.

Definition select_blocks {A} (m : list bool) (blk : nat) (l : list A) : list A :=
  concat (select m (chunks (length m) blk l)).

(** [a[m]] for a boolean array [m]: the shape of [m] must lead the shape
    of [a]. *)
Definition getitem_mask {A} (a : ndarray A) (m : ndarray bool)
    : result (ndarray A) :=
  match strip_prefix (shape m) (shape a) with
  | Some rest =>
      Ok (mk_ndarray (count_true (flat m) :: rest)
            (select_blocks (flat m) (numel rest) (flat a)))
  | None => Raise IndexError
  end.

(** [a[:, m]]: a full slice of the first axis, the mask on the next ones.
    An array with fewer axes than indices is an IndexError. *)
Definition getitem_slice_mask {A} (a : ndarray A) (m : ndarray bool)
    : result (ndarray A) :=
  match shape a with
  | [] => Raise IndexError
  | n0 :: s =>
      match strip_prefix (shape m) s with
      | Some rest =>
          Ok (mk_ndarray (n0 :: count_true (flat m) :: rest)
                (concat (map (select_blocks (flat m) (numel rest))
                           (chunks n0 (numel s) (flat a)))))
      | None => Raise IndexError
      end
  end.

(** Flat offset of a multi-index, and back, in C order. *)
Fixpoint ravel (s idx : list nat) : nat :=
  match s, idx with
  | _ :: s', i :: idx' => (i * numel s' + ravel s' idx')%nat
  | _, _ => O
  end.

Fixpoint unravel (s : list nat) (k : nat) : list nat :=
  match s with
  | [] => []
  | _ :: s' => (k / numel s')%nat :: unravel s' (k mod numel s')%nat
  end.

(** [a.T]: the axes reversed. *)
Definition transpose {A} (a : ndarray A) : ndarray A :=
  let st := rev (shape a) in
  mk_ndarray st
    (flat_map (fun k => match nth_error (flat a) (ravel (shape a) (rev (unravel st k))) with
                        | Some x => [x]
                        | None => []
                        end)
              (seq 0 (numel st))).

(** [a >= x] and [a <= x] *)
Definition ge_scalar (a : ndarray F) (x : F) : ndarray bool :=
  mk_ndarray (shape a) (map (fun r => fle x r) (flat a)).

Definition le_scalar (a : ndarray F) (x : F) : ndarray bool :=
  mk_ndarray (shape a) (map (fun r => fle r x) (flat a)).

(** [np.logical_and(a, b)] on arrays of one shape (the snippets only pass
    two comparisons of the same array; other shapes would broadcast or
    fail). *)
Definition logical_and (a b : ndarray bool) : result (ndarray bool) :=
  if decide (shape a = shape b)
  then Ok (mk_ndarray (shape a) (map (fun p => andb (fst p) (snd p)) (combine (flat a) (flat b))))
  else Raise ValueError.

End NumPy.

Arguments scalar F : clear implicits.
Arguments arr F : clear implicits.
Arguments arange : simpl never.
Arguments arr_op_scalar : simpl never.
Arguments scalar_op_arr : simpl never.
Arguments arr_truediv : simpl never.
Arguments mk_ndarray {A} shape flat.
Arguments shape {A} n.
Arguments flat {A} n.

(** ** The cube and the interpreter's name space *)

Section Tutorial.
Context {F : Type} {num : Float64 F}.

(** What [rotationmap(path)] holds of the FITS file: the data array and
    the header, a dictionary from keyword (spelled as the snippets spell
    it) to number. *)
Record cube_t : Type := mk_cube {
  data : ndarray F;
  header : gmap string (scalar F)
}.

(** The observing geometry passed to [disk_coords]; [z0], [psi] and [tilt]
    are optional. *)
Record geometry : Type := mk_geometry {
  x0 : F; y0 : F; inc : F; PA : F;
  z0 : option F; psi : option F; tilt : option F
}.

(** The state of the interpreter: the names the snippets assign, and the
    machine it runs on.  A name that was never assigned is [None]; reading
    it is a NameError.  ([np], numpy itself, is taken as imported.)
    [memory] is the number of elements of the longest array the machine
    can allocate; no statement changes it. *)
Record namespace : Type := mk_namespace {
  cube : option cube_t;
  rvals : option (ndarray F);
  tvals : option (ndarray F);
  underscore : option (ndarray F);
  mask : option (ndarray bool);
  spectra : option (ndarray F);
  theta : option (ndarray F);
  velax : option (arr F);
  nu : option (scalar F);
  memory : Z
}.

(** Statements: the name space goes in and comes out; an exception ends
    the block and leaves the assignments made so far. *)
Definition M (A : Type) : Type := namespace -> result A * namespace.

Definition ret {A} (a : A) : M A := fun ns => (Ok a, ns).

Definition bind {A B} (m : M A) (k : A -> M B) : M B :=
  fun ns =>
    match m ns with
    | (Ok a, ns') => k a ns'
    | (Raise e, ns') => (Raise e, ns')
    end.

Definition lift {A} (r : result A) : M A := fun ns => (r, ns).

Definition read {A} (name : namespace -> option A) : M A :=
  fun ns =>
    match name ns with
    | Some v => (Ok v, ns)
    | None => (Raise NameError, ns)
    end.

(** [h[key]] *)
Definition getitem_header (h : gmap string (scalar F)) (key : string)
    : result (scalar F) :=
  match h !! key with
  | Some v => Ok v
  | None => Raise KeyError
  end.

(** Assignment rebinds one name and leaves the others. *)
Definition set_cube (v : cube_t) (ns : namespace) : namespace :=
  mk_namespace (Some v) (rvals ns) (tvals ns) (underscore ns)
    (mask ns) (spectra ns) (theta ns) (velax ns) (nu ns)
    (memory ns).
Definition set_rvals (v : ndarray F) (ns : namespace) : namespace :=
  mk_namespace (cube ns) (Some v) (tvals ns) (underscore ns)
    (mask ns) (spectra ns) (theta ns) (velax ns) (nu ns)
    (memory ns).
Definition set_tvals (v : ndarray F) (ns : namespace) : namespace :=
  mk_namespace (cube ns) (rvals ns) (Some v) (underscore ns)
    (mask ns) (spectra ns) (theta ns) (velax ns) (nu ns)
    (memory ns).
Definition set_underscore (v : ndarray F) (ns : namespace) : namespace :=
  mk_namespace (cube ns) (rvals ns) (tvals ns) (Some v)
    (mask ns) (spectra ns) (theta ns) (velax ns) (nu ns)
    (memory ns).
Definition set_mask (v : ndarray bool) (ns : namespace) : namespace :=
  mk_namespace (cube ns) (rvals ns) (tvals ns) (underscore ns)
    (Some v) (spectra ns) (theta ns) (velax ns) (nu ns)
    (memory ns).
Definition set_spectra (v : ndarray F) (ns : namespace) : namespace :=
  mk_namespace (cube ns) (rvals ns) (tvals ns) (underscore ns)
    (mask ns) (Some v) (theta ns) (velax ns) (nu ns)
    (memory ns).
Definition set_theta (v : ndarray F) (ns : namespace) : namespace :=
  mk_namespace (cube ns) (rvals ns) (tvals ns) (underscore ns)
    (mask ns) (spectra ns) (Some v) (velax ns) (nu ns)
    (memory ns).
Definition set_velax (v : arr F) (ns : namespace) : namespace :=
  mk_namespace (cube ns) (rvals ns) (tvals ns) (underscore ns)
    (mask ns) (spectra ns) (theta ns) (Some v) (nu ns)
    (memory ns).
Definition set_nu (v : scalar F) (ns : namespace) : namespace :=
  mk_namespace (cube ns) (rvals ns) (tvals ns) (underscore ns)
    (mask ns) (spectra ns) (theta ns) (velax ns) (Some v)
    (memory ns).

Definition assign_cube (v : cube_t) : M unit := fun ns => (Ok tt, set_cube v ns).
Definition assign_rvals (v : ndarray F) : M unit := fun ns => (Ok tt, set_rvals v ns).
Definition assign_tvals (v : ndarray F) : M unit := fun ns => (Ok tt, set_tvals v ns).
Definition assign_underscore (v : ndarray F) : M unit := fun ns => (Ok tt, set_underscore v ns).
Definition assign_mask (v : ndarray bool) : M unit := fun ns => (Ok tt, set_mask v ns).
Definition assign_spectra (v : ndarray F) : M unit := fun ns => (Ok tt, set_spectra v ns).
Definition assign_theta (v : ndarray F) : M unit := fun ns => (Ok tt, set_theta v ns).
Definition assign_velax (v : arr F) : M unit := fun ns => (Ok tt, set_velax v ns).
Definition assign_nu (v : scalar F) : M unit := fun ns => (Ok tt, set_nu v ns).

Declare Scope py_scope.
Delimit Scope py_scope with py.
Notation "x <- m ;; k" := (bind m (fun x => k))
  (at level 100, m at next level, right associativity) : py_scope.
Notation "m ;; k" := (bind m (fun _ => k))
  (at level 100, right associativity) : py_scope.
Local Open Scope py_scope.

(** *** [rotationmap.disk_coords] *)

(** The sky-plane coordinates of each pixel of the map, and the
    deprojection of one pixel for a geometry: radius, polar angle and
    height.  Both belong to [eddy/fit_cube.py]. *)
Variable sky_coords : cube_t -> ndarray (F * F).
Variable deproject : geometry -> F * F -> F * F * F.

Definition nd_map {A B} (f : A -> B) (a : ndarray A) : ndarray B :=
  mk_ndarray (shape a) (map f (flat a)).

(** Modelled from the spec: [rotationmap.disk_coords] is defined in
    eddy/fit_cube.py, which is not among the sources.  The spec gives its
    contract, "given observing geometry, map pixel sky-coordinates to
    disk-frame radius and polar angle", and the notebook adds that the
    values are returned "for each pixel". *)
Definition disk_coords (c : cube_t) (g : geometry)
    : ndarray F * ndarray F * ndarray F :=
  let px := sky_coords c in
  (nd_map (fun p => fst (fst (deproject g p))) px,
   nd_map (fun p => snd (fst (deproject g p))) px,
   nd_map (fun p => snd (deproject g p)) px).

(** *** The five blocks, statement by statement *)

(** [cube = rotationmap('path/to/cube.fits')], [fits] being what the file
    holds. *)
Definition load_stmt (fits : cube_t) : M unit := assign_cube fits.

(** [rvals, tvals, _ = cube.disk_coords(x0=x0, y0=y0, inc=inc, PA=PA)] *)
Definition coords_stmt (x0 y0 inc PA : F) : M unit :=
  c <- read cube ;;
  let '(r, t, z) := disk_coords c (mk_geometry x0 y0 inc PA None None None) in
  assign_rvals r ;; assign_tvals t ;; assign_underscore z.

Definition coords_block (fits : cube_t) (x0 y0 inc PA : F) : M unit :=
  load_stmt fits ;; coords_stmt x0 y0 inc PA.

(** [mask = np.logical_and(rvals >= r_min, rvals <= r_max)] *)
Definition mask_stmt (r_min r_max : F) : M unit :=
  r1 <- read rvals ;;
  r2 <- read rvals ;;
  m <- lift (logical_and (ge_scalar r1 r_min) (le_scalar r2 r_max)) ;;
  assign_mask m.

(** [mask = mask.flatten()] *)
Definition mask_flatten_stmt : M unit :=
  m <- read mask ;;
  assign_mask (flatten m).

Definition mask_block (r_min r_max : F) : M unit :=
  mask_stmt r_min r_max ;; mask_flatten_stmt.

(** [spectra = cube.data.reshape(cube.data.shape[0], -1)] *)
Definition spectra_reshape_stmt : M unit :=
  c1 <- read cube ;;
  c2 <- read cube ;;
  n0 <- lift (shape0 (data c2)) ;;
  s <- lift (reshape (data c1) n0) ;;
  assign_spectra s.

(** [spectra = spectra.flatten()[:, mask].T] *)
Definition spectra_select_stmt : M unit :=
  s <- read spectra ;;
  m <- read mask ;;
  s' <- lift (getitem_slice_mask (flatten s) m) ;;
  assign_spectra (transpose s').

(** [theta = tvals.flatten()[mask]] *)
Definition theta_stmt : M unit :=
  t <- read tvals ;;
  m <- read mask ;;
  th <- lift (getitem_mask (flatten t) m) ;;
  assign_theta th.

Definition spectra_block : M unit :=
  spectra_reshape_stmt ;; spectra_select_stmt ;; theta_stmt.

(** [np.arange(n)] on the machine at hand. *)
Definition np_arange (n : scalar F) : M (arr F) :=
  fun ns => (arange (memory ns) n, ns).

(** [velax = np.arange(cube.header['naxis3']) - cube.header['crpix3'] + 1.0] *)
Definition velax_index_stmt : M unit :=
  c1 <- read cube ;;
  n <- lift (getitem_header (header c1) "naxis3") ;;
  a <- np_arange n ;;
  c2 <- read cube ;;
  p <- lift (getitem_header (header c2) "crpix3") ;;
  b <- lift (arr_op_scalar Z.sub fsub a p) ;;
  v <- lift (arr_op_scalar Z.add fadd b (Float (of_int 1))) ;;
  assign_velax v.

(** [velax = cube.header['crval3'] + velax * cube.header['cdelt3']] *)
Definition velax_scale_stmt : M unit :=
  c1 <- read cube ;;
  v0 <- lift (getitem_header (header c1) "crval3") ;;
  v <- read velax ;;
  c2 <- read cube ;;
  d <- lift (getitem_header (header c2) "cdelt3") ;;
  w <- lift (arr_op_scalar Z.mul fmul v d) ;;
  v' <- lift (scalar_op_arr Z.add fadd v0 w) ;;
  assign_velax v'.

Definition velax_block : M unit :=
  velax_index_stmt ;; velax_scale_stmt.

(** [nu = cube.header['restfreq']] *)
Definition nu_stmt : M unit :=
  c <- read cube ;;
  f <- lift (getitem_header (header c) "restfreq") ;;
  assign_nu f.

(** One entry of the conversion: [2.9979e8 * (nu - f) / nu]. *)
Definition freq_to_vel (nu f : F) : F :=
  fdiv (fmul (of_int 299790000) (fsub nu f)) nu.

(** [velax = 2.9979e8 * (nu - velax) / nu] *)
Definition convert_stmt : M unit :=
  n1 <- read nu ;;
  v <- read velax ;;
  d <- lift (scalar_op_arr Z.sub fsub n1 v) ;;
  w <- lift (scalar_op_arr Z.mul fmul (Float (of_int 299790000)) d) ;;
  n2 <- read nu ;;
  q <- lift (arr_truediv w n2) ;;
  assign_velax q.

Definition convert_block : M unit :=
  nu_stmt ;; convert_stmt.

(** *** Running the blocks *)

(** The mask block followed by the [theta] assignment. *)
Definition theta_of_annulus (r_min r_max : F) : M unit :=
  mask_block r_min r_max ;; theta_stmt.

(** One block run on its own, the way the tutorial presents them: what it
    produced, read back from the names it assigns, or the exception that
    ended it.  The exception does not stop the blocks that follow. *)
Definition cell {A} (block : M unit) (produced : M A) : M (result A) :=
  fun ns => let '(r, ns') := (block ;; produced) ns in (Ok r, ns').

(** The blocks that follow the first one, each run in turn on the name
    space the previous one left: the mask, the spectra and angles, the
    velocity axis and, when the spectral axis of the cube is in frequency,
    the conversion, a block of its own.  The last component is [velax] as
    the last block run left it. *)
Definition extraction (r_min r_max : F) (in_frequency : bool)
    : M (result (ndarray bool) * result (ndarray F * ndarray F)
         * result (arr F) * result (arr F)) :=
  m <- cell (mask_block r_min r_max) (read mask) ;;
  st <- cell spectra_block
          (s <- read spectra ;; t <- read theta ;; ret (s, t)) ;;
  v <- cell velax_block (read velax) ;;
  w <- (if in_frequency then cell convert_block (read velax) else ret v) ;;
  ret (m, st, v, w).

(** *** Vocabulary of the statements below *)

(** One entry of the mask: [r >= r_min] and [r <= r_max]. *)
Definition in_annulus (r_min r_max r : F) : bool :=
  fle r_min r && fle r r_max.

(** Entry [i] of [velax] after the velax block, for an integer [naxis3]:
    [crval3 + (i - crpix3 + 1.0) * cdelt3], the subtraction in int64 when
    [crpix3] is an int. *)
Definition velax_entry (crpix3 crval3 cdelt3 : scalar F) (i : Z) : F :=
  fadd (promote crval3)
    (fmul (fadd (match crpix3 with
                 | Int q => of_int (wrap64 (i - q))
                 | Float x => fsub (of_int i) x
                 end)
                (of_int 1))
          (promote cdelt3)).

(** The int64 subtractions [i - crpix3], for [0 <= i < naxis3], stay
    clear of the wrap-around. *)
Definition int64_safe (naxis3 : Z) (crpix3 : scalar F) : Prop :=
  match crpix3 with
  | Int q => - 2 ^ 63 <= - q /\ naxis3 - 1 - q < 2 ^ 63
  | Float _ => True
  end.


(** A statement that leaves the name [cube] bound to what it was. *)
Definition keeps_cube {A} (m : M A) : Prop :=
  forall ns, cube (snd (m ns)) = cube ns.

(** Two name spaces with the same [cube] and [rvals], on the same
    machine. *)
Definition same_inputs (ns ns' : namespace) : Prop :=
  cube ns' = cube ns /\ rvals ns' = rvals ns /\ memory ns' = memory ns.

End Tutorial.

Arguments cube_t F : clear implicits.
Arguments geometry F : clear implicits.
Arguments namespace F : clear implicits.
Arguments M F A : clear implicits.

(** ** Sample inputs *)

Module Sample.

(** A header with a spectral axis of four channels, 0.1 apart, the first
    at -2.0, and the rest frequency of CO J=2-1 in Hz. *)
Definition hdr : gmap string (scalar float) :=
  <["naxis3" := Int 4]> (<["crpix3" := Float 1%float]>
    (<["crval3" := Float (-2)%float]> (<["cdelt3" := Float 0.1%float]>
      (<["restfreq" := Float 230538000000%float]> ∅)))).

(** Four channels of a 1 x 2 map. *)
Definition fits : cube_t float :=
  mk_cube (mk_ndarray [4; 1; 2]%nat [1; 2; 3; 4; 5; 6; 7; 8]%float) hdr.

(** The name space once the first block has run: radii 0.5 and 1.5,
    angles 0.25 and -2.0; on a machine with room for arrays of 2^30
    elements. *)
Definition ns : namespace float :=
  mk_namespace (Some fits)
    (Some (mk_ndarray [1; 2]%nat [0.5; 1.5]%float))
    (Some (mk_ndarray [1; 2]%nat [0.25; -2]%float))
    (Some (mk_ndarray [1; 2]%nat [0; 0]%float))
    None None None None None (2 ^ 30).

(** The same cube with [naxis3 = -1], and with the reference pixel
    outside the axis. *)
Definition ns_negative : namespace float :=
  set_cube (mk_cube (data fits) (<["naxis3" := Int (-1)]> hdr)) ns.

Definition ns_far_pixel : namespace float :=
  set_cube (mk_cube (data fits) (<["crpix3" := Int 10]> hdr)) ns.

(** A header without [crpix3], and one without [restfreq]. *)
Definition ns_no_crpix3 : namespace float :=
  set_cube (mk_cube (data fits) (delete "crpix3" hdr)) ns.

Definition ns_no_restfreq : namespace float :=
  set_cube (mk_cube (data fits) (delete "restfreq" hdr)) ns.

(** A spectral axis in Hz holding two neighbouring doubles. *)
Definition f1 : float := 50000000000%float.
Definition f2 : float := PrimFloat.next_up f1.

Definition ns_frequency : namespace float :=
  set_velax (FloatArr [f1; f2]) ns.

(** An axis holding the rest frequency itself. *)
Definition ns_at_rest : namespace float :=
  set_velax (FloatArr [230538000000%float]) ns.

End Sample.

(** ** Further vocabulary and inputs *)

Section MoreVocabulary.
Context {F : Type} {num : Float64 F}.

(** Entry [i] of [velax] between the two statements of the velax block:
    [i - crpix3 + 1.0], the subtraction in int64 when [crpix3] is an int. *)
Definition channel_offset (crpix3 : scalar F) (i : Z) : F :=
  fadd (match crpix3 with
        | Int q => of_int (wrap64 (i - q))
        | Float x => fsub (of_int i) x
        end)
       (of_int 1).



(** No entry of the list is larger than a later one; none is smaller. *)
Definition ascending (l : list F) : Prop :=
  forall (i j : nat) (x y : F),
    (i <= j)%nat -> l !! i = Some x -> l !! j = Some y -> fle x y = true.

Definition descending (l : list F) : Prop :=
  forall (i j : nat) (x y : F),
    (i <= j)%nat -> l !! i = Some x -> l !! j = Some y -> fle y x = true.

End MoreVocabulary.

Module Edge.

(** A fresh interpreter: no name assigned yet. *)
Definition fresh : namespace float :=
  mk_namespace None None None None None None None None None (2 ^ 30).

(** The sample cube with a header that lacks [crval3]. *)
Definition ns_no_crval3 : namespace float :=
  set_cube (mk_cube (data Sample.fits) (delete "crval3" Sample.hdr)) Sample.ns.

(** The sample cube with [naxis3 = nan], and with [naxis3 = 1e30]. *)
Definition ns_nan_naxis3 : namespace float :=
  set_cube (mk_cube (data Sample.fits) (<["naxis3" := Float nan]> Sample.hdr))
    Sample.ns.

Definition ns_huge_naxis3 : namespace float :=
  set_cube (mk_cube (data Sample.fits) (<["naxis3" := Float 1e30%float]> Sample.hdr))
    Sample.ns.

(** A header without [crpix3] whose [naxis3] is [1e30], and a header
    without [crval3] whose [crpix3] is the int [2^63]. *)
Definition ns_huge_naxis3_no_crpix3 : namespace float :=
  set_cube (mk_cube (data Sample.fits)
              (<["naxis3" := Float 1e30%float]> (delete "crpix3" Sample.hdr)))
    Sample.ns.

Definition ns_big_crpix3_no_crval3 : namespace float :=
  set_cube (mk_cube (data Sample.fits)
              (<["crpix3" := Int (2 ^ 63)]> (delete "crval3" Sample.hdr)))
    Sample.ns.


(** The sample cube with [restfreq = 0] and a two-channel axis. *)
Definition ns_zero_restfreq : namespace float :=
  set_velax (FloatArr [1; 2]%float)
    (set_cube (mk_cube (data Sample.fits) (<["restfreq" := Int 0]> Sample.hdr))
       Sample.ns).

(** The sample name space with a nan among the radii. *)
Definition ns_nan_radius : namespace float :=
  set_rvals (mk_ndarray [1; 2]%nat [nan; 1.5]%float) Sample.ns.

(** The sample name space with one polar angle for its two radii. *)
Definition ns_short_tvals : namespace float :=
  set_tvals (mk_ndarray [1; 1]%nat [0.25%float]) Sample.ns.

(** A zero-dimensional data array, and one with an empty first axis. *)
Definition ns_scalar_data : namespace float :=
  set_cube (mk_cube (mk_ndarray [] [1%float]) Sample.hdr) Sample.ns.

Definition ns_empty_axis : namespace float :=
  set_cube (mk_cube (mk_ndarray [0; 1; 2]%nat []) Sample.hdr) Sample.ns.

End Edge.

(** * Properties *)

(** ** The NumPy model on small arrays *)

Module NumPyExamples.

(** [np.arange(3)], [np.arange(2.5)], [np.arange(-1)], [np.arange(nan)],
    [np.arange(1e30)], [np.arange(2**63)], and [np.arange(2**40)] on a
    machine without room for it. *)
Lemma arange_examples :
  arange (F := float) 1000 (Int 3) = Ok (IntArr [0; 1; 2])
  /\ arange 1000 (Float 2.5%float) = Ok (FloatArr [0; 1; 2]%float)
  /\ arange (F := float) 1000 (Int (-1)) = Ok (IntArr [])
  /\ arange 1000 (Float nan) = Raise ValueError
  /\ arange 1000 (Float 1e30%float) = Raise ValueError
  /\ arange (F := float) 1000 (Int (2 ^ 63)) = Ok (FloatArr [])
  /\ arange (F := float) 1000 (Int (2 ^ 40)) = Raise MemoryError.
Proof. repeat split; vm_compute; reflexivity. Qed.

(** [np.arange(3) - 1] is an int64 array and [+ 1.0] makes it float64;
    int64 wraps around; a Python int outside the int64 range, with an int64
    array, or beyond the largest double, with a float64 array, is an
    OverflowError. *)
Lemma promotion_examples :
  arr_op_scalar (F := float) Z.sub fsub (IntArr [0; 1; 2]) (Int 1)
  = Ok (IntArr [-1; 0; 1])
  /\ arr_op_scalar Z.add fadd (IntArr [-1; 0; 1]) (Float 1%float)
     = Ok (FloatArr [0; 1; 2]%float)
  /\ arr_op_scalar (F := float) Z.add fadd
       (IntArr [9223372036854775807]) (Int 1)
     = Ok (IntArr [-9223372036854775808])
  /\ arr_op_scalar (F := float) Z.sub fsub (IntArr [0; 1; 2]) (Int (2 ^ 63))
     = Raise OverflowError
  /\ scalar_op_arr Z.add fadd (Int (10 ^ 400)) (FloatArr [0; 1]%float)
     = Raise OverflowError.
Proof. repeat split; vm_compute; reflexivity. Qed.

(** For [a = [[1, 2], [3, 4], [5, 6]]] and [m = [False, True]]:
    [a.T], [a[:, m]], [a[:, m].T], [a.flatten()[:, m]] and
    [a.flatten()[[False, True, True, False, False, True]]]. *)
Lemma indexing_examples :
  let a := mk_ndarray [3; 2]%nat [1; 2; 3; 4; 5; 6] in
  let m := mk_ndarray [2]%nat [false; true] in
  transpose a = mk_ndarray [2; 3]%nat [1; 3; 5; 2; 4; 6]
  /\ getitem_slice_mask a m = Ok (mk_ndarray [3; 1]%nat [2; 4; 6])
  /\ result_map transpose (getitem_slice_mask a m)
     = Ok (mk_ndarray [1; 3]%nat [2; 4; 6])
  /\ getitem_slice_mask (flatten a) m = Raise IndexError
  /\ getitem_mask (flatten a)
       (mk_ndarray [6]%nat [false; true; true; false; false; true])
     = Ok (mk_ndarray [3]%nat [2; 3; 6]).
Proof. repeat split; vm_compute; reflexivity. Qed.

(** [a.reshape(a.shape[0], -1)] of a (2, 1, 3) array, and of an array with
    an empty first axis. *)
Lemma reshape_examples :
  reshape (mk_ndarray [2; 1; 3]%nat [1; 2; 3; 4; 5; 6]) 2
  = Ok (mk_ndarray [2; 3]%nat [1; 2; 3; 4; 5; 6])
  /\ reshape (mk_ndarray [0; 2]%nat (@nil Z)) 0 = Raise ValueError.
Proof. split; vm_compute; reflexivity. Qed.

End NumPyExamples.

(** ** Facts about binary64 comparisons and zero *)

Module B64Facts.

Lemma SFleb_trans (x y z : spec_float) :
  SFleb x y = true -> SFleb y z = true -> SFleb x z = true.
Proof.
  unfold SFleb.
  destruct x as [sx|sx| |sx mx ex], y as [sy|sy| |sy my ey],
           z as [sz|sz| |sz mz ez];
    try (destruct sx); try (destruct sy); try (destruct sz);
    cbn; try congruence.
  all: destruct (Z.compare_spec ex ey), (Z.compare_spec ey ez),
         (Z.compare_spec ex ez); subst; try lia; try congruence.
  all: fold (Pos.compare mx my) (Pos.compare my mz) (Pos.compare mx mz).
  all: destruct (Pos.compare_spec mx my), (Pos.compare_spec my mz),
         (Pos.compare_spec mx mz); subst; cbn; try lia; try congruence.
Qed.

Lemma SFltb_not_leb (x y : spec_float) :
  SFltb y x = true -> SFleb x y = false.
Proof.
  unfold SFleb, SFltb.
  destruct x as [sx|sx| |sx mx ex], y as [sy|sy| |sy my ey];
    try (destruct sx); try (destruct sy); cbn; try congruence.
  all: destruct (Z.compare_spec ex ey), (Z.compare_spec ey ex);
    subst; try lia; try congruence.
  all: fold (Pos.compare mx my) (Pos.compare my mx).
  all: destruct (Pos.compare_spec mx my), (Pos.compare_spec my mx);
    subst; cbn; try lia; try congruence.
Qed.

Lemma leb_trans (x y z : float) :
  PrimFloat.leb x y = true -> PrimFloat.leb y z = true ->
  PrimFloat.leb x z = true.
Proof. rewrite !FloatAxioms.leb_spec. apply SFleb_trans. Qed.

Lemma ltb_not_leb (x y : float) :
  PrimFloat.ltb y x = true -> PrimFloat.leb x y = false.
Proof.
  rewrite FloatAxioms.ltb_spec, FloatAxioms.leb_spec. apply SFltb_not_leb.
Qed.

(** No radius lies in an annulus whose bounds are the wrong way round. *)
Lemma empty_annulus (r_min r_max r : float) :
  PrimFloat.ltb r_max r_min = true -> in_annulus r_min r_max r = false.
Proof.
  intros Hlt. unfold in_annulus. simpl.
  destruct (PrimFloat.leb r_min r) eqn:H1; [|reflexivity].
  destruct (PrimFloat.leb r r_max) eqn:H2; [|reflexivity].
  pose proof (leb_trans _ _ _ H1 H2) as H. rewrite (ltb_not_leb _ _ Hlt) in H.
  discriminate.
Qed.

(** A wider annulus holds every radius of a narrower one. *)
Lemma wider_annulus (r_min r_max r_min' r_max' r : float) :
  PrimFloat.leb r_min' r_min = true -> PrimFloat.leb r_max r_max' = true ->
  in_annulus r_min r_max r = true -> in_annulus r_min' r_max' r = true.
Proof.
  unfold in_annulus. simpl. intros Hlo Hhi H.
  apply andb_true_iff in H as [H1 H2]. apply andb_true_iff. split.
  - exact (leb_trans _ _ _ Hlo H1).
  - exact (leb_trans _ _ _ H2 Hhi).
Qed.

Lemma finite_ceil (x : float) :
  B64.finite x = true -> exists k, B64.ceil x = Some k.
Proof.
  unfold B64.finite, B64.ceil. destruct (Prim2SF x); intros H;
    try discriminate; eauto.
Qed.

(** [x - x], [c * 0] and [0 / x] for a finite nonzero [x]. *)
Lemma sub_diag (x : float) :
  B64.finite_nonzero x = true ->
  Prim2SF (PrimFloat.sub x x) = S754_zero false.
Proof.
  unfold B64.finite_nonzero. rewrite FloatAxioms.sub_spec.
  destruct (Prim2SF x) as [| | |s m e]; try discriminate. intros _.
  unfold SF64sub, SFsub. rewrite Z.sub_diag. reflexivity.
Qed.

Lemma freq_to_vel_at_rest (x : float) :
  B64.finite_nonzero x = true ->
  PrimFloat.eqb (freq_to_vel x x) 0%float = true.
Proof.
  intros Hx. unfold freq_to_vel. simpl.
  rewrite FloatAxioms.eqb_spec, FloatAxioms.div_spec, FloatAxioms.mul_spec,
    (sub_diag x Hx).
  unfold B64.finite_nonzero in Hx.
  destruct (Prim2SF x) as [| | |s m e]; try discriminate.
  destruct s; vm_compute; reflexivity.
Qed.

(** *** Integers as doubles *)

Lemma pow2_step (d : Z) :
  0 < d -> 2 ^ (Z.succ d - 1) = 2 * 2 ^ (d - 1) /\ 2 ^ Z.succ d = 2 * 2 ^ d.
Proof.
  intros Hd. split.
  - replace (Z.succ d - 1) with (Z.succ (d - 1)) by lia. apply Z.pow_succ_r. lia.
  - apply Z.pow_succ_r. lia.
Qed.

Lemma digits2_bounds (p : positive) :
  2 ^ (Zpos (digits2_pos p) - 1) <= Zpos p < 2 ^ Zpos (digits2_pos p).
Proof.
  induction p as [p IH|p IH|]; simpl digits2_pos.
  - rewrite Pos2Z.inj_succ, (Pos2Z.inj_xI p).
    pose proof (pow2_step (Zpos (digits2_pos p)) eq_refl) as [E1 E2].
    rewrite E1, E2. lia.
  - rewrite Pos2Z.inj_succ, (Pos2Z.inj_xO p).
    pose proof (pow2_step (Zpos (digits2_pos p)) eq_refl) as [E1 E2].
    rewrite E1, E2. lia.
  - simpl. lia.
Qed.

Lemma digits2_unique (p : positive) (d : Z) :
  2 ^ (d - 1) <= Zpos p < 2 ^ d -> 0 < d -> Zpos (digits2_pos p) = d.
Proof.
  intros [Hlo Hhi] Hd. pose proof (digits2_bounds p) as [Hlo' Hhi'].
  destruct (Z.lt_trichotomy (Zpos (digits2_pos p)) d) as [H|[H|H]]; [|exact H|].
  - assert (2 ^ Zpos (digits2_pos p) <= 2 ^ (d - 1)) by (apply Z.pow_le_mono_r; lia). lia.
  - assert (2 ^ d <= 2 ^ (Zpos (digits2_pos p) - 1)) by (apply Z.pow_le_mono_r; lia). lia.
Qed.

Lemma digits2_le (p : positive) (n : Z) :
  0 <= n -> Zpos p < 2 ^ n -> Zpos (digits2_pos p) <= n.
Proof.
  intros Hn Hp. pose proof (digits2_bounds p) as [Hlo _].
  destruct (Z.le_gt_cases (Zpos (digits2_pos p)) n) as [H|H]; [exact H|].
  assert (2 ^ n <= 2 ^ (Zpos (digits2_pos p) - 1)) by (apply Z.pow_le_mono_r; lia). lia.
Qed.

Lemma iter_xO (p k : positive) : Zpos (Pos.iter xO p k) = Zpos p * 2 ^ Zpos k.
Proof.
  induction k as [|k IH] using Pos.peano_ind.
  - simpl. lia.
  - rewrite Pos.iter_succ, (Pos2Z.inj_xO (Pos.iter xO p k)), IH, Pos2Z.inj_succ,
      Z.pow_succ_r by lia. lia.
Qed.

Lemma digits2_iter_xO (p k : positive) :
  Zpos (digits2_pos (Pos.iter xO p k)) = Zpos (digits2_pos p) + Zpos k.
Proof.
  induction k as [|k IH] using Pos.peano_ind.
  - simpl. lia.
  - rewrite Pos.iter_succ. simpl digits2_pos. rewrite Pos2Z.inj_succ, IH. lia.
Qed.

(** A mantissa of 53 bits with an exponent in range is left as it is. *)
Lemma round_aux_canonical (s : bool) (m : positive) (e : Z) :
  Zpos (digits2_pos m) = 53 -> -1074 <= e <= 971 ->
  binary_round_aux prec emax s (Zpos m) e loc_Exact = S754_finite s m e.
Proof.
  intros Hd He.
  assert (E : fexp prec emax (Zpos (digits2_pos m) + e) - e = 0).
  { rewrite Hd. unfold fexp, SpecFloat.emin, prec, emax. lia. }
  unfold binary_round_aux, shr_fexp, Zdigits2. rewrite E. simpl.
  rewrite E. simpl.
  destruct (Z.leb_spec e (emax - prec)) as [_|H]; [reflexivity|].
  unfold emax, prec in H. lia.
Qed.

Lemma round_exact (s : bool) (z : positive) :
  Zpos z < 2 ^ 53 -> binary_round prec emax s z 0 = B64.exact_int s z.
Proof.
  intros Hz. pose proof (digits2_le z 53 ltac:(lia) Hz) as Hd.
  assert (Hd1 : 1 <= Zpos (digits2_pos z)) by lia.
  unfold binary_round, B64.exact_int.
  assert (E : fexp prec emax (Zpos (digits2_pos z) + 0) = Zpos (digits2_pos z) - 53).
  { unfold fexp, SpecFloat.emin, prec, emax. lia. }
  rewrite E. unfold shl_align.
  replace (Zpos (digits2_pos z) - 53 - 0) with (- (53 - Zpos (digits2_pos z))) by lia.
  destruct (53 - Zpos (digits2_pos z)) as [|k|k] eqn:Ek; simpl Z.opp; cbv iota beta.
  - apply round_aux_canonical; lia.
  - apply round_aux_canonical; [rewrite digits2_iter_xO; lia | lia].
  - lia.
Qed.

Lemma exact_int_valid (s : bool) (z : positive) :
  Zpos z < 2 ^ 53 -> valid_binary (B64.exact_int s z) = true.
Proof.
  intros Hz. pose proof (digits2_le z 53 ltac:(lia) Hz) as Hd.
  assert (Hd1 : 1 <= Zpos (digits2_pos z)) by lia.
  unfold B64.exact_int.
  destruct (53 - Zpos (digits2_pos z)) as [|k|k] eqn:Ek; try lia;
    unfold SpecFloat.valid_binary, bounded, canonical_mantissa;
    rewrite ?digits2_iter_xO; apply andb_true_iff; split.
  - apply Z.eqb_eq. unfold fexp, SpecFloat.emin, prec, emax. lia.
  - apply Z.leb_le. unfold prec, emax. lia.
  - apply Z.eqb_eq. unfold fexp, SpecFloat.emin, prec, emax. lia.
  - apply Z.leb_le. unfold prec, emax. lia.
Qed.

(** A positive integer below 2^53 converts to itself. *)
Lemma of_int_pos (z : positive) :
  Zpos z < 2 ^ 53 -> Prim2SF (B64.of_int (Zpos z)) = B64.exact_int false z.
Proof.
  intros Hz. unfold B64.of_int. simpl binary_normalize.
  rewrite (round_exact false z Hz).
  apply Prim2SF_SF2Prim, exact_int_valid, Hz.
Qed.

Lemma shl_align_value (m : positive) (e ez : Z) :
  ez <= e -> Zpos (fst (shl_align m e ez)) = Zpos m * 2 ^ (e - ez).
Proof.
  intros H. unfold shl_align.
  destruct (ez - e) as [|k|k] eqn:Ek; simpl fst.
  - replace (e - ez) with 0 by lia. simpl. lia.
  - lia.
  - rewrite iter_xO. replace (e - ez) with (Zpos k) by lia. reflexivity.
Qed.

Lemma exact_int_value (s : bool) (z : positive) :
  Zpos z < 2 ^ 53 ->
  exists m e, B64.exact_int s z = S754_finite s m e
              /\ e = Zpos (digits2_pos z) - 53
              /\ Zpos m = Zpos z * 2 ^ (- e).
Proof.
  intros Hz. pose proof (digits2_le z 53 ltac:(lia) Hz) as Hd.
  unfold B64.exact_int.
  destruct (53 - Zpos (digits2_pos z)) as [|k|k] eqn:Ek; try lia.
  - exists z, 0. split; [reflexivity|]. split; [lia|]. simpl. lia.
  - exists (Pos.iter xO z k), (Zpos (digits2_pos z) - 53).
    split; [reflexivity|]. split; [reflexivity|].
    rewrite iter_xO. f_equal. f_equal. lia.
Qed.

(** Minus a power of two, normalised: minus one. *)
Lemma normalize_minus_pow2 (k : Z) :
  0 <= k <= 52 ->
  binary_normalize prec emax (- 2 ^ k) (- k) false
  = S754_finite true 4503599627370496 (-52).
Proof.
  intros Hk.
  assert (exists n : nat, k = Z.of_nat n /\ (n <= 52)%nat) as (n & -> & Hn).
  { exists (Z.to_nat k). lia. }
  do 53 (destruct n as [|n]; [vm_compute; reflexivity|]).
  lia.
Qed.

Lemma digits2_mono (p q : positive) :
  Zpos p <= Zpos q -> Zpos (digits2_pos p) <= Zpos (digits2_pos q).
Proof.
  intros H. pose proof (digits2_bounds p) as [Hp _].
  pose proof (digits2_bounds q) as [_ Hq].
  destruct (Z.le_gt_cases (Zpos (digits2_pos p)) (Zpos (digits2_pos q))) as [L|G];
    [exact L|].
  assert (2 ^ Zpos (digits2_pos q) <= 2 ^ (Zpos (digits2_pos p) - 1))
    by (apply Z.pow_le_mono_r; lia).
  lia.
Qed.

(** The doubles of two neighbouring integers differ by exactly one. *)
Lemma of_int_pred_sub (c : Z) :
  1 <= c < 2 ^ 53 ->
  Prim2SF (PrimFloat.sub (B64.of_int (c - 1)) (B64.of_int c))
  = S754_finite true 4503599627370496 (-52).
Proof.
  intros Hc. rewrite FloatAxioms.sub_spec.
  destruct c as [|q|q]; try lia.
  destruct (Z.eq_dec (Zpos q) 1) as [E1|N1].
  - injection E1 as ->. vm_compute. reflexivity.
  - assert (exists p, Zpos q - 1 = Zpos p) as [p Hp].
    { exists (Z.to_pos (Zpos q - 1)). rewrite Z2Pos.id; lia. }
    rewrite Hp.
    rewrite (of_int_pos p) by lia. rewrite (of_int_pos q) by lia.
    destruct (exact_int_value false p ltac:(lia)) as (m1 & e1 & -> & He1 & Hm1).
    destruct (exact_int_value false q ltac:(lia)) as (m2 & e2 & -> & He2 & Hm2).
    pose proof (digits2_mono p q ltac:(lia)) as Hmono.
    pose proof (digits2_le q 53 ltac:(lia) ltac:(lia)) as Hq53.
    assert (Hp1 : 1 <= Zpos (digits2_pos p)) by lia.
    unfold SF64sub, SFsub.
    rewrite (Z.min_l e1 e2) by lia.
    simpl cond_Zopp.
    rewrite (shl_align_value m1 e1 e1) by lia.
    rewrite (shl_align_value m2 e2 e1) by lia.
    replace (Zpos m1 * 2 ^ (e1 - e1) - Zpos m2 * 2 ^ (e2 - e1))
      with (- 2 ^ (- e1)).
    + replace e1 with (- (- e1)) at 2 by lia.
      apply normalize_minus_pow2. lia.
    + rewrite Hm1, Hm2, Z.sub_diag, Z.mul_1_r.
      replace (- e1) with (- e2 + (e2 - e1)) by lia.
      rewrite Z.pow_add_r by lia.
      replace (Zpos p) with (Zpos q - 1) by lia.
      ring.
Qed.

Lemma SFeqb_refl (x : spec_float) : x <> S754_nan -> SFeqb x x = true.
Proof.
  unfold SFeqb. destruct x as [s|s| |s m e]; try destruct s; simpl;
    try reflexivity; try congruence; intros _.
  all: rewrite Z.compare_refl; fold (Pos.compare m m);
    rewrite Pos.compare_refl; reflexivity.
Qed.

(** Adding a zero product to a finite value leaves it, up to [==]. *)
Lemma add_zero_product (v z d : float) :
  Prim2SF z = S754_zero false ->
  B64.finite d = true -> B64.finite v = true ->
  PrimFloat.eqb (PrimFloat.add v (PrimFloat.mul z d)) v = true.
Proof.
  unfold B64.finite. intros Hz Hd Hv.
  rewrite FloatAxioms.eqb_spec, FloatAxioms.add_spec, FloatAxioms.mul_spec, Hz.
  destruct (Prim2SF d) as [sd|sd| |sd md ed]; try discriminate;
    destruct (Prim2SF v) as [sv|sv| |sv mv ev]; try discriminate.
  all: try (destruct sd, sv; reflexivity).
  all: simpl; apply SFeqb_refl; discriminate.
Qed.

(** The entry of the reference channel, in binary64. *)
Lemma velax_reference_entry (p v0 d : scalar float) (c : Z) :
  1 <= c < 2 ^ 53 ->
  p = Int c \/ p = Float (B64.of_int c) ->
  B64.finite (promote d) = true -> B64.finite (promote v0) = true ->
  PrimFloat.eqb (velax_entry p v0 d (c - 1)) (promote v0) = true.
Proof.
  intros Hc Hp Hd Hv. unfold velax_entry.
  apply add_zero_product; [|exact Hd|exact Hv].
  destruct Hp as [-> | ->].
  - replace (c - 1 - c) with (-1) by lia. vm_compute. reflexivity.
  - change (Prim2SF (PrimFloat.add (PrimFloat.sub (B64.of_int (c - 1)) (B64.of_int c))
                       (B64.of_int 1)) = S754_zero false).
    rewrite FloatAxioms.add_spec, (of_int_pred_sub c Hc). vm_compute. reflexivity.
Qed.

(** The literals of the snippets. *)
Lemma literals :
  B64.of_int 1 = 1%float /\ B64.of_int 299790000 = 2.9979e8%float.
Proof. split; vm_compute; reflexivity. Qed.

End B64Facts.

(** ** Rounding to nearest is monotone

    From the IEEE specification of the primitive floats: the shifts of
    [binary_round_aux] keep track of where the exact value lies, its
    result is a nearest double, ties to even; a nearest double of a larger
    real is not smaller; and addition, subtraction, multiplication and
    division return the rounding of the exact result. *)

Module RoundFacts.
Import Round B64Facts.

(** *** Powers of two *)

Lemma bpow_gt_0 (e : Z) : (0 < bpow e)%R.
Proof. apply powerRZ_lt. lra. Qed.

Lemma bpow_plus (a b : Z) : bpow (a + b) = (bpow a * bpow b)%R.
Proof. apply powerRZ_add. lra. Qed.


Lemma bpow_1 : bpow 1 = 2%R.
Proof. unfold bpow. simpl. lra. Qed.

Lemma bpow_succ (e : Z) : bpow (e + 1) = (2 * bpow e)%R.
Proof. rewrite bpow_plus, bpow_1. lra. Qed.

Lemma bpow_IZR (n : Z) : 0 <= n -> bpow n = IZR (2 ^ n).
Proof.
  intros Hn. unfold bpow. rewrite <- (Z2Nat.id n Hn) at 2.
  rewrite <- pow_IZR. rewrite <- (Z2Nat.id n Hn) at 1.
  symmetry. apply pow_powerRZ.
Qed.

Lemma bpow_ge_1 (n : Z) : 0 <= n -> (1 <= bpow n)%R.
Proof.
  intros Hn. rewrite (bpow_IZR n Hn). apply IZR_le.
  assert (0 < 2 ^ n) by (apply Z.pow_pos_nonneg; lia). lia.
Qed.

Lemma bpow_le (a b : Z) : a <= b -> (bpow a <= bpow b)%R.
Proof.
  intros H. replace b with (a + (b - a)) by lia. rewrite bpow_plus.
  pose proof (bpow_gt_0 a). pose proof (bpow_ge_1 (b - a) ltac:(lia)). nra.
Qed.

Lemma bpow_lt (a b : Z) : a < b -> (bpow a < bpow b)%R.
Proof.
  intros H. replace b with (a + 1 + (b - a - 1)) by lia.
  rewrite bpow_plus, bpow_succ.
  pose proof (bpow_gt_0 a). pose proof (bpow_ge_1 (b - a - 1) ltac:(lia)). nra.
Qed.

Lemma bpow_lt_inv (a b : Z) : (bpow a < bpow b)%R -> a < b.
Proof.
  intros H. destruct (Z.lt_ge_cases a b) as [L|G]; [exact L|].
  pose proof (bpow_le b a G). lra.
Qed.

Lemma bpow_le_inv (a b : Z) : (bpow a <= bpow b)%R -> a <= b.
Proof.
  intros H. destruct (Z.le_gt_cases a b) as [L|G]; [exact L|].
  pose proof (bpow_lt b a G). lra.
Qed.

Lemma digits2_bpow (p : positive) :
  (bpow (Zpos (digits2_pos p) - 1) <= IZR (Zpos p) < bpow (Zpos (digits2_pos p)))%R.
Proof.
  pose proof (digits2_bounds p) as [Hlo Hhi].
  rewrite !bpow_IZR by lia. split; [apply IZR_le | apply IZR_lt]; assumption.
Qed.

Lemma shr_1_nonneg (m : Z) (r s : bool) :
  0 <= m ->
  shr_1 (Build_shr_record m r s) = Build_shr_record (m / 2) (Z.odd m) (r || s).
Proof.
  intros Hm. destruct m as [|p|p]; [reflexivity| |lia].
  destruct p as [p|p|]; simpl shr_1.
  - f_equal. rewrite (Pos2Z.inj_xI p). apply (Z.div_unique _ _ _ 1); lia.
  - f_equal. rewrite (Pos2Z.inj_xO p). apply (Z.div_unique _ _ _ 0); lia.
  - reflexivity.
Qed.

Lemma located_shr_1 (v : R) (m e : Z) (r s : bool) :
  0 <= m ->
  located v m e (loc_of_shr_record (Build_shr_record m r s)) ->
  located v (m / 2) (e + 1)
    (loc_of_shr_record (Build_shr_record (m / 2) (Z.odd m) (r || s))).
Proof.
  intros Hm H.
  pose proof (Z.div_mod m 2 ltac:(lia)) as Hdm.
  pose proof (Z.mod_pos_bound m 2 ltac:(lia)) as Hb.
  rewrite (Zodd_mod m).
  pose proof (bpow_gt_0 e) as HB.
  assert (Hq : IZR m = (2 * IZR (m / 2) + IZR (m mod 2))%R).
  { rewrite <- mult_IZR, <- plus_IZR. f_equal. exact Hdm. }
  unfold located, F2R in *. rewrite bpow_succ, ?plus_IZR.
  assert (Hcase : m mod 2 = 0 \/ m mod 2 = 1) by lia.
  destruct Hcase as [E|E]; rewrite E in *; simpl Z.eqb; cbv iota;
    destruct r, s; simpl in *; rewrite ?plus_IZR in *; rewrite Hq in H; clear Hq;
    generalize dependent (IZR (m / 2)); generalize dependent (bpow e);
    intros B HB x H; try (subst v; ring); nra.
Qed.

Lemma located_iter (v : R) (p : positive) :
  forall (mrs : shr_record) (e : Z),
    0 <= shr_m mrs ->
    located v (shr_m mrs) e (loc_of_shr_record mrs) ->
    0 <= shr_m (SpecFloat.iter_pos shr_1 p mrs)
    /\ located v (shr_m (SpecFloat.iter_pos shr_1 p mrs)) (e + Zpos p)
         (loc_of_shr_record (SpecFloat.iter_pos shr_1 p mrs)).
Proof.
  assert (Step : forall mrs e, 0 <= shr_m mrs ->
            located v (shr_m mrs) e (loc_of_shr_record mrs) ->
            0 <= shr_m (shr_1 mrs)
            /\ located v (shr_m (shr_1 mrs)) (e + 1) (loc_of_shr_record (shr_1 mrs))).
  { intros [m r s] e Hm H. simpl in Hm. rewrite (shr_1_nonneg m r s Hm).
    split; [simpl; apply Z.div_pos; lia|].
    simpl shr_m. apply located_shr_1; assumption. }
  induction p as [p IH|p IH|]; intros mrs e Hm H; simpl SpecFloat.iter_pos.
  - destruct (Step mrs e Hm H) as [H1 H2].
    destruct (IH _ _ H1 H2) as [H3 H4].
    destruct (IH _ _ H3 H4) as [H5 H6].
    split; [exact H5|].
    replace (e + Zpos p~1) with (e + 1 + Zpos p + Zpos p) by lia. exact H6.
  - destruct (IH _ _ Hm H) as [H3 H4].
    destruct (IH _ _ H3 H4) as [H5 H6].
    split; [exact H5|].
    replace (e + Zpos p~0) with (e + Zpos p + Zpos p) by lia. exact H6.
  - apply Step; assumption.
Qed.

Lemma loc_of_record_of_loc (m : Z) (l : location) :
  loc_of_shr_record (shr_record_of_loc m l) = l
  /\ shr_m (shr_record_of_loc m l) = m.
Proof. destruct l as [|[| |]]; split; reflexivity. Qed.

(** Shifting right to the exponent [e'], [e <= e']. *)
Lemma located_shr (v : R) (m e e' : Z) (l : location) :
  0 <= m -> located v m e l -> e <= e' ->
  let '(mrs, e1) := shr (shr_record_of_loc m l) e (e' - e) in
  e1 = e' /\ 0 <= shr_m mrs
  /\ located v (shr_m mrs) e' (loc_of_shr_record mrs).
Proof.
  intros Hm H He. unfold shr.
  destruct (loc_of_record_of_loc m l) as [E1 E2].
  destruct (e' - e) as [|p|p] eqn:Ep; try lia.
  - rewrite E1, E2. replace e' with e by lia. repeat split; assumption.
  - destruct (located_iter v p (shr_record_of_loc m l) e) as [H1 H2];
      rewrite ?E1, ?E2; try assumption.
    replace e' with (e + Zpos p) by lia. repeat split; assumption.
Qed.

Lemma round_nearest_even_located (v : R) (m e : Z) (l : location) :
  0 <= m -> located v m e l ->
  0 <= round_nearest_even m l /\ nearest_even v (round_nearest_even m l) e.
Proof.
  intros Hm H. pose proof (bpow_gt_0 e) as HB.
  unfold nearest_even, F2R.
  destruct l as [|[| |]]; simpl in *; unfold F2R in *.
  - split; [exact Hm|]. left. subst v.
    replace (IZR m * bpow e - IZR m * bpow e)%R with 0%R by ring.
    rewrite Rabs_R0. lra.
  - destruct (Z.even m) eqn:Ev.
    + split; [exact Hm|]. right. split; [|exact Ev].
      subst v. rewrite Rabs_left1; lra.
    + split; [lia|]. right. split.
      * subst v. rewrite plus_IZR. rewrite Rabs_right; lra.
      * rewrite Z.even_add, Ev. reflexivity.
  - split; [exact Hm|]. left. rewrite Rabs_left1; lra.
  - split; [lia|]. left. rewrite plus_IZR in *. rewrite Rabs_right; lra.
Qed.

(** *** The rounding of [binary_round_aux] *)

Lemma fexp64_eq (x : Z) : fexp64 x = Z.max (x - 53) (- 1074).
Proof. reflexivity. Qed.

Lemma located_bounds (v : R) (m e : Z) (l : location) :
  located v m e l -> (F2R m e <= v < F2R (m + 1) e)%R.
Proof.
  pose proof (bpow_gt_0 e) as HB. unfold located, F2R. rewrite plus_IZR.
  destruct l as [|[| |]]; intros H; try subst v; nra.
Qed.

Lemma near_bounds (v : R) (k e : Z) :
  nearest_even v k e ->
  ((IZR k - / 2) * bpow e <= v <= (IZR k + / 2) * bpow e)%R.
Proof.
  pose proof (bpow_gt_0 e) as HB. unfold nearest_even, F2R.
  intros [H|[H _]]; unfold Rabs in H;
    destruct (Rcase_abs (IZR k * bpow e - v)); nra.
Qed.

Lemma IZR_half_lt (a b : Z) : (IZR a - / 2 < IZR b)%R -> a <= b.
Proof.
  intros H. apply Z.lt_succ_r. apply lt_IZR. rewrite succ_IZR. lra.
Qed.

Lemma IZR_half_le (a b : Z) : (IZR b <= IZR a + / 2)%R -> b <= a.
Proof.
  intros H. apply Z.lt_succ_r. apply lt_IZR. rewrite succ_IZR. lra.
Qed.

Lemma F2R_bpow (n e : Z) : 0 <= n -> F2R (2 ^ n) e = bpow (n + e).
Proof. intros Hn. unfold F2R. rewrite <- bpow_IZR by assumption. symmetry. apply bpow_plus. Qed.

(** A real in [bpow (M-1), bpow M) between the multiples [m] and [m+1] of
    [bpow e]: [m] has [M - e] digits. *)
Lemma binade_digits (v : R) (p : positive) (e M : Z) :
  (F2R (Zpos p) e <= v < F2R (Zpos p + 1) e)%R ->
  (bpow (M - 1) <= v < bpow M)%R ->
  Zpos (digits2_pos p) + e = M.
Proof.
  intros [Hlo Hhi] [Mlo Mhi].
  pose proof (digits2_bounds p) as [Dlo Dhi].
  set (d := Zpos (digits2_pos p)) in *.
  assert (Hd : 0 < d) by (unfold d; lia).
  pose proof (bpow_gt_0 e) as HB.
  assert (L : (bpow (d - 1 + e) <= v)%R).
  { rewrite <- F2R_bpow by lia. unfold F2R in *.
    apply Rle_trans with (2 := Hlo). apply Rmult_le_compat_r; [lra|].
    apply IZR_le. exact Dlo. }
  assert (U : (v < bpow (d + e))%R).
  { rewrite <- F2R_bpow by lia. unfold F2R in *.
    apply Rlt_le_trans with (1 := Hhi). apply Rmult_le_compat_r; [lra|].
    apply IZR_le. lia. }
  assert (d - 1 + e < M) by (apply bpow_lt_inv; lra).
  assert (M - 1 < d + e) by (apply bpow_lt_inv; lra).
  lia.
Qed.

Lemma shr_fexp_located (v : R) (m e M : Z) (l : location) :
  0 <= m -> located v m e l ->
  (bpow (M - 1) <= v < bpow M)%R ->
  e <= fexp64 M ->
  exists mrs,
    shr_fexp prec emax m e l = (mrs, fexp64 M)
    /\ 0 <= shr_m mrs
    /\ located v (shr_m mrs) (fexp64 M) (loc_of_shr_record mrs).
Proof.
  intros Hm Hloc HM He.
  assert (E : fexp prec emax (Zdigits2 m + e) = fexp64 M).
  { pose proof (located_bounds _ _ _ _ Hloc) as Hb.
    destruct m as [|p|p]; [| |lia].
    - simpl Zdigits2. unfold F2R in Hb. simpl in Hb.
      assert (M - 1 < e).
      { apply bpow_lt_inv. destruct HM as [HM1 HM2], Hb as [Hb1 Hb2].
        change (0 + 1) with 1 in Hb2.
        apply Rle_lt_trans with (1 := HM1). lra. }
      change (fexp prec emax (0 + e)) with (fexp64 (0 + e)).
      rewrite (fexp64_eq M) in *. rewrite (fexp64_eq (0 + e)). lia.
    - simpl Zdigits2. rewrite (binade_digits v p e M Hb HM). reflexivity. }
  unfold shr_fexp. rewrite E.
  pose proof (located_shr v m e (fexp64 M) l Hm Hloc He) as H.
  destruct (shr (shr_record_of_loc m l) e (fexp64 M - e)) as [mrs e1].
  destruct H as (-> & H1 & H2). exists mrs. auto.
Qed.

(** *** Overflow and the last shift *)

Lemma clip_small (r : R) : (r < bpow 1024)%R -> clip r = Fin r.
Proof. intros H. unfold clip. destruct (Rlt_dec r (bpow 1024)); [reflexivity | contradiction]. Qed.

Lemma clip_big (r : R) : (bpow 1024 <= r)%R -> clip r = PInf.
Proof. intros H. unfold clip. destruct (Rlt_dec r (bpow 1024)); [lra | reflexivity]. Qed.

Lemma xsign_zero (s : bool) : xsign s (Fin 0) = Fin 0.
Proof. destruct s; simpl; [f_equal; ring | reflexivity]. Qed.

Lemma Zdigits2_small (k : Z) : 0 <= k < 2 ^ 53 -> Zdigits2 k <= 53.
Proof.
  intros [H0 H1]. destruct k as [|p|p]; simpl; [lia| |lia].
  pose proof (digits2_bounds p) as [Dlo _].
  assert (2 ^ (Zpos (digits2_pos p) - 1) < 2 ^ 53) by lia.
  apply Z.pow_lt_mono_r_iff in H; lia.
Qed.

Lemma shr_fexp_exact_small (k E : Z) :
  0 <= k < 2 ^ 53 -> - 1074 <= E ->
  shr_fexp prec emax k E loc_Exact = (shr_record_of_loc k loc_Exact, E).
Proof.
  intros Hk HE. unfold shr_fexp.
  pose proof (Zdigits2_small k Hk) as Hd.
  change (fexp prec emax (Zdigits2 k + E)) with (fexp64 (Zdigits2 k + E)).
  rewrite fexp64_eq. unfold shr.
  destruct (Z.max (Zdigits2 k + E - 53) (-1074) - E) eqn:En; try reflexivity. lia.
Qed.

Lemma shr_fexp_exact_top (E : Z) :
  - 1074 <= E ->
  shr_fexp prec emax (2 ^ 53) E loc_Exact
    = (shr_record_of_loc (2 ^ 52) loc_Exact, E + 1).
Proof.
  intros HE. unfold shr_fexp.
  change (fexp prec emax (Zdigits2 (2 ^ 53) + E)) with (fexp64 (54 + E)).
  rewrite fexp64_eq.
  replace (Z.max (54 + E - 53) (-1074) - E) with 1 by lia.
  reflexivity.
Qed.

Lemma fexp64_ge (M : Z) : - 1074 <= fexp64 M /\ M - 53 <= fexp64 M.
Proof. rewrite fexp64_eq. lia. Qed.

(** The mantissa chosen for a value of the binade [M]. *)
Lemma near_mantissa (v : R) (k M : Z) :
  (bpow (M - 1) <= v < bpow M)%R ->
  nearest_even v k (fexp64 M) ->
  k <= 2 ^ 53 /\ (fexp64 M = M - 53 -> 2 ^ 52 <= k).
Proof.
  intros [Mlo Mhi] Hk. apply near_bounds in Hk as [Klo Khi].
  pose proof (fexp64_ge M) as [E1 E2].
  set (E := fexp64 M) in *. pose proof (bpow_gt_0 E) as HB.
  split.
  - apply IZR_half_lt.
    assert (H : (v < IZR (2 ^ 53) * bpow E)%R).
    { apply Rlt_le_trans with (1 := Mhi).
      fold (F2R (2 ^ 53) E). rewrite F2R_bpow by lia. apply bpow_le. lia. }
    apply Rmult_lt_reg_r with (1 := HB). lra.
  - intros EM. apply IZR_half_le.
    assert (H : (IZR (2 ^ 52) * bpow E <= v)%R).
    { apply Rle_trans with (2 := Mlo).
      fold (F2R (2 ^ 52) E). rewrite F2R_bpow by lia. apply bpow_le. lia. }
    apply Rmult_le_reg_r with (1 := HB). lra.
Qed.

Lemma canonical_bounded (p : positive) (E M : Z) :
  E = fexp64 M -> E <= 971 -> Zpos p < 2 ^ 53 ->
  (E = M - 53 -> 2 ^ 52 <= Zpos p) ->
  SpecFloat.bounded prec emax p E = true.
Proof.
  intros HE L U Lo. rewrite fexp64_eq in HE.
  unfold SpecFloat.bounded, canonical_mantissa.
  apply andb_true_iff. split; [|apply Z.leb_le; exact L].
  apply Z.eqb_eq.
  change (fexp prec emax (Zpos (digits2_pos p) + E))
    with (fexp64 (Zpos (digits2_pos p) + E)).
  rewrite fexp64_eq.
  pose proof (digits2_le p 53 ltac:(lia) U) as Hd.
  destruct (Z.eq_dec E (- 1074)) as [K|K]; [lia|].
  rewrite (digits2_unique p 53); [lia| |lia].
  split; [apply Lo; lia | exact U].
Qed.

Lemma binary_round_aux_spec (s : bool) (v : R) (m e M : Z) (l : location) :
  0 <= m -> located v m e l ->
  (bpow (M - 1) <= v < bpow M)%R ->
  e <= fexp64 M ->
  exists rho,
    pos_round v rho
    /\ SF2X (binary_round_aux prec emax s m e l) = Some (xsign s (clip rho))
    /\ valid_binary (binary_round_aux prec emax s m e l) = true.
Proof.
  intros Hm Hloc HM He.
  destruct (shr_fexp_located v m e M l Hm Hloc HM He) as (mrs & E1 & Hm1 & Hl1).
  destruct (round_nearest_even_located v _ _ _ Hm1 Hl1) as [Hk0 Hk].
  destruct (near_mantissa v _ M HM Hk) as [Hk53 Hk52].
  pose proof (fexp64_ge M) as [HE1 HE2].
  unfold binary_round_aux. rewrite E1.
  set (k := round_nearest_even (shr_m mrs) (loc_of_shr_record mrs)) in *.
  pose proof (eq_refl : fexp64 M = fexp64 M) as EE.
  set (E := fexp64 M) in EE at 1. fold E in He, E1, Hl1, Hk, Hk52, HE1, HE2 |- *.
  exists (F2R k E). split.
  { exists M, k. rewrite <- EE. auto. }
  pose proof (bpow_gt_0 E) as HB.
  assert (Hcase : k = 0 \/ 0 < k < 2 ^ 53 \/ k = 2 ^ 53) by lia.
  destruct Hcase as [K|[K|K]].
  - rewrite K, shr_fexp_exact_small by lia. simpl. split; [|reflexivity].
    unfold F2R. rewrite Rmult_0_l, clip_small, xsign_zero by apply bpow_gt_0.
    reflexivity.
  - rewrite shr_fexp_exact_small by lia. simpl shr_m.
    destruct k as [|p|p]; try lia.
    change (emax - prec) with 971.
    destruct (Z.leb_spec E 971) as [L|L]; simpl SF2X; (split; [|simpl]).
    + rewrite clip_small; [reflexivity|].
      apply Rlt_le_trans with (F2R (2 ^ 53) E).
      * unfold F2R. apply Rmult_lt_compat_r; [exact HB|]. apply IZR_lt. lia.
      * rewrite F2R_bpow by lia. apply bpow_le. lia.
    + apply (canonical_bounded p E M); auto; lia.
    + rewrite clip_big; [reflexivity|].
      assert (EM : E = M - 53) by (pose proof (fexp64_eq M) as Q; lia).
      specialize (Hk52 EM).
      apply Rle_trans with (F2R (2 ^ 52) E).
      * rewrite F2R_bpow by lia. apply bpow_le. lia.
      * unfold F2R. apply Rmult_le_compat_r; [lra|]. apply IZR_le. lia.
    + reflexivity.
  - rewrite K, shr_fexp_exact_top by lia. simpl shr_m.
    change (2 ^ 52) with (Zpos (2 ^ 52)%positive) at 1. cbv iota.
    change (emax - prec) with 971.
    assert (V : F2R (2 ^ 53) E = F2R (Zpos (2 ^ 52)%positive) (E + 1)).
    { change (Zpos (2 ^ 52)%positive) with (2 ^ 52).
      rewrite !F2R_bpow by lia. f_equal. lia. }
    destruct (Z.leb_spec (E + 1) 971) as [L|L]; simpl SF2X; (split; [|simpl]).
    + rewrite clip_small; [rewrite V; reflexivity|].
      rewrite F2R_bpow by lia. apply bpow_lt. lia.
    + apply (canonical_bounded _ (E + 1) (M + 1)); try lia.
      rewrite fexp64_eq. pose proof (fexp64_eq M) as Q.
        assert (2 ^ 52 <= k -> E = M - 53 \/ M - 53 < - 1074) by lia.
        assert (HkM : (bpow (M - 1) <= v)%R) by tauto.
        destruct (Z.eq_dec E (M - 53)) as [|Hne]; [lia|exfalso].
        apply near_bounds in Hk as [Klo Khi]. rewrite K in Klo.
        assert (ME : M <= E + 52) by lia.
        assert (HvM : (v < bpow (52 + E))%R).
        { apply Rlt_le_trans with (bpow M); [tauto | apply bpow_le; lia]. }
        rewrite <- (F2R_bpow 52 E) in HvM by lia. unfold F2R in HvM.
        assert (IZR (2 ^ 53) = 2 * IZR (2 ^ 52))%R.
        { rewrite <- mult_IZR. f_equal. }
        assert (1 <= IZR (2 ^ 52))%R by (apply IZR_le; lia).
        nra.
    + rewrite clip_big; [reflexivity|].
      rewrite F2R_bpow by lia. apply bpow_le. lia.
    + reflexivity.
Qed.

(** *** A nearest double of a larger real is not smaller *)

Lemma pos_round_nonneg (v rho : R) : pos_round v rho -> (0 <= rho)%R.
Proof.
  intros (M & k & _ & Hk & _ & ->). unfold F2R.
  apply Rmult_le_pos; [apply IZR_le; exact Hk | left; apply bpow_gt_0].
Qed.

Lemma pos_round_mono (v1 v2 r1 r2 : R) :
  (v1 <= v2)%R -> pos_round v1 r1 -> pos_round v2 r2 -> (r1 <= r2)%R.
Proof.
  intros Hv (M1 & k1 & [L1 U1] & K1 & N1 & ->) (M2 & k2 & [L2 U2] & K2 & N2 & ->).
  assert (HM : M1 <= M2).
  { assert (M1 - 1 < M2) by (apply bpow_lt_inv; lra). lia. }
  pose proof (fexp64_eq M1) as F1. pose proof (fexp64_eq M2) as F2.
  pose proof (near_bounds _ _ _ N1) as [A1 B1].
  pose proof (near_bounds _ _ _ N2) as [A2 B2].
  set (E1 := fexp64 M1) in *. set (E2 := fexp64 M2) in *.
  pose proof (bpow_gt_0 E1) as P1. pose proof (bpow_gt_0 E2) as P2.
  assert (HE : E1 = E2 \/ E1 < E2) by lia.
  destruct HE as [HE|HE].
  - rewrite <- HE in *. unfold F2R. apply Rmult_le_compat_r; [lra|].
    apply IZR_le. destruct (Z_le_gt_dec k1 k2) as [|Hgt]; [assumption|exfalso].
    assert (Hs : (IZR k2 + 1 <= IZR k1)%R).
    { rewrite <- succ_IZR. apply IZR_le. lia. }
    assert (Q1 : ((IZR k2 + / 2) * bpow E1 <= (IZR k1 - / 2) * bpow E1)%R).
    { apply Rmult_le_compat_r; lra. }
    assert (V2 : v2 = ((IZR k2 + / 2) * bpow E1)%R) by lra.
    assert (V1 : v1 = ((IZR k1 - / 2) * bpow E1)%R) by lra.
    assert (Keq : IZR k1 = (IZR k2 + 1)%R).
    { apply Rmult_eq_reg_r with (bpow E1); [|lra]. lra. }
    assert (Kz : k1 = k2 + 1).
    { apply eq_IZR. rewrite plus_IZR. exact Keq. }
    assert (Ev1 : Z.even k1 = true).
    { destruct N1 as [N1|[_ N1]]; [|exact N1]. exfalso.
      unfold F2R in N1. rewrite V1 in N1.
      replace (IZR k1 * bpow E1 - (IZR k1 - / 2) * bpow E1)%R
        with (bpow E1 / 2)%R in N1 by field.
      rewrite Rabs_right in N1; lra. }
    assert (Ev2 : Z.even k2 = true).
    { destruct N2 as [N2|[_ N2]]; [|exact N2]. exfalso.
      unfold F2R in N2. rewrite V2 in N2.
      replace (IZR k2 * bpow E1 - (IZR k2 + / 2) * bpow E1)%R
        with (- (bpow E1 / 2))%R in N2 by field.
      rewrite Rabs_left in N2; lra. }
    rewrite Kz, Z.even_add, Ev2 in Ev1. discriminate.
  - set (T := Z.max M1 E1).
    apply Rle_trans with (bpow T); [|apply Rle_trans with (bpow (M2 - 1))].
    + assert (BT : bpow T = F2R (2 ^ (T - E1)) E1).
      { rewrite F2R_bpow by lia. f_equal. lia. }
      assert (HT : (v1 < F2R (2 ^ (T - E1)) E1)%R).
      { rewrite <- BT. apply Rlt_le_trans with (1 := U1). apply bpow_le. lia. }
      rewrite BT. unfold F2R in *. apply Rmult_le_compat_r; [lra|]. apply IZR_le.
      apply IZR_half_lt. apply Rmult_lt_reg_r with (1 := P1). lra.
    + apply bpow_le. lia.
    + assert (EM : E2 = M2 - 53) by lia.
      destruct (near_mantissa v2 k2 M2 (conj L2 U2) N2) as [_ H52].
      fold E2 in H52. specialize (H52 EM).
      apply Rle_trans with (F2R (2 ^ 52) E2).
      * rewrite F2R_bpow by lia. apply bpow_le. lia.
      * unfold F2R. apply Rmult_le_compat_r; [lra|]. apply IZR_le. exact H52.
Qed.

Lemma xle_refl (a : xr) : xle a a.
Proof. destruct a; simpl; auto. lra. Qed.

Lemma xle_trans (a b c : xr) : xle a b -> xle b c -> xle a c.
Proof. destruct a, b, c; simpl; try tauto. lra. Qed.

Lemma xopp_anti (a b : xr) : xle a b -> xle (xopp b) (xopp a).
Proof. destruct a, b; simpl; try tauto. lra. Qed.

Lemma clip_mono (r1 r2 : R) : (r1 <= r2)%R -> xle (clip r1) (clip r2).
Proof.
  intros H. unfold clip.
  destruct (Rlt_dec r1 (bpow 1024)), (Rlt_dec r2 (bpow 1024)); simpl; auto. lra.
Qed.

Lemma clip_nonneg (r : R) : (0 <= r)%R -> xle (Fin 0) (clip r).
Proof. intros H. unfold clip. destruct (Rlt_dec r (bpow 1024)); simpl; auto. Qed.

Lemma clip_nonpos (r : R) : (0 <= r)%R -> xle (xopp (clip r)) (Fin 0).
Proof.
  intros H. unfold clip. destruct (Rlt_dec r (bpow 1024)); simpl; auto. lra.
Qed.

Lemma rounds_mono (v1 v2 : R) (x1 x2 : xr) :
  (v1 <= v2)%R -> rounds v1 x1 -> rounds v2 x2 -> xle x1 x2.
Proof.
  intros Hv [[V1 ->]|[[V1 (r1 & R1 & ->)]|[V1 (r1 & R1 & ->)]]]
            [[V2 ->]|[[V2 (r2 & R2 & ->)]|[V2 (r2 & R2 & ->)]]];
    try lra.
  - apply xle_refl.
  - apply clip_nonneg. eapply pos_round_nonneg; eauto.
  - apply clip_mono. eapply pos_round_mono; eauto.
  - apply clip_nonpos. eapply pos_round_nonneg; eauto.
  - eapply xle_trans with (Fin 0).
    + apply clip_nonpos. eapply pos_round_nonneg; eauto.
    + apply clip_nonneg. eapply pos_round_nonneg; eauto.
  - apply xopp_anti, clip_mono. eapply pos_round_mono; [|exact R2|exact R1]. lra.
Qed.

(** *** The order of doubles is the order of their values *)

Lemma bounded_inv (m : positive) (e : Z) :
  SpecFloat.bounded prec emax m e = true ->
  - 1074 <= e <= 971 /\ Zpos m < 2 ^ 53 /\ (e = - 1074 \/ 2 ^ 52 <= Zpos m)
  /\ fexp64 (Zpos (digits2_pos m) + e) = e.
Proof.
  unfold SpecFloat.bounded, canonical_mantissa. intros H.
  apply andb_true_iff in H as [H1 H2].
  apply Z.eqb_eq in H1. apply Z.leb_le in H2.
  change (emax - prec) with 971 in H2.
  change (fexp prec emax (Zpos (digits2_pos m) + e))
    with (fexp64 (Zpos (digits2_pos m) + e)) in H1.
  pose proof H1 as H1'. rewrite fexp64_eq in H1.
  pose proof (digits2_bounds m) as [Dlo Dhi].
  set (d := Zpos (digits2_pos m)) in *.
  assert (Hd : 0 < d) by (unfold d; lia).
  split; [lia|]. split; [|split; [|exact H1']].
  - apply Z.lt_le_trans with (1 := Dhi). apply Z.pow_le_mono_r; lia.
  - destruct (Z.eq_dec e (- 1074)) as [|Hne]; [left; assumption|right].
    replace d with 53 in Dlo by lia. exact Dlo.
Qed.

Lemma F2R_pos (m : positive) (e : Z) : (0 < F2R (Zpos m) e)%R.
Proof.
  unfold F2R. apply Rmult_lt_0_compat; [apply IZR_lt; lia | apply bpow_gt_0].
Qed.

Lemma canonical_lt (m1 m2 : positive) (e1 e2 : Z) :
  SpecFloat.bounded prec emax m1 e1 = true -> SpecFloat.bounded prec emax m2 e2 = true ->
  e1 < e2 -> (F2R (Zpos m1) e1 < F2R (Zpos m2) e2)%R.
Proof.
  intros B1 B2 He.
  apply bounded_inv in B1 as (R1 & U1 & _ & _).
  apply bounded_inv in B2 as (R2 & _ & [L2|L2] & _); [lia|].
  apply Rlt_le_trans with (F2R (2 ^ 53) e1);
    [|apply Rle_trans with (F2R (2 ^ 52) e2)].
  - unfold F2R. apply Rmult_lt_compat_r; [apply bpow_gt_0|]. apply IZR_lt; lia.
  - rewrite !F2R_bpow by lia. apply bpow_le. lia.
  - unfold F2R. apply Rmult_le_compat_r; [left; apply bpow_gt_0|]. apply IZR_le; lia.
Qed.

Lemma canonical_compare (m1 m2 : positive) (e1 e2 : Z) :
  SpecFloat.bounded prec emax m1 e1 = true -> SpecFloat.bounded prec emax m2 e2 = true ->
  Rcmp (match e1 ?= e2 with
        | Eq => Pos.compare m1 m2
        | Lt => Lt
        | Gt => Gt
        end) (F2R (Zpos m1) e1) (F2R (Zpos m2) e2).
Proof.
  intros B1 B2. destruct (Z.compare_spec e1 e2) as [->|He|He]; simpl.
  - pose proof (bpow_gt_0 e2) as HB.
    destruct (Pos.compare_spec m1 m2) as [->|Hm|Hm]; simpl; unfold F2R.
    + reflexivity.
    + apply Rmult_lt_compat_r; [exact HB|]. apply IZR_lt. lia.
    + apply Rmult_lt_compat_r; [exact HB|]. apply IZR_lt. lia.
  - apply canonical_lt; assumption.
  - apply canonical_lt; assumption.
Qed.

Lemma SFleb_xle (x y : spec_float) (a b : xr) :
  valid_binary x = true -> valid_binary y = true ->
  SF2X x = Some a -> SF2X y = Some b ->
  (SFleb x y = true <-> xle a b).
Proof.
  intros Vx Vy Hx Hy. unfold SFleb.
  destruct x as [sx|sx| |sx mx ex], y as [sy|sy| |sy my ey]; try discriminate;
    simpl in Hx, Hy; injection Hx as <-; injection Hy as <-;
    try (pose proof (F2R_pos mx ex)); try (pose proof (F2R_pos my ey)).
  1-8: try destruct sx; try destruct sy; simpl; split; intros; 
       try discriminate; try reflexivity; try tauto; try lra.
  simpl in Vx, Vy. pose proof (canonical_compare mx my ex ey Vx Vy) as C.
  pose proof (canonical_compare my mx ey ex Vy Vx) as C'.
  unfold SFcompare.
  fold (Pos.compare mx my).
  destruct sx, sy; simpl xsign; simpl xle.
  - rewrite Z.compare_antisym in C'. rewrite (Pos.compare_antisym mx my) in C'.
    destruct (ex ?= ey); simpl in *;
      [destruct (Pos.compare mx my); simpl in *|..];
      split; intros; try discriminate; try reflexivity; lra.
  - split; intros; try reflexivity; lra.
  - split; intros; try discriminate; lra.
  - destruct (ex ?= ey); simpl in *;
      [destruct (Pos.compare mx my); simpl in *|..];
      split; intros; try discriminate; try reflexivity; lra.
Qed.

(** *** The operations round the exact result *)

Lemma xsign_Fin (s : bool) (r : R) : xsign s (Fin r) = Fin (sgnR s r).
Proof. destruct s; reflexivity. Qed.

Lemma rounds_zero : rounds 0 (Fin 0).
Proof. left. auto. Qed.

Lemma rounds_signed (s : bool) (v rho : R) :
  (0 < v)%R -> pos_round v rho -> rounds (sgnR s v) (xsign s (clip rho)).
Proof.
  intros Hv Hr. destruct s; simpl.
  - right. right. split; [lra|]. exists rho. rewrite Ropp_involutive. auto.
  - right. left. split; [lra|]. exists rho. auto.
Qed.

(** A double rounds to itself. *)
Lemma rounds_self (s : bool) (m : positive) (e : Z) :
  SpecFloat.bounded prec emax m e = true ->
  rounds (sgnR s (F2R (Zpos m) e)) (Fin (sgnR s (F2R (Zpos m) e))).
Proof.
  intros B. apply bounded_inv in B as (He & Hm & _ & Hc).
  rewrite <- xsign_Fin.
  rewrite <- (clip_small (F2R (Zpos m) e)).
  - apply rounds_signed; [apply F2R_pos|].
    exists (Zpos (digits2_pos m) + e), (Zpos m). rewrite Hc.
    split; [|split; [lia|split; [|reflexivity]]].
    + pose proof (digits2_bpow m) as [Dlo Dhi]. pose proof (bpow_gt_0 e).
      replace (Zpos (digits2_pos m) + e - 1) with (Zpos (digits2_pos m) - 1 + e) by lia.
      rewrite !bpow_plus. unfold F2R. split.
      * apply Rmult_le_compat_r; lra.
      * apply Rmult_lt_compat_r; lra.
    + left. replace (F2R (Zpos m) e - F2R (Zpos m) e)%R with 0%R by ring.
      rewrite Rabs_R0. pose proof (bpow_gt_0 e). lra.
  - apply Rlt_le_trans with (F2R (2 ^ 53) e).
    + unfold F2R. apply Rmult_lt_compat_r; [apply bpow_gt_0 | apply IZR_lt; lia].
    + rewrite F2R_bpow by lia. apply bpow_le. lia.
Qed.

Lemma F2R_binade (m : positive) (e : Z) :
  (bpow (Zpos (digits2_pos m) + e - 1) <= F2R (Zpos m) e
   < bpow (Zpos (digits2_pos m) + e))%R.
Proof.
  pose proof (digits2_bpow m) as [Dlo Dhi]. pose proof (bpow_gt_0 e).
  replace (Zpos (digits2_pos m) + e - 1) with (Zpos (digits2_pos m) - 1 + e) by lia.
  rewrite !bpow_plus. unfold F2R. split.
  - apply Rmult_le_compat_r; lra.
  - apply Rmult_lt_compat_r; lra.
Qed.

Lemma shl_align_spec (m : positive) (e e' : Z) :
  F2R (Zpos (fst (shl_align m e e'))) (snd (shl_align m e e')) = F2R (Zpos m) e
  /\ snd (shl_align m e e') <= e'  \/
  F2R (Zpos (fst (shl_align m e e'))) (snd (shl_align m e e')) = F2R (Zpos m) e
  /\ e <= e' /\ shl_align m e e' = (m, e).
Proof.
  unfold shl_align. destruct (e' - e) as [|k|k] eqn:Ek.
  - right. simpl. split; [reflexivity|]. split; [lia|reflexivity].
  - right. simpl. split; [reflexivity|]. split; [lia|reflexivity].
  - left. simpl. split; [|lia]. unfold F2R. rewrite iter_xO, mult_IZR.
    rewrite <- bpow_IZR by lia. rewrite Rmult_assoc, <- bpow_plus.
    f_equal. f_equal. lia.
Qed.

Lemma shl_align_F2R (m : positive) (e e' : Z) :
  e' <= e ->
  F2R (Zpos (fst (shl_align m e e'))) e' = F2R (Zpos m) e.
Proof.
  intros He. unfold shl_align. destruct (e' - e) as [|k|k] eqn:Ek; simpl.
  - replace e' with e by lia. reflexivity.
  - lia.
  - unfold F2R. rewrite iter_xO, mult_IZR.
    rewrite <- bpow_IZR by lia. rewrite Rmult_assoc, <- bpow_plus.
    f_equal. f_equal. lia.
Qed.

Lemma binary_round_spec (s : bool) (m : positive) (e : Z) :
  exists rho,
    pos_round (F2R (Zpos m) e) rho
    /\ SF2X (binary_round prec emax s m e) = Some (xsign s (clip rho))
    /\ valid_binary (binary_round prec emax s m e) = true.
Proof.
  unfold binary_round.
  change (fexp prec emax (Zpos (digits2_pos m) + e))
    with (fexp64 (Zpos (digits2_pos m) + e)).
  set (M := Zpos (digits2_pos m) + e).
  pose proof (shl_align_spec m e (fexp64 M)) as H.
  destruct (shl_align m e (fexp64 M)) as [mz ez]. simpl in H.
  apply (binary_round_aux_spec s (F2R (Zpos m) e) (Zpos mz) ez M loc_Exact).
  - lia.
  - simpl. destruct H as [[H _]|[H _]]; symmetry; exact H.
  - replace (M - 1) with (Zpos (digits2_pos m) + e - 1) by (unfold M; lia).
    apply F2R_binade.
  - destruct H as [[_ H]|[_ [H E]]]; [exact H|]. injection E as _ <-. exact H.
Qed.

Lemma binary_normalize_spec (z e : Z) (sz : bool) :
  exists x,
    rounds (F2R z e) x
    /\ SF2X (binary_normalize prec emax z e sz) = Some x
    /\ valid_binary (binary_normalize prec emax z e sz) = true.
Proof.
  destruct z as [|m|m]; simpl binary_normalize.
  - exists (Fin 0). split; [|split; reflexivity].
    unfold F2R. rewrite Rmult_0_l. apply rounds_zero.
  - destruct (binary_round_spec false m e) as (rho & Hr & Hx & Hv).
    exists (xsign false (clip rho)). split; [|split; assumption].
    apply (rounds_signed false); [apply F2R_pos | exact Hr].
  - destruct (binary_round_spec true m e) as (rho & Hr & Hx & Hv).
    exists (xsign true (clip rho)). split; [|split; assumption].
    replace (F2R (Zneg m) e) with (sgnR true (F2R (Zpos m) e)).
    + apply rounds_signed; [apply F2R_pos | exact Hr].
    + unfold sgnR, F2R. change (Zneg m) with (- Zpos m). rewrite opp_IZR. ring.
Qed.

Lemma F2R_cond_Zopp (s : bool) (m : Z) (e : Z) :
  F2R (cond_Zopp s m) e = sgnR s (F2R m e).
Proof.
  unfold F2R, sgnR, cond_Zopp. destruct s; [rewrite opp_IZR; ring | reflexivity].
Qed.

Lemma F2R_add (a b e : Z) : F2R (a + b) e = (F2R a e + F2R b e)%R.
Proof. unfold F2R. rewrite plus_IZR. ring. Qed.

Lemma F2R_sub (a b e : Z) : F2R (a - b) e = (F2R a e - F2R b e)%R.
Proof. unfold F2R. rewrite minus_IZR. ring. Qed.

(** The value of a double that is neither nan nor infinite. *)
Lemma SF2X_Fin (x : spec_float) (r : R) :
  valid_binary x = true -> SF2X x = Some (Fin r) ->
  (x = S754_zero false \/ x = S754_zero true) /\ r = 0%R
  \/ exists s m e, x = S754_finite s m e
       /\ SpecFloat.bounded prec emax m e = true
       /\ r = sgnR s (F2R (Zpos m) e).
Proof.
  intros V H. destruct x as [[|]|[|]| |s m e]; simpl in H; try discriminate.
  - left. split; [auto | congruence].
  - left. split; [auto | congruence].
  - right. exists s, m, e. rewrite xsign_Fin in H. split; [reflexivity|].
    split; [exact V | congruence].
Qed.

Lemma SFadd_spec (x y : spec_float) (rx ry : R) :
  valid_binary x = true -> valid_binary y = true ->
  SF2X x = Some (Fin rx) -> SF2X y = Some (Fin ry) ->
  exists z, SF2X (SFadd prec emax x y) = Some z /\ rounds (rx + ry) z.
Proof.
  intros Vx Vy Hx Hy.
  destruct (SF2X_Fin x rx Vx Hx) as [[Zx ->]|(sx & mx & ex & -> & Bx & ->)];
    destruct (SF2X_Fin y ry Vy Hy) as [[Zy ->]|(sy & my & ey & -> & By & ->)].
  - exists (Fin 0). rewrite Rplus_0_l. split; [|apply rounds_zero].
    destruct Zx as [-> | ->], Zy as [-> | ->]; reflexivity.
  - rewrite Rplus_0_l. eexists. split; [|apply rounds_self; exact By].
    destruct Zx as [-> | ->]; simpl; rewrite xsign_Fin; reflexivity.
  - rewrite Rplus_0_r. eexists. split; [|apply rounds_self; exact Bx].
    destruct Zy as [-> | ->]; simpl; rewrite xsign_Fin; reflexivity.
  - unfold SFadd.
    set (ez := Z.min ex ey).
    destruct (binary_normalize_spec
                (cond_Zopp sx (Zpos (fst (shl_align mx ex ez)))
                 + cond_Zopp sy (Zpos (fst (shl_align my ey ez)))) ez false)
      as (z & Hr & Hz & _).
    exists z. split; [exact Hz|].
    rewrite F2R_add, !F2R_cond_Zopp, !shl_align_F2R in Hr by (unfold ez; lia).
    exact Hr.
Qed.

Lemma SFsub_spec (x y : spec_float) (rx ry : R) :
  valid_binary x = true -> valid_binary y = true ->
  SF2X x = Some (Fin rx) -> SF2X y = Some (Fin ry) ->
  exists z, SF2X (SFsub prec emax x y) = Some z /\ rounds (rx - ry) z.
Proof.
  intros Vx Vy Hx Hy.
  destruct (SF2X_Fin x rx Vx Hx) as [[Zx ->]|(sx & mx & ex & -> & Bx & ->)];
    destruct (SF2X_Fin y ry Vy Hy) as [[Zy ->]|(sy & my & ey & -> & By & ->)].
  - exists (Fin 0). rewrite Rminus_0_r. split; [|apply rounds_zero].
    destruct Zx as [-> | ->], Zy as [-> | ->]; reflexivity.
  - replace (0 - sgnR sy (F2R (Zpos my) ey))%R
      with (sgnR (negb sy) (F2R (Zpos my) ey))
      by (destruct sy; simpl; ring).
    eexists. split; [|apply rounds_self; exact By].
    destruct Zx as [-> | ->]; simpl; rewrite xsign_Fin; reflexivity.
  - rewrite Rminus_0_r. eexists. split; [|apply rounds_self; exact Bx].
    destruct Zy as [-> | ->]; simpl; rewrite xsign_Fin; reflexivity.
  - unfold SFsub.
    set (ez := Z.min ex ey).
    destruct (binary_normalize_spec
                (cond_Zopp sx (Zpos (fst (shl_align mx ex ez)))
                 - cond_Zopp sy (Zpos (fst (shl_align my ey ez)))) ez false)
      as (z & Hr & Hz & _).
    exists z. split; [exact Hz|].
    rewrite F2R_sub, !F2R_cond_Zopp, !shl_align_F2R in Hr by (unfold ez; lia).
    exact Hr.
Qed.

Lemma F2R_mul (a b ea eb : Z) : F2R (a * b) (ea + eb) = (F2R a ea * F2R b eb)%R.
Proof. unfold F2R. rewrite mult_IZR, bpow_plus. ring. Qed.

Lemma sgnR_mul (sx sy : bool) (a b : R) :
  (sgnR sx a * sgnR sy b)%R = sgnR (xorb sx sy) (a * b).
Proof. destruct sx, sy; simpl; ring. Qed.

Lemma SFmul_spec (x y : spec_float) (rx ry : R) :
  valid_binary x = true -> valid_binary y = true ->
  SF2X x = Some (Fin rx) -> SF2X y = Some (Fin ry) ->
  exists z, SF2X (SFmul prec emax x y) = Some z /\ rounds (rx * ry) z.
Proof.
  intros Vx Vy Hx Hy.
  destruct (SF2X_Fin x rx Vx Hx) as [[Zx ->]|(sx & mx & ex & -> & Bx & ->)];
    destruct (SF2X_Fin y ry Vy Hy) as [[Zy ->]|(sy & my & ey & -> & By & ->)].
  - exists (Fin 0). rewrite Rmult_0_l. split; [|apply rounds_zero].
    destruct Zx as [-> | ->], Zy as [-> | ->]; reflexivity.
  - exists (Fin 0). rewrite Rmult_0_l. split; [|apply rounds_zero].
    destruct Zx as [-> | ->]; reflexivity.
  - exists (Fin 0). rewrite Rmult_0_r. split; [|apply rounds_zero].
    destruct Zy as [-> | ->]; reflexivity.
  - unfold SFmul. rewrite sgnR_mul, <- F2R_mul.
    change (Zpos mx * Zpos my) with (Zpos (mx * my)).
    set (M := Zpos (digits2_pos (mx * my)) + (ex + ey)).
    destruct (binary_round_aux_spec (xorb sx sy) (F2R (Zpos (mx * my)) (ex + ey))
                (Zpos (mx * my)) (ex + ey) M loc_Exact)
      as (rho & Hr & Hz & _).
    + lia.
    + reflexivity.
    + replace (M - 1) with (Zpos (digits2_pos (mx * my)) + (ex + ey) - 1)
        by (unfold M; lia).
      apply F2R_binade.
    + apply bounded_inv in Bx as (Rx & Ux & Lx & _).
      apply bounded_inv in By as (Ry & Uy & Ly & _).
      rewrite fexp64_eq. unfold M.
      destruct (Z_le_gt_dec (ex + ey) (- 1074)) as [|Hgt]; [lia|].
      assert (Hd : 53 <= Zpos (digits2_pos (mx * my))).
      { pose proof (digits2_bounds (mx * my)) as [_ Dhi].
        assert (Hp : 2 ^ 52 <= Zpos (mx * my)).
        { rewrite Pos2Z.inj_mul. destruct Lx as [Lx|Lx]; [destruct Ly as [Ly|Ly]; [lia|]|]; nia. }
        assert (H : 2 ^ 52 < 2 ^ Zpos (digits2_pos (mx * my))) by lia.
        apply Z.pow_lt_mono_r_iff in H; lia. }
      lia.
    + exists (xsign (xorb sx sy) (clip rho)). split; [exact Hz|].
      apply rounds_signed; [apply F2R_pos | exact Hr].
Qed.

(** Division. *)

Lemma new_location_spec (m2 r : Z) :
  0 < m2 -> 0 <= r < m2 ->
  match new_location m2 r with
  | loc_Exact => r = 0
  | loc_Inexact Lt => 0 < r /\ 2 * r < m2
  | loc_Inexact Eq => 2 * r = m2
  | loc_Inexact Gt => m2 < 2 * r
  end.
Proof.
  intros Hm Hr. unfold new_location, new_location_even, new_location_odd.
  destruct (Z.even m2) eqn:Ev.
  - destruct (Z.eqb_spec r 0) as [|Hne]; [assumption|].
    destruct (Z.compare_spec (2 * r) m2); lia.
  - destruct (Z.eqb_spec r 0) as [|Hne]; [assumption|].
    assert (m2 <> 2 * r).
    { intros E. rewrite E, Z.even_mul in Ev. discriminate. }
    destruct (Z.compare_spec (2 * r + 1) m2); lia.
Qed.

Lemma located_div (n m2 q r e : Z) :
  0 < m2 -> n = m2 * q + r -> 0 <= r < m2 ->
  located (IZR n / IZR m2 * bpow e) q e (new_location m2 r).
Proof.
  intros Hm Hn Hr. pose proof (new_location_spec m2 r Hm Hr) as H.
  pose proof (bpow_gt_0 e) as HB.
  assert (Hm' : (0 < IZR m2)%R) by (apply IZR_lt; lia).
  assert (V : (IZR n / IZR m2 = IZR q + IZR r / IZR m2)%R).
  { rewrite Hn, plus_IZR, mult_IZR. field. lra. }
  rewrite V. unfold located, F2R.
  destruct (new_location m2 r) as [|[| |]].
  - subst r. unfold Rdiv. rewrite Rmult_0_l, Rplus_0_r. reflexivity.
  - assert (E : (IZR r / IZR m2 = / 2)%R).
    { rewrite <- H, mult_IZR. field. apply eq_IZR_contrapositive. lia. }
    rewrite E. reflexivity.
  - destruct H as [H1 H2].
    assert (A : (0 < IZR r / IZR m2)%R).
    { apply Rdiv_lt_0_compat; [apply IZR_lt; lia | exact Hm']. }
    assert (B : (IZR r / IZR m2 < / 2)%R).
    { apply Rmult_lt_reg_r with (IZR m2); [exact Hm'|].
      unfold Rdiv. rewrite Rmult_assoc, Rinv_l, Rmult_1_r by lra.
      apply IZR_lt in H2. rewrite mult_IZR in H2. lra. }
    split; apply Rmult_lt_compat_r; lra.
  - assert (A : (IZR r / IZR m2 < 1)%R).
    { apply Rmult_lt_reg_r with (IZR m2); [exact Hm'|].
      unfold Rdiv. rewrite Rmult_assoc, Rinv_l, Rmult_1_r by lra.
      rewrite Rmult_1_l. apply IZR_lt. lia. }
    assert (B : (/ 2 < IZR r / IZR m2)%R).
    { apply Rmult_lt_reg_r with (IZR m2); [exact Hm'|].
      unfold Rdiv. rewrite Rmult_assoc, Rinv_l, Rmult_1_r by lra.
      apply IZR_lt in H. rewrite mult_IZR in H. lra. }
    rewrite plus_IZR. split; apply Rmult_lt_compat_r; lra.
Qed.

Lemma exists_binade (v : R) (D : Z) :
  (bpow (D - 1) < v < bpow (D + 1))%R ->
  exists M, (bpow (M - 1) <= v < bpow M)%R /\ D <= M.
Proof.
  intros [Hlo Hhi]. destruct (Rlt_le_dec v (bpow D)) as [H|H].
  - exists D. split; [lra | lia].
  - exists (D + 1). replace (D + 1 - 1) with D by lia. split; [lra | lia].
Qed.

Lemma SFdiv_core_spec (m1 m2 : positive) (e1 e2 : Z) :
  let v := (F2R (Zpos m1) e1 / F2R (Zpos m2) e2)%R in
  exists q e l M,
    SFdiv_core_binary prec emax (Zpos m1) e1 (Zpos m2) e2 = (q, e, l)
    /\ 0 <= q /\ located v q e l
    /\ (bpow (M - 1) <= v < bpow M)%R /\ e <= fexp64 M.
Proof.
  intros v. unfold SFdiv_core_binary.
  change (Zdigits2 (Zpos m1)) with (Zpos (digits2_pos m1)).
  change (Zdigits2 (Zpos m2)) with (Zpos (digits2_pos m2)).
  set (d1 := Zpos (digits2_pos m1)). set (d2 := Zpos (digits2_pos m2)).
  set (D := d1 + e1 - (d2 + e2)).
  change (fexp prec emax D) with (fexp64 D).
  set (e' := Z.min (fexp64 D) (e1 - e2)).
  set (s := e1 - e2 - e').
  assert (Hs : 0 <= s) by (unfold s, e'; lia).
  set (m' := match s with 0 => Zpos m1 | Zpos _ => Z.shiftl (Zpos m1) s | Zneg _ => 0 end).
  assert (Hm' : m' = Zpos m1 * 2 ^ s).
  { unfold m'. destruct s as [|p|p] eqn:Es; [lia| |lia].
    rewrite Z.shiftl_mul_pow2 by lia. reflexivity. }
  pose proof (Z_div_mod m' (Zpos m2) ltac:(lia)) as Hdm.
  destruct (Z.div_eucl m' (Zpos m2)) as [q r]. destruct Hdm as [Hq Hr].
  pose proof (F2R_pos m1 e1) as P1. pose proof (F2R_pos m2 e2) as P2.
  pose proof (bpow_gt_0 e2) as B2. pose proof (bpow_gt_0 e') as B'.
  assert (V : v = (IZR m' / IZR (Zpos m2) * bpow e')%R).
  { unfold v, F2R. rewrite Hm', mult_IZR, <- bpow_IZR by lia.
    replace e1 with (s + e' + e2) at 1 by (unfold s; lia).
    rewrite !bpow_plus. field.
    split; first [lra | apply eq_IZR_contrapositive; lia]. }
  assert (Hv : (bpow (D - 1) < v < bpow (D + 1))%R).
  { pose proof (F2R_binade m1 e1) as [L1 U1].
    pose proof (F2R_binade m2 e2) as [L2 U2].
    fold d1 in L1, U1. fold d2 in L2, U2.
    pose proof (bpow_gt_0 (d2 + e2 - 1)) as G1.
    pose proof (bpow_gt_0 (D - 1)) as G3.
    assert (A1 : bpow (d1 + e1 - 1) = (bpow (D - 1) * bpow (d2 + e2))%R).
    { rewrite <- bpow_plus. f_equal. unfold D. lia. }
    assert (A2 : bpow (d1 + e1) = (bpow (D + 1) * bpow (d2 + e2 - 1))%R).
    { rewrite <- bpow_plus. f_equal. unfold D. lia. }
    unfold v. split.
    - apply Rmult_lt_reg_r with (F2R (Zpos m2) e2); [exact P2|].
      unfold Rdiv. rewrite Rmult_assoc, Rinv_l, Rmult_1_r by lra.
      apply Rlt_le_trans with (2 := L1). rewrite A1.
      apply Rmult_lt_compat_l; lra.
    - apply Rmult_lt_reg_r with (F2R (Zpos m2) e2); [exact P2|].
      unfold Rdiv. rewrite Rmult_assoc, Rinv_l, Rmult_1_r by lra.
      apply Rlt_le_trans with (1 := U1). rewrite A2.
      apply Rmult_le_compat_l; [left; apply bpow_gt_0 | lra]. }
  destruct (exists_binade v D Hv) as (M & HM & HDM).
  exists q, e', (new_location (Zpos m2) r), M.
  split; [reflexivity|]. split; [|split; [|split; [exact HM|]]].
  - assert (0 <= m') by (rewrite Hm'; apply Z.mul_nonneg_nonneg; [lia | apply Z.pow_nonneg; lia]).
    destruct (Z_lt_le_dec q 0) as [Hneg|]; [|assumption]. nia.
  - rewrite V. apply located_div; [lia | exact Hq | exact Hr].
  - rewrite fexp64_eq. unfold e'. rewrite fexp64_eq. lia.
Qed.

Lemma sgnR_div (sx sy : bool) (a b : R) :
  b <> 0%R -> (sgnR sx a / sgnR sy b)%R = sgnR (xorb sx sy) (a / b).
Proof. intros Hb. destruct sx, sy; simpl; field; exact Hb. Qed.

Lemma SFdiv_spec (x y : spec_float) (rx ry : R) :
  valid_binary x = true -> valid_binary y = true ->
  SF2X x = Some (Fin rx) -> SF2X y = Some (Fin ry) -> ry <> 0%R ->
  exists z, SF2X (SFdiv prec emax x y) = Some z /\ rounds (rx / ry) z.
Proof.
  intros Vx Vy Hx Hy Hny.
  destruct (SF2X_Fin x rx Vx Hx) as [[Zx ->]|(sx & mx & ex & -> & Bx & ->)];
    destruct (SF2X_Fin y ry Vy Hy) as [[Zy ->]|(sy & my & ey & -> & By & ->)];
    try (exfalso; apply Hny; reflexivity).
  - exists (Fin 0). unfold Rdiv. rewrite Rmult_0_l. split; [|apply rounds_zero].
    destruct Zx as [-> | ->]; reflexivity.
  - unfold SFdiv.
    pose proof (F2R_pos mx ex) as Px. pose proof (F2R_pos my ey) as Py.
    rewrite sgnR_div by lra.
    destruct (SFdiv_core_spec mx my ex ey) as (q & e & l & M & -> & Hq & Hl & HM & He).
    destruct (binary_round_aux_spec (xorb sx sy) _ q e M l Hq Hl HM He)
      as (rho & Hr & Hz & _).
    exists (xsign (xorb sx sy) (clip rho)). split; [exact Hz|].
    apply rounds_signed; [apply Rdiv_lt_0_compat; assumption | exact Hr].
Qed.

(** *** Operations with one finite operand *)

Lemma leb_val (x y : float) (a b : xr) :
  val x = Some a -> val y = Some b ->
  (PrimFloat.leb x y = true <-> xle a b).
Proof.
  intros Hx Hy. rewrite FloatAxioms.leb_spec.
  apply SFleb_xle; auto using FloatAxioms.Prim2SF_valid.
Qed.

Lemma leb_defined (x y : float) :
  PrimFloat.leb x y = true ->
  exists a b, val x = Some a /\ val y = Some b /\ xle a b.
Proof.
  intros H. pose proof H as H'. rewrite FloatAxioms.leb_spec in H'.
  unfold val.
  destruct (SF2X (Prim2SF x)) as [a|] eqn:Hx, (SF2X (Prim2SF y)) as [b|] eqn:Hy.
  - exists a, b. split; [reflexivity|]. split; [reflexivity|].
    apply (leb_val x y a b Hx Hy). exact H.
  - destruct (Prim2SF y); try discriminate.
    unfold SFleb, SFcompare in H'. destruct (Prim2SF x); discriminate.
  - destruct (Prim2SF x); try discriminate.
  - destruct (Prim2SF x); try discriminate.
Qed.

Lemma xle_PInf (a : xr) : xle a PInf.
Proof. destruct a; exact I. Qed.

Lemma xle_NInf (a : xr) : xle NInf a.
Proof. exact I. Qed.

Lemma op1_mono (phi : R -> R) (a a' z z' : xr) :
  (forall r r', (r <= r')%R -> (phi r <= phi r')%R) ->
  xle a a' -> op1_rel phi true a z -> op1_rel phi true a' z' -> xle z z'.
Proof.
  intros Hphi Ha Hz Hz'.
  destruct a as [|r|], a' as [|r'|]; simpl in *; subst;
    try contradiction; try apply xle_PInf; try apply xle_NInf.
  eapply rounds_mono; [apply Hphi; exact Ha | exact Hz | exact Hz'].
Qed.

Lemma op1_anti (phi : R -> R) (a a' z z' : xr) :
  (forall r r', (r <= r')%R -> (phi r' <= phi r)%R) ->
  xle a a' -> op1_rel phi false a z -> op1_rel phi false a' z' -> xle z' z.
Proof.
  intros Hphi Ha Hz Hz'.
  destruct a as [|r|], a' as [|r'|]; simpl in *; subst;
    try contradiction; try apply xle_PInf; try apply xle_NInf.
  eapply rounds_mono; [apply Hphi; exact Ha | exact Hz' | exact Hz].
Qed.

Lemma sem_mono (g : float -> float) (phi : R -> R) :
  sem g phi true ->
  (forall r r', (r <= r')%R -> (phi r <= phi r')%R) ->
  forall x y, PrimFloat.leb x y = true -> PrimFloat.leb (g x) (g y) = true.
Proof.
  intros Hg Hphi x y H.
  destruct (leb_defined x y H) as (a & b & Hx & Hy & Hab).
  destruct (Hg x a Hx) as (z & Hz & Rz). destruct (Hg y b Hy) as (z' & Hz' & Rz').
  apply (leb_val _ _ z z' Hz Hz'). eapply op1_mono; eauto.
Qed.

Lemma sem_anti (g : float -> float) (phi : R -> R) :
  sem g phi false ->
  (forall r r', (r <= r')%R -> (phi r' <= phi r)%R) ->
  forall x y, PrimFloat.leb x y = true -> PrimFloat.leb (g y) (g x) = true.
Proof.
  intros Hg Hphi x y H.
  destruct (leb_defined x y H) as (a & b & Hx & Hy & Hab).
  destruct (Hg x a Hx) as (z & Hz & Rz). destruct (Hg y b Hy) as (z' & Hz' & Rz').
  apply (leb_val _ _ z' z Hz' Hz). eapply op1_anti; eauto.
Qed.

(** The shapes of doubles by their values. *)
Lemma val_cases (x : float) (a : xr) :
  val x = Some a ->
  match a with
  | Fin r => True
  | PInf => Prim2SF x = S754_infinity false
  | NInf => Prim2SF x = S754_infinity true
  end.
Proof.
  unfold val. destruct (Prim2SF x) as [s|s| |s m e]; simpl; intros H;
    try discriminate; injection H as <-; try exact I;
    destruct s; simpl; auto.
Qed.

Lemma val_finite (c : float) (rc : R) :
  val c = Some (Fin rc) ->
  (exists s, Prim2SF c = S754_zero s) /\ rc = 0%R
  \/ exists s m e, Prim2SF c = S754_finite s m e
       /\ rc = sgnR s (F2R (Zpos m) e).
Proof.
  intros H. destruct (SF2X_Fin _ _ (FloatAxioms.Prim2SF_valid c) H)
    as [[[Z|Z] ->]|(s & m & e & E & _ & ->)]; eauto 7.
Qed.

Lemma val_positive (c : float) (rc : R) :
  val c = Some (Fin rc) -> (0 < rc)%R ->
  exists m e, Prim2SF c = S754_finite false m e.
Proof.
  intros H Hc. destruct (val_finite c rc H) as [[_ ->]|(s & m & e & E & ->)]; [lra|].
  pose proof (F2R_pos m e). destruct s; simpl in Hc; [lra|]. eauto.
Qed.

Lemma val_negative (c : float) (rc : R) :
  val c = Some (Fin rc) -> (rc < 0)%R ->
  exists m e, Prim2SF c = S754_finite true m e.
Proof.
  intros H Hc. destruct (val_finite c rc H) as [[_ ->]|(s & m & e & E & ->)]; [lra|].
  pose proof (F2R_pos m e). destruct s; simpl in Hc; [|lra]. eauto.
Qed.

Ltac inf_case Hx E :=
  apply val_cases in Hx; unfold val; rewrite E, Hx; eexists; split; reflexivity.

Lemma sem_add_r (c : float) (rc : R) :
  val c = Some (Fin rc) -> sem (fun x => PrimFloat.add x c) (fun r => (r + rc)%R) true.
Proof.
  intros Hc x a Hx. pose proof (FloatAxioms.add_spec x c) as E. unfold SF64add in E.
  destruct a as [|r|].
  - destruct (val_finite c rc Hc) as [[[s Ec] _]|(s & m & e & Ec & _)];
      rewrite Ec in E; inf_case Hx E.
  - unfold val. rewrite E. simpl.
    apply SFadd_spec; auto using FloatAxioms.Prim2SF_valid.
  - destruct (val_finite c rc Hc) as [[[s Ec] _]|(s & m & e & Ec & _)];
      rewrite Ec in E; inf_case Hx E.
Qed.

Lemma sem_add_l (c : float) (rc : R) :
  val c = Some (Fin rc) -> sem (fun x => PrimFloat.add c x) (fun r => (rc + r)%R) true.
Proof.
  intros Hc x a Hx. pose proof (FloatAxioms.add_spec c x) as E. unfold SF64add in E.
  destruct a as [|r|].
  - destruct (val_finite c rc Hc) as [[[s Ec] _]|(s & m & e & Ec & _)];
      rewrite Ec in E; inf_case Hx E.
  - unfold val. rewrite E. simpl.
    apply SFadd_spec; auto using FloatAxioms.Prim2SF_valid.
  - destruct (val_finite c rc Hc) as [[[s Ec] _]|(s & m & e & Ec & _)];
      rewrite Ec in E; inf_case Hx E.
Qed.

Lemma sem_sub_l (c : float) (rc : R) :
  val c = Some (Fin rc) -> sem (fun x => PrimFloat.sub x c) (fun r => (r - rc)%R) true.
Proof.
  intros Hc x a Hx. pose proof (FloatAxioms.sub_spec x c) as E. unfold SF64sub in E.
  destruct a as [|r|].
  - destruct (val_finite c rc Hc) as [[[s Ec] _]|(s & m & e & Ec & _)];
      rewrite Ec in E; inf_case Hx E.
  - unfold val. rewrite E. simpl.
    apply SFsub_spec; auto using FloatAxioms.Prim2SF_valid.
  - destruct (val_finite c rc Hc) as [[[s Ec] _]|(s & m & e & Ec & _)];
      rewrite Ec in E; inf_case Hx E.
Qed.

Lemma sem_sub_r (c : float) (rc : R) :
  val c = Some (Fin rc) -> sem (fun x => PrimFloat.sub c x) (fun r => (rc - r)%R) false.
Proof.
  intros Hc x a Hx. pose proof (FloatAxioms.sub_spec c x) as E. unfold SF64sub in E.
  destruct a as [|r|].
  - destruct (val_finite c rc Hc) as [[[s Ec] _]|(s & m & e & Ec & _)];
      rewrite Ec in E; inf_case Hx E.
  - unfold val. rewrite E. simpl.
    apply SFsub_spec; auto using FloatAxioms.Prim2SF_valid.
  - destruct (val_finite c rc Hc) as [[[s Ec] _]|(s & m & e & Ec & _)];
      rewrite Ec in E; inf_case Hx E.
Qed.

Lemma sem_mul_l (c : float) (rc : R) :
  val c = Some (Fin rc) -> (0 < rc)%R ->
  sem (fun x => PrimFloat.mul c x) (fun r => (rc * r)%R) true.
Proof.
  intros Hc Hpos x a Hx. pose proof (FloatAxioms.mul_spec c x) as E. unfold SF64mul in E.
  destruct (val_positive c rc Hc Hpos) as (m & e & Ec).
  destruct a as [|r|].
  - rewrite Ec in E. inf_case Hx E.
  - unfold val. rewrite E. simpl.
    apply SFmul_spec; auto using FloatAxioms.Prim2SF_valid.
  - rewrite Ec in E. inf_case Hx E.
Qed.

Lemma sem_mul_r (c : float) (rc : R) :
  val c = Some (Fin rc) -> (0 < rc)%R ->
  sem (fun x => PrimFloat.mul x c) (fun r => (r * rc)%R) true.
Proof.
  intros Hc Hpos x a Hx. pose proof (FloatAxioms.mul_spec x c) as E. unfold SF64mul in E.
  destruct (val_positive c rc Hc Hpos) as (m & e & Ec).
  destruct a as [|r|].
  - rewrite Ec in E. inf_case Hx E.
  - unfold val. rewrite E. simpl.
    apply SFmul_spec; auto using FloatAxioms.Prim2SF_valid.
  - rewrite Ec in E. inf_case Hx E.
Qed.

Lemma sem_mul_r_neg (c : float) (rc : R) :
  val c = Some (Fin rc) -> (rc < 0)%R ->
  sem (fun x => PrimFloat.mul x c) (fun r => (r * rc)%R) false.
Proof.
  intros Hc Hneg x a Hx. pose proof (FloatAxioms.mul_spec x c) as E. unfold SF64mul in E.
  destruct (val_negative c rc Hc Hneg) as (m & e & Ec).
  destruct a as [|r|].
  - rewrite Ec in E. inf_case Hx E.
  - unfold val. rewrite E. simpl.
    apply SFmul_spec; auto using FloatAxioms.Prim2SF_valid.
  - rewrite Ec in E. inf_case Hx E.
Qed.

Lemma sem_div_r (c : float) (rc : R) :
  val c = Some (Fin rc) -> (0 < rc)%R ->
  sem (fun x => PrimFloat.div x c) (fun r => (r / rc)%R) true.
Proof.
  intros Hc Hpos x a Hx. pose proof (FloatAxioms.div_spec x c) as E. unfold SF64div in E.
  destruct (val_positive c rc Hc Hpos) as (m & e & Ec).
  destruct a as [|r|].
  - rewrite Ec in E. inf_case Hx E.
  - unfold val. rewrite E. simpl.
    apply SFdiv_spec; auto using FloatAxioms.Prim2SF_valid. lra.
  - rewrite Ec in E. inf_case Hx E.
Qed.

End RoundFacts.

(** ** The order of the velocities in binary64 *)

Module OrderFacts.
Import Round RoundFacts.

Lemma of_int_val (z : Z) :
  exists x, val (B64.of_int z) = Some x /\ rounds (IZR z) x.
Proof.
  destruct (binary_normalize_spec z 0 false) as (x & Hr & Hx & Hv).
  exists x. split.
  - unfold val, B64.of_int. rewrite FloatAxioms.Prim2SF_SF2Prim by exact Hv.
    exact Hx.
  - unfold F2R, bpow in Hr. simpl in Hr. rewrite Rmult_1_r in Hr. exact Hr.
Qed.

Lemma of_int_mono (i j : Z) :
  i <= j -> PrimFloat.leb (B64.of_int i) (B64.of_int j) = true.
Proof.
  intros H.
  destruct (of_int_val i) as (x & Hx & Rx), (of_int_val j) as (y & Hy & Ry).
  apply (leb_val _ _ x y Hx Hy).
  apply (rounds_mono (IZR i) (IZR j)); [apply IZR_le; exact H | exact Rx | exact Ry].
Qed.

Lemma finite_val (x : float) :
  B64.finite x = true -> exists r, val x = Some (Fin r).
Proof.
  unfold B64.finite, val. destruct (Prim2SF x) as [s|s| |s m e]; intros H;
    try discriminate; simpl; rewrite ?xsign_Fin; eauto.
Qed.

Lemma positive_val (x : float) :
  B64.finite x = true -> PrimFloat.ltb 0 x = true ->
  exists r, val x = Some (Fin r) /\ (0 < r)%R.
Proof.
  rewrite FloatAxioms.ltb_spec. unfold B64.finite, val.
  change (Prim2SF 0) with (S754_zero false).
  destruct (Prim2SF x) as [s|s| |s m e]; intros H L; try discriminate.
  destruct s; [discriminate|]. simpl. eexists. split; [reflexivity|].
  apply F2R_pos.
Qed.

Lemma negative_val (x : float) :
  B64.finite x = true -> PrimFloat.ltb x 0 = true ->
  exists r, val x = Some (Fin r) /\ (r < 0)%R.
Proof.
  rewrite FloatAxioms.ltb_spec. unfold B64.finite, val.
  change (Prim2SF 0) with (S754_zero false).
  destruct (Prim2SF x) as [s|s| |s m e]; intros H L; try discriminate.
  destruct s; [|discriminate]. simpl. eexists. split; [reflexivity|].
  pose proof (F2R_pos m e). lra.
Qed.

(** The conversion never increases with the frequency. *)
Lemma freq_to_vel_antitone (nu f1 f2 : float) :
  B64.finite nu = true -> PrimFloat.ltb 0 nu = true ->
  PrimFloat.leb f1 f2 = true ->
  PrimFloat.leb (freq_to_vel nu f2) (freq_to_vel nu f1) = true.
Proof.
  intros Hf Hp H.
  destruct (positive_val nu Hf Hp) as (rn & Hn & Hn0).
  destruct (positive_val (B64.of_int 299790000) eq_refl eq_refl) as (rc & Hc & Hc0).
  unfold freq_to_vel. simpl.
  apply (sem_mono (fun x => PrimFloat.div x nu) _ (sem_div_r nu rn Hn Hn0)).
  { intros r r' Hr. apply Rmult_le_compat_r; [|exact Hr].
    left. apply Rinv_0_lt_compat. exact Hn0. }
  apply (sem_mono (fun x => PrimFloat.mul (B64.of_int 299790000) x) _
           (sem_mul_l _ rc Hc Hc0)).
  { intros r r' Hr. apply Rmult_le_compat_l; [lra | exact Hr]. }
  apply (sem_anti (fun x => PrimFloat.sub nu x) _ (sem_sub_r nu rn Hn)).
  { intros r r' Hr. lra. }
  exact H.
Qed.

Lemma wrap64_id (z : Z) : - 2 ^ 63 <= z < 2 ^ 63 -> wrap64 z = z.
Proof.
  intros Hz. unfold wrap64. rewrite Z.mod_small; lia.
Qed.

(** [i - crpix3 + 1.0] never decreases with the channel. *)
Lemma channel_offset_mono (k : Z) (p : scalar float) (i j : Z) :
  0 <= i <= j -> j < k -> int64_safe k p ->
  B64.finite (promote p) = true ->
  PrimFloat.leb (channel_offset p i) (channel_offset p j) = true.
Proof.
  intros Hij Hj Hs Hp. unfold channel_offset. simpl.
  destruct (finite_val (B64.of_int 1) eq_refl) as (r1 & H1).
  apply (sem_mono (fun x => PrimFloat.add x (B64.of_int 1)) _ (sem_add_r _ r1 H1)).
  { intros r r' Hr. lra. }
  destruct p as [q|x]; simpl in Hs, Hp.
  - rewrite !wrap64_id by lia. apply of_int_mono. lia.
  - destruct (finite_val x Hp) as (rx & Hx).
    apply (sem_mono (fun y => PrimFloat.sub y x) _ (sem_sub_l x rx Hx)).
    { intros r r' Hr. lra. }
    apply of_int_mono. lia.
Qed.

Lemma velax_entry_offset64 (p v0 d : scalar float) (i : Z) :
  velax_entry p v0 d i
  = PrimFloat.add (promote v0) (PrimFloat.mul (channel_offset p i) (promote d)).
Proof. reflexivity. Qed.

(** The velocity axis never decreases for a positive [cdelt3] and never
    increases for a negative one. *)
Lemma velax_entry_mono (k : Z) (p v0 d : scalar float) (i j : Z) :
  0 <= i <= j -> j < k -> int64_safe k p ->
  B64.finite (promote p) = true ->
  B64.finite (promote v0) = true -> B64.finite (promote d) = true ->
  (PrimFloat.ltb 0 (promote d) = true ->
   PrimFloat.leb (velax_entry p v0 d i) (velax_entry p v0 d j) = true)
  /\ (PrimFloat.ltb (promote d) 0 = true ->
      PrimFloat.leb (velax_entry p v0 d j) (velax_entry p v0 d i) = true).
Proof.
  intros Hij Hj Hs Hp Hv Hd.
  pose proof (channel_offset_mono k p i j Hij Hj Hs Hp) as Ho.
  destruct (finite_val _ Hv) as (rv & Hrv).
  rewrite !velax_entry_offset64.
  split; intros Hsign.
  - destruct (positive_val _ Hd Hsign) as (rd & Hrd & Hd0).
    apply (sem_mono (fun x => PrimFloat.add (promote v0) x) _ (sem_add_l _ rv Hrv)).
    { intros r r' Hr. lra. }
    apply (sem_mono (fun x => PrimFloat.mul x (promote d)) _ (sem_mul_r _ rd Hrd Hd0)).
    { intros r r' Hr. apply Rmult_le_compat_r; lra. }
    exact Ho.
  - destruct (negative_val _ Hd Hsign) as (rd & Hrd & Hd0).
    apply (sem_mono (fun x => PrimFloat.add (promote v0) x) _ (sem_add_l _ rv Hrv)).
    { intros r r' Hr. lra. }
    apply (sem_anti (fun x => PrimFloat.mul x (promote d)) _ (sem_mul_r_neg _ rd Hrd Hd0)).
    { intros r r' Hr. nra. }
    exact Ho.
Qed.

End OrderFacts.

(** ** The cube is only read *)

Section Frame.
Context {F : Type} {num : Float64 F}.

Lemma keeps_cube_ret {A} (a : A) : keeps_cube (F := F) (ret a).
Proof. intros ns. reflexivity. Qed.

Lemma keeps_cube_lift {A} (r : result A) : keeps_cube (F := F) (lift r).
Proof. intros ns. reflexivity. Qed.

Lemma keeps_cube_read {A} (name : namespace F -> option A) :
  keeps_cube (read name).
Proof. intros ns. unfold read. destruct (name ns); reflexivity. Qed.

Lemma keeps_cube_np_arange (n : scalar F) : keeps_cube (np_arange n).
Proof. intros ns. reflexivity. Qed.

Lemma keeps_cube_bind {A B} (m : M F A) (k : A -> M F B) :
  keeps_cube m -> (forall a, keeps_cube (k a)) -> keeps_cube (bind m k).
Proof.
  intros Hm Hk ns. unfold bind. specialize (Hm ns).
  destruct (m ns) as [[a|e] ns']; simpl in *; [rewrite Hk|]; assumption.
Qed.

Lemma keeps_cube_cell {A} (block : M F unit) (produced : M F A) :
  keeps_cube block -> keeps_cube produced -> keeps_cube (cell block produced).
Proof.
  intros Hb Hp ns. unfold cell.
  pose proof (keeps_cube_bind block (fun _ => produced) Hb (fun _ => Hp) ns) as H.
  destruct (bind block (fun _ => produced) ns). exact H.
Qed.

Lemma keeps_cube_assign_rvals v : keeps_cube (F := F) (assign_rvals v).
Proof. intros ns. reflexivity. Qed.
Lemma keeps_cube_assign_tvals v : keeps_cube (F := F) (assign_tvals v).
Proof. intros ns. reflexivity. Qed.
Lemma keeps_cube_assign_underscore v : keeps_cube (F := F) (assign_underscore v).
Proof. intros ns. reflexivity. Qed.
Lemma keeps_cube_assign_mask v : keeps_cube (F := F) (assign_mask v).
Proof. intros ns. reflexivity. Qed.
Lemma keeps_cube_assign_spectra v : keeps_cube (F := F) (assign_spectra v).
Proof. intros ns. reflexivity. Qed.
Lemma keeps_cube_assign_theta v : keeps_cube (F := F) (assign_theta v).
Proof. intros ns. reflexivity. Qed.
Lemma keeps_cube_assign_velax v : keeps_cube (F := F) (assign_velax v).
Proof. intros ns. reflexivity. Qed.
Lemma keeps_cube_assign_nu v : keeps_cube (F := F) (assign_nu v).
Proof. intros ns. reflexivity. Qed.

End Frame.

Create HintDb frame.
#[export] Hint Resolve keeps_cube_ret keeps_cube_lift keeps_cube_read
  keeps_cube_np_arange
  keeps_cube_assign_rvals keeps_cube_assign_tvals keeps_cube_assign_underscore
  keeps_cube_assign_mask keeps_cube_assign_spectra keeps_cube_assign_theta
  keeps_cube_assign_velax keeps_cube_assign_nu : frame.

Ltac frame :=
  repeat first
    [ solve [ auto with frame ]
    | apply keeps_cube_cell
    | apply keeps_cube_bind; [| intros ? ] ].

Section FrameBlocks.
Context {F : Type} {num : Float64 F}.

Lemma keeps_cube_mask_block (r_min r_max : F) :
  keeps_cube (mask_block r_min r_max).
Proof. unfold mask_block, mask_stmt, mask_flatten_stmt. frame. Qed.

Lemma keeps_cube_theta_stmt : keeps_cube (F := F) theta_stmt.
Proof. unfold theta_stmt. frame. Qed.

Lemma keeps_cube_spectra_block : keeps_cube (F := F) spectra_block.
Proof.
  unfold spectra_block, spectra_reshape_stmt, spectra_select_stmt, theta_stmt.
  frame.
Qed.

Lemma keeps_cube_velax_block : keeps_cube (F := F) velax_block.
Proof. unfold velax_block, velax_index_stmt, velax_scale_stmt. frame. Qed.

Lemma keeps_cube_convert_block : keeps_cube (F := F) convert_block.
Proof. unfold convert_block, nu_stmt, convert_stmt. frame. Qed.

Lemma keeps_cube_extraction (r_min r_max : F) (in_frequency : bool) :
  keeps_cube (extraction r_min r_max in_frequency).
Proof.
  unfold extraction.
  pose proof (keeps_cube_mask_block r_min r_max).
  pose proof keeps_cube_spectra_block.
  pose proof keeps_cube_velax_block.
  pose proof keeps_cube_convert_block.
  destruct in_frequency; frame.
Qed.

(** C8.  The extraction blocks only read the cube: after the mask block,
    the spectra and theta block, the velocity-axis block and the frequency
    conversion, run alone or one after the other, whether they end
    normally or raise, the name [cube] is bound to the same data and
    header as before. *)
Theorem extraction_leaves_cube_unchanged
    (ns : namespace F) (r_min r_max : F) (in_frequency : bool) :
  cube (snd (mask_block r_min r_max ns)) = cube ns
  /\ cube (snd (spectra_block ns)) = cube ns
  /\ cube (snd (theta_stmt ns)) = cube ns
  /\ cube (snd (velax_block ns)) = cube ns
  /\ cube (snd (convert_block ns)) = cube ns
  /\ cube (snd (extraction r_min r_max in_frequency ns)) = cube ns.
Proof.
  repeat split.
  - apply keeps_cube_mask_block.
  - apply keeps_cube_spectra_block.
  - apply keeps_cube_theta_stmt.
  - apply keeps_cube_velax_block.
  - apply keeps_cube_convert_block.
  - apply keeps_cube_extraction.
Qed.

End FrameBlocks.

(** ** The mask and the selection *)

Section Mask.
Context {F : Type} {num : Float64 F}.

Lemma combine_map_same {A B C D} (f : A -> B) (g : A -> C) (h : B * C -> D)
    (l : list A) :
  map h (combine (map f l) (map g l)) = map (fun x => h (f x, g x)) l.
Proof. induction l as [|x l IH]; simpl; [reflexivity | now rewrite IH]. Qed.

Lemma mask_block_bound (ns : namespace F) (rv : ndarray F) (r_min r_max : F) :
  rvals ns = Some rv ->
  mask_block r_min r_max ns =
    (Ok tt, set_mask (mk_ndarray [length (flat rv)]
                        (map (in_annulus r_min r_max) (flat rv))) ns).
Proof.
  intros H.
  unfold mask_block, mask_stmt, mask_flatten_stmt, bind, read, lift, logical_and.
  rewrite H. simpl. rewrite H. simpl.
  destruct (decide (shape rv = shape rv)) as [_|n]; [|congruence].
  simpl. unfold set_mask, flatten. simpl.
  rewrite combine_map_same. rewrite length_map. reflexivity.
Qed.

Lemma mask_block_unbound (ns : namespace F) (r_min r_max : F) :
  rvals ns = None -> mask_block r_min r_max ns = (Raise NameError, ns).
Proof.
  intros H. unfold mask_block, mask_stmt, bind, read. rewrite H. reflexivity.
Qed.

Lemma chunks_singletons {A} (l : list A) :
  chunks (length l) 1 l = map (fun x => [x]) l.
Proof.
  induction l as [|x l IH]; [reflexivity|].
  change (chunks (length (x :: l)) 1 (x :: l)) with ([x] :: chunks (length l) 1 l).
  rewrite IH. reflexivity.
Qed.

Lemma select_map {A B} (f : A -> B) (m : list bool) (l : list A) :
  select m (map f l) = map f (select m l).
Proof.
  revert l. induction m as [|b m IH]; intros [|x l]; simpl; try reflexivity.
  destruct b; simpl; now rewrite IH.
Qed.

Lemma concat_singletons {A} (l : list A) : concat (map (fun x => [x]) l) = l.
Proof. induction l as [|x l IH]; simpl; [reflexivity | now rewrite IH]. Qed.

Lemma select_blocks_one {A} (m : list bool) (l : list A) :
  length m = length l -> select_blocks m 1 l = select m l.
Proof.
  intros H. unfold select_blocks. rewrite H, chunks_singletons, select_map.
  apply concat_singletons.
Qed.

Lemma select_as_filter {A B} (p : A -> bool) (rl : list A) (tl : list B) :
  select (map p rl) tl =
  map snd (List.filter (fun q => p (fst q)) (combine rl tl)).
Proof.
  revert tl. induction rl as [|r rl IH]; intros [|t tl]; simpl; try reflexivity.
  destruct (p r); simpl; now rewrite IH.
Qed.

Lemma select_all_false {A B} (p : A -> bool) (rl : list A) (tl : list B) :
  (forall r, p r = false) -> select (map p rl) tl = [].
Proof.
  intros H. revert tl. induction rl as [|r rl IH]; intros [|t tl]; simpl;
    try reflexivity.
  rewrite H. apply IH.
Qed.

Lemma In_select {A B} (p : A -> bool) (rl : list A) (tl : list B) (t : B) :
  In t (select (map p rl) tl) <->
  exists i r, rl !! i = Some r /\ tl !! i = Some t /\ p r = true.
Proof.
  revert tl. induction rl as [|r rl IH]; intros [|t' tl]; simpl.
  - split; [tauto | intros (i & r & H & _); destruct i; discriminate].
  - split; [tauto | intros (i & r & H & _); destruct i; discriminate].
  - split; [tauto | intros (i & r0 & _ & H & _); destruct i; discriminate].
  - destruct (p r) eqn:Hp; simpl; rewrite IH; split.
    + intros [<- | (i & r0 & H1 & H2 & H3)].
      * exists 0%nat, r. auto.
      * exists (S i), r0. auto.
    + intros (i & r0 & H1 & H2 & H3). destruct i as [|i]; simpl in *.
      * left. congruence.
      * right. eauto.
    + intros (i & r0 & H1 & H2 & H3). exists (S i), r0. auto.
    + intros (i & r0 & H1 & H2 & H3). destruct i as [|i]; simpl in *.
      * congruence.
      * eauto.
Qed.

Lemma theta_stmt_bound (ns : namespace F) (tv : ndarray F) (ml : list bool) :
  tvals ns = Some tv -> mask ns = Some (mk_ndarray [length ml] ml) ->
  length ml = length (flat tv) ->
  theta_stmt ns =
    (Ok tt, set_theta (mk_ndarray [count_true ml] (select ml (flat tv))) ns).
Proof.
  intros Ht Hm Hl. unfold theta_stmt, bind, read, lift, getitem_mask, flatten.
  rewrite Ht, Hm. simpl. rewrite Hl, Nat.eqb_refl. simpl.
  rewrite select_blocks_one by assumption. reflexivity.
Qed.

Lemma theta_of_annulus_bound (ns : namespace F) (rv tv : ndarray F)
    (r_min r_max : F) :
  rvals ns = Some rv -> tvals ns = Some tv ->
  length (flat tv) = length (flat rv) ->
  let ml := map (in_annulus r_min r_max) (flat rv) in
  theta_of_annulus r_min r_max ns =
    (Ok tt, set_theta (mk_ndarray [count_true ml] (select ml (flat tv)))
              (set_mask (mk_ndarray [length (flat rv)] ml) ns)).
Proof.
  intros Hr Ht Hl ml. unfold theta_of_annulus, bind.
  rewrite (mask_block_bound ns rv r_min r_max Hr).
  rewrite (theta_stmt_bound _ tv ml); [reflexivity | exact Ht | | ].
  - simpl. unfold ml. rewrite length_map. reflexivity.
  - unfold ml. rewrite length_map. symmetry. exact Hl.
Qed.

Lemma lookup_map_Some {A B} (f : A -> B) (l : list A) (i : nat) (x : A) :
  l !! i = Some x -> map f l !! i = Some (f x).
Proof.
  revert i. induction l as [|y l IH]; intros [|i] H; simpl in *;
    try discriminate; [congruence | auto].
Qed.

Lemma select_sublist {A B} (p p' : A -> bool) (rl : list A) (tl : list B) :
  (forall r, p r = true -> p' r = true) ->
  sublist (select (map p rl) tl) (select (map p' rl) tl).
Proof.
  intros H. revert tl. induction rl as [|r rl IH]; intros [|t tl]; simpl;
    try apply sublist_nil.
  destruct (p r) eqn:Hp.
  - rewrite (H r Hp). apply sublist_skip, IH.
  - destruct (p' r); [apply sublist_cons, IH | apply IH].
Qed.

(** *** The spectra block *)

Lemma spectra_reshape_cases (ns : namespace F) :
  (exists s, spectra_reshape_stmt ns = (Ok tt, set_spectra s ns))
  \/ (exists e, spectra_reshape_stmt ns = (Raise e, ns)).
Proof.
  unfold spectra_reshape_stmt, bind, read, lift, assign_spectra.
  destruct (cube ns) as [c|] eqn:Hc; simpl; [|eauto].
  rewrite Hc; simpl.
  destruct (shape0 (data c)) as [n0|e]; simpl; [|eauto].
  destruct (reshape (data c) n0) as [s|e]; simpl; eauto.
Qed.

Lemma reshape_rows {A} (a : ndarray A) (n0 : nat) (rest : list nat) :
  shape a = n0 :: rest -> n0 <> 0%nat -> well_shaped a ->
  shape0 a = Ok n0
  /\ reshape a n0 = Ok (mk_ndarray [n0; numel rest] (flat a)).
Proof.
  unfold well_shaped, shape0, reshape. intros Hs Hn Hw. rewrite Hs in *.
  simpl in Hw. rewrite Hw. split; [reflexivity|].
  destruct (Nat.eqb_spec n0 0) as [E|_]; [contradiction|].
  rewrite (Nat.mul_comm n0), Nat.Div0.mod_mul, Nat.div_mul by assumption.
  reflexivity.
Qed.

Lemma spectra_reshape_bound (ns : namespace F) (c : cube_t F)
    (n0 : nat) (rest : list nat) :
  cube ns = Some c -> shape (data c) = n0 :: rest -> n0 <> 0%nat ->
  well_shaped (data c) ->
  spectra_reshape_stmt ns =
    (Ok tt, set_spectra (mk_ndarray [n0; numel rest] (flat (data c))) ns).
Proof.
  intros Hc Hs Hn Hw.
  destruct (reshape_rows (data c) n0 rest Hs Hn Hw) as [H0 H1].
  unfold spectra_reshape_stmt, bind, read, lift, assign_spectra.
  rewrite Hc; simpl. rewrite Hc; simpl. rewrite H0; simpl. rewrite H1.
  reflexivity.
Qed.

(** Indexing the flattened array with a slice and a one-dimensional mask
    is one index too many. *)
Lemma flattened_slice_mask {A} (a : ndarray A) (m : ndarray bool) (k : nat) :
  shape m = [k] -> getitem_slice_mask (flatten a) m = Raise IndexError.
Proof. intros Hs. unfold getitem_slice_mask, flatten. simpl. rewrite Hs. reflexivity. Qed.

Lemma spectra_select_1d (ns : namespace F) (m : ndarray bool) (k : nat) :
  mask ns = Some m -> shape m = [k] ->
  exists e, spectra_select_stmt ns = (Raise e, ns).
Proof.
  intros Hm Hs. unfold spectra_select_stmt, bind, read, lift.
  destruct (spectra ns) as [s|]; [|eauto].
  rewrite Hm. rewrite (flattened_slice_mask s m k Hs). eauto.
Qed.

Lemma spectra_select_1d_bound (ns : namespace F) (s : ndarray F)
    (m : ndarray bool) (k : nat) :
  spectra ns = Some s -> mask ns = Some m -> shape m = [k] ->
  spectra_select_stmt ns = (Raise IndexError, ns).
Proof.
  intros Hsp Hm Hs. unfold spectra_select_stmt, bind, read, lift.
  rewrite Hsp, Hm. rewrite (flattened_slice_mask s m k Hs). reflexivity.
Qed.

Lemma spectra_block_1d (ns : namespace F) (m : ndarray bool) (k : nat) :
  mask ns = Some m -> shape m = [k] ->
  exists e ns', spectra_block ns = (Raise e, ns') /\ theta ns' = theta ns.
Proof.
  intros Hm Hs. unfold spectra_block.
  unfold bind at 1.
  destruct (spectra_reshape_cases ns) as [[s E1]|[e E1]]; rewrite E1.
  - unfold bind at 1.
    destruct (spectra_select_1d (set_spectra s ns) m k) as [e He];
      [assumption | assumption |].
    rewrite He. exists e, (set_spectra s ns). split; reflexivity.
  - exists e, ns. split; reflexivity.
Qed.

(** Whatever the name space holds, the mask block followed by the spectra
    block ends in an exception and never assigns [theta]. *)
Lemma spectra_after_mask_never_completes (ns : namespace F) (r_min r_max : F) :
  exists e ns',
    bind (mask_block r_min r_max) (fun _ => spectra_block) ns = (Raise e, ns')
    /\ theta ns' = theta ns.
Proof.
  unfold bind at 1.
  destruct (rvals ns) as [rv|] eqn:Hr.
  - rewrite (mask_block_bound ns rv r_min r_max Hr).
    destruct (spectra_block_1d
                (set_mask (mk_ndarray [length (flat rv)]
                             (map (in_annulus r_min r_max) (flat rv))) ns)
                _ (length (flat rv)) eq_refl eq_refl)
      as (e & ns' & E & Ht).
    exists e, ns'. split; [exact E | exact Ht].
  - rewrite (mask_block_unbound ns r_min r_max Hr).
    exists NameError, ns. split; reflexivity.
Qed.

(** What the same index does on the array before [flatten()]: for a
    two-dimensional array and a mask over its columns it selects the
    masked columns, and the transpose has one row per selected column. *)
Lemma slice_mask_of_rows {A} (a : ndarray A) (m : ndarray bool) (n0 n1 : nat) :
  shape a = [n0; n1] -> shape m = [n1] ->
  exists s, getitem_slice_mask a m = Ok s
            /\ shape (transpose s) = [count_true (flat m); n0].
Proof.
  intros Ha Hm. unfold getitem_slice_mask. rewrite Ha, Hm. simpl.
  rewrite Nat.eqb_refl. eexists. split; reflexivity.
Qed.

(** C1.  The shape contract (spectra of shape (N, M), theta of length N,
    velax of length M) is not met by the blocks as written: for every cube
    whose data has a first axis of nonzero length and for all bounds, the
    spectra block that follows the mask block stops with an IndexError at
    [spectra.flatten()[:, mask]]; [spectra] is left as the reshaped
    (M, pixels) array and [theta] is never assigned. *)
Theorem spectra_block_raises_IndexError
    (ns : namespace F) (c : cube_t F) (rv : ndarray F) (r_min r_max : F)
    (n0 : nat) (rest : list nat) :
  cube ns = Some c -> rvals ns = Some rv ->
  shape (data c) = n0 :: rest -> n0 <> 0%nat -> well_shaped (data c) ->
  exists ns',
    bind (mask_block r_min r_max) (fun _ => spectra_block) ns
      = (Raise IndexError, ns')
    /\ spectra ns' = Some (mk_ndarray [n0; numel rest] (flat (data c)))
    /\ theta ns' = theta ns.
Proof.
  intros Hc Hr Hs Hn Hw.
  unfold bind at 1. rewrite (mask_block_bound ns rv r_min r_max Hr).
  set (ns1 := set_mask _ ns).
  unfold spectra_block, bind at 1.
  rewrite (spectra_reshape_bound ns1 c n0 rest Hc Hs Hn Hw).
  unfold bind at 1.
  rewrite (spectra_select_1d_bound
             (set_spectra (mk_ndarray [n0; numel rest] (flat (data c))) ns1)
             (mk_ndarray [n0; numel rest] (flat (data c)))
             (mk_ndarray [length (flat rv)]
                (map (in_annulus r_min r_max) (flat rv)))
             (length (flat rv)) eq_refl eq_refl eq_refl).
  eexists. split; [reflexivity|]. split; reflexivity.
Qed.

End Mask.


(** C7.  In binary64: entry [i] of the flattened mask is True exactly when
    [r_min <= rvals.flatten()[i] <= r_max], both bounds included; [theta],
    assigned by [theta = tvals.flatten()[mask]] after the mask block, holds
    the polar angles of exactly the pixels whose radius lies in the closed
    annulus, in pixel order, and is empty when [r_min > r_max]. *)
Theorem mask_selects_closed_annulus
    (ns : namespace float) (rv tv : ndarray float) (r_min r_max : float) :
  rvals ns = Some rv -> tvals ns = Some tv ->
  length (flat tv) = length (flat rv) ->
  exists m th,
    mask_block r_min r_max ns = (Ok tt, set_mask m ns)
    /\ shape m = [length (flat rv)]
    /\ length (flat m) = length (flat rv)
    /\ (forall i r, flat (flatten rv) !! i = Some r ->
         flat m !! i = Some (PrimFloat.leb r_min r && PrimFloat.leb r r_max))
    /\ theta_of_annulus r_min r_max ns = (Ok tt, set_theta th (set_mask m ns))
    /\ flat th = select (flat m) (flat (flatten tv))
    /\ (forall t, In t (flat th) <->
         exists i r, flat (flatten rv) !! i = Some r
                     /\ flat (flatten tv) !! i = Some t
                     /\ PrimFloat.leb r_min r = true
                     /\ PrimFloat.leb r r_max = true)
    /\ (PrimFloat.ltb r_max r_min = true -> flat th = []).
Proof.
  intros Hr Ht Hl.
  set (ml := map (in_annulus r_min r_max) (flat rv)).
  exists (mk_ndarray [length (flat rv)] ml),
         (mk_ndarray [count_true ml] (select ml (flat tv))).
  split; [apply mask_block_bound; exact Hr|].
  split; [reflexivity|].
  split; [apply length_map|].
  split; [intros i r Hi; exact (lookup_map_Some (in_annulus r_min r_max) _ _ _ Hi)|].
  split; [apply theta_of_annulus_bound; assumption|].
  split; [reflexivity|].
  split.
  - intros t. simpl. unfold ml. rewrite In_select. unfold in_annulus. simpl.
    split; intros (i & r & H1 & H2 & H3); exists i, r; repeat split; try assumption.
    + apply andb_true_iff in H3. tauto.
    + apply andb_true_iff in H3. tauto.
    + destruct H3 as [-> ->]. reflexivity.
  - intros Hlt. simpl. unfold ml. apply select_all_false.
    intros r. apply B64Facts.empty_annulus. exact Hlt.
Qed.

(** C9.  Widening the annulus keeps every selected pixel: for
    [r_min' <= r_min] and [r_max' >= r_max], every True entry of the mask
    built from [(r_min, r_max)] is True in the mask built from
    [(r_min', r_max')], and the angles extracted with the narrow bounds are
    a sublist of those extracted with the wide ones. *)
Theorem widening_keeps_selection
    (ns : namespace float) (rv tv : ndarray float)
    (r_min r_max r_min' r_max' : float) :
  rvals ns = Some rv -> tvals ns = Some tv ->
  length (flat tv) = length (flat rv) ->
  PrimFloat.leb r_min' r_min = true -> PrimFloat.leb r_max r_max' = true ->
  exists m m' th th',
    mask (snd (mask_block r_min r_max ns)) = Some m
    /\ mask (snd (mask_block r_min' r_max' ns)) = Some m'
    /\ (forall i, flat m !! i = Some true -> flat m' !! i = Some true)
    /\ theta (snd (theta_of_annulus r_min r_max ns)) = Some th
    /\ theta (snd (theta_of_annulus r_min' r_max' ns)) = Some th'
    /\ sublist (flat th) (flat th').
Proof.
  intros Hr Ht Hl Hlo Hhi.
  set (ml := map (in_annulus r_min r_max) (flat rv)).
  set (ml' := map (in_annulus r_min' r_max') (flat rv)).
  exists (mk_ndarray [length (flat rv)] ml), (mk_ndarray [length (flat rv)] ml'),
         (mk_ndarray [count_true ml] (select ml (flat tv))),
         (mk_ndarray [count_true ml'] (select ml' (flat tv))).
  rewrite !(mask_block_bound ns rv) by exact Hr.
  rewrite !(theta_of_annulus_bound ns rv tv) by assumption.
  repeat split.
  - simpl. unfold ml, ml'. intros i Hi.
    apply list_lookup_fmap_Some in Hi as (r & Hi & Hr').
    rewrite (lookup_map_Some (in_annulus r_min' r_max') _ _ _ Hr'). f_equal.
    apply (B64Facts.wider_annulus r_min r_max); auto.
  - simpl. apply select_sublist. intros r.
    apply B64Facts.wider_annulus; assumption.
Qed.

(** ** The velocity axis *)

Section Velax.
Context {F : Type} {num : Float64 F}.

Lemma length_count_up (k : Z) : length (count_up k) = Z.to_nat k.
Proof. unfold count_up. rewrite length_map, length_seq. reflexivity. Qed.

Lemma lookup_count_up (k : Z) (i : nat) :
  (i < Z.to_nat k)%nat -> count_up k !! i = Some (Z.of_nat i).
Proof.
  intros H. unfold count_up. rewrite list_lookup_fmap.
  rewrite lookup_seq_lt by exact H. reflexivity.
Qed.

(** Adding the float [1.0] raises nothing and yields a float64 array. *)
Lemma add_float_is_float64 (a : arr F) (x : F) :
  exists l, arr_op_scalar Z.add fadd a (Float x) = Ok (FloatArr l)
            /\ length l = length (as_floats a).
Proof.
  destruct a as [l|l]; unfold arr_op_scalar; simpl; eexists;
    (split; [reflexivity|]); rewrite ?length_map; reflexivity.
Qed.

(** [np.arange(k) - crpix3 + 1.0], for an int [crpix3] in the int64 range
    or a float one. *)
Lemma index_values (k : Z) (p : scalar F) :
  fits_int64 p = true ->
  exists b,
    arr_op_scalar Z.sub fsub (IntArr (count_up k)) p = Ok b
    /\ arr_op_scalar Z.add fadd b (Float (of_int 1))
       = Ok (FloatArr (map (channel_offset p) (count_up k))).
Proof.
  unfold channel_offset, arr_op_scalar. destruct p as [q|x]; simpl; intros Hp.
  - rewrite Hp. eexists. split; [reflexivity|]. simpl.
    rewrite !map_map. reflexivity.
  - eexists. split; [reflexivity|]. simpl. rewrite !map_map. reflexivity.
Qed.

(** [crval3 + velax * cdelt3] on a float64 array, for cards that convert
    to a double. *)
Lemma scale_values (l : list F) (v0 d : scalar F) :
  float_ok v0 = true -> float_ok d = true ->
  arr_op_scalar Z.mul fmul (FloatArr l) d
  = Ok (FloatArr (map (fun v => fmul v (promote d)) l))
  /\ scalar_op_arr Z.add fadd v0 (FloatArr (map (fun v => fmul v (promote d)) l))
     = Ok (FloatArr (map (fun v => fadd (promote v0) (fmul v (promote d))) l)).
Proof.
  intros Hv Hd. unfold arr_op_scalar, scalar_op_arr. simpl.
  rewrite Hv, Hd. rewrite map_map. split; reflexivity.
Qed.

Lemma velax_entry_offset (p v0 d : scalar F) (i : Z) :
  velax_entry p v0 d i
  = fadd (promote v0) (fmul (channel_offset p i) (promote d)).
Proof. reflexivity. Qed.

(** The first statement of the velax block, when [np.arange] returns the
    int64 array of [k] channels. *)
Lemma velax_index_bound (ns : namespace F) (c : cube_t F) (n p : scalar F)
    (k : Z) :
  cube ns = Some c ->
  header c !! "naxis3" = Some n ->
  arange (memory ns) n = Ok (IntArr (count_up k)) ->
  header c !! "crpix3" = Some p -> fits_int64 p = true ->
  velax_index_stmt ns
  = (Ok tt, set_velax (FloatArr (map (channel_offset p) (count_up k))) ns).
Proof.
  intros Hc Hn Ha Hp Hq.
  destruct (index_values k p Hq) as (b & Hb & Hb1).
  unfold velax_index_stmt, np_arange, bind, read, lift, getitem_header,
    assign_velax.
  rewrite Hc; simpl. rewrite Hn; simpl. rewrite Ha; simpl.
  rewrite Hc; simpl. rewrite Hp; simpl. rewrite Hb; simpl. rewrite Hb1.
  reflexivity.
Qed.

(** The second statement, on the offsets the first one left. *)
Lemma velax_scale_bound (ns : namespace F) (c : cube_t F) (v0 d : scalar F)
    (l : list F) :
  cube ns = Some c -> velax ns = Some (FloatArr l) ->
  header c !! "crval3" = Some v0 -> float_ok v0 = true ->
  header c !! "cdelt3" = Some d -> float_ok d = true ->
  velax_scale_stmt ns
  = (Ok tt,
     set_velax
       (FloatArr (map (fun v => fadd (promote v0) (fmul v (promote d))) l)) ns).
Proof.
  intros Hc Hl Hv Hv1 Hd Hd1.
  destruct (scale_values l v0 d Hv1 Hd1) as [Hm Ha].
  unfold velax_scale_stmt, bind, read, lift, getitem_header, assign_velax.
  rewrite Hc; simpl. rewrite Hv; simpl. rewrite Hl; simpl.
  rewrite Hc; simpl. rewrite Hd; simpl.
  rewrite Hm; simpl. rewrite Ha. reflexivity.
Qed.

Lemma velax_block_bound (ns : namespace F) (c : cube_t F) (k : Z)
    (n p v0 d : scalar F) :
  cube ns = Some c ->
  header c !! "naxis3" = Some n ->
  arange (memory ns) n = Ok (IntArr (count_up k)) ->
  header c !! "crpix3" = Some p -> fits_int64 p = true ->
  header c !! "crval3" = Some v0 -> float_ok v0 = true ->
  header c !! "cdelt3" = Some d -> float_ok d = true ->
  velax_block ns =
    (Ok tt, set_velax (FloatArr (map (velax_entry p v0 d) (count_up k))) ns).
Proof.
  intros Hc Hn Ha Hp Hp1 Hv Hv1 Hd Hd1.
  unfold velax_block, bind.
  rewrite (velax_index_bound ns c n p k Hc Hn Ha Hp Hp1).
  rewrite (velax_scale_bound _ c v0 d (map (channel_offset p) (count_up k)))
    by (assumption || reflexivity).
  rewrite map_map. reflexivity.
Qed.

(** The velax block whose header lacks a keyword, when the operations
    evaluated before the missing lookup raise nothing. *)
Lemma velax_block_missing (ns : namespace F) (c : cube_t F) (key : string) :
  cube ns = Some c ->
  (forall n, header c !! "naxis3" = Some n ->
     exists a, arange (memory ns) n = Ok a
       /\ forall p, header c !! "crpix3" = Some p ->
            exists b, arr_op_scalar Z.sub fsub a p = Ok b) ->
  In key ["naxis3"; "crpix3"; "crval3"; "cdelt3"] ->
  header c !! key = None ->
  exists ns', velax_block ns = (Raise KeyError, ns') /\ cube ns' = Some c.
Proof.
  intros Hc Hcount Hin Hkey.
  unfold velax_block, velax_index_stmt, velax_scale_stmt, np_arange, bind, read,
    lift, getitem_header, assign_velax.
  rewrite Hc; simpl.
  destruct (header c !! "naxis3") as [n|] eqn:Hn; simpl; [|eauto].
  destruct (Hcount n eq_refl) as (a & Ha & Hsub). rewrite Ha; simpl.
  rewrite Hc; simpl.
  destruct (header c !! "crpix3") as [p|] eqn:Hp; simpl; [|eauto].
  destruct (Hsub p eq_refl) as [b Hb]. rewrite Hb; simpl.
  destruct (add_float_is_float64 b (of_int 1)) as (l & Hl & _).
  rewrite Hl; simpl. rewrite Hc; simpl.
  destruct (header c !! "crval3") as [v0|] eqn:Hv; simpl; [|eauto].
  rewrite Hc; simpl.
  destruct (header c !! "cdelt3") as [d|] eqn:Hd; simpl; [|eauto].
  simpl in Hin. destruct Hin as [<-|[<-|[<-|[<-|[]]]]]; congruence.
Qed.

Lemma convert_block_missing (ns : namespace F) (c : cube_t F) :
  cube ns = Some c -> header c !! "restfreq" = None ->
  convert_block ns = (Raise KeyError, ns).
Proof.
  intros Hc Hk. unfold convert_block, nu_stmt, bind, read, lift, getitem_header.
  rewrite Hc; simpl. rewrite Hk. reflexivity.
Qed.

Lemma convert_block_bound (ns : namespace F) (c : cube_t F) (n : scalar F)
    (l : list F) :
  cube ns = Some c -> header c !! "restfreq" = Some n -> float_ok n = true ->
  velax ns = Some (FloatArr l) ->
  convert_block ns =
    (Ok tt, set_velax (FloatArr (map (freq_to_vel (promote n)) l)) (set_nu n ns)).
Proof.
  intros Hc Hk Hn Hv.
  unfold convert_block, nu_stmt, convert_stmt, bind, read, lift,
    getitem_header, assign_nu, assign_velax.
  rewrite Hc; simpl. rewrite Hk; simpl. rewrite Hv; simpl.
  unfold scalar_op_arr, arr_truediv. simpl.
  rewrite Hn; simpl.
  unfold freq_to_vel. rewrite !map_map. reflexivity.
Qed.
End Velax.

(** *** Counts as doubles *)

Lemma ceil_of_int (k : Z) :
  0 <= k < 2 ^ 53 -> B64.ceil (B64.of_int k) = Some k.
Proof.
  intros Hk. destruct k as [|z|z]; [vm_compute; reflexivity| |lia].
  unfold B64.ceil. rewrite (B64Facts.of_int_pos z) by lia.
  destruct (B64Facts.exact_int_value false z ltac:(lia)) as (m & e & -> & He & Hm).
  pose proof (B64Facts.digits2_le z 53 ltac:(lia) ltac:(lia)) as Hd.
  simpl cond_Zopp. f_equal.
  destruct (Z.leb_spec 0 e) as [H0|H0].
  - assert (E0 : e = 0) by lia. rewrite E0 in Hm |- *.
    change (2 ^ (- 0)) with 1 in Hm. change (2 ^ 0) with 1. lia.
  - rewrite Hm. rewrite <- Z.mul_opp_l, Z.div_mul by (apply Z.pow_nonzero; lia).
    lia.
Qed.

(** [np.arange] of a count below [2^53] that the machine has room for. *)
Lemma arange_count (mem k : Z) :
  0 <= k < 2 ^ 53 -> k <= mem ->
  arange mem (Int k) = Ok (IntArr (count_up k)).
Proof.
  intros Hk Hm. unfold arange, arange_length. simpl promote.
  change (fceil (B64.of_int k)) with (B64.ceil (B64.of_int k)).
  rewrite (ceil_of_int k Hk).
  assert (H63 : 2 ^ 53 < 2 ^ 63) by (vm_compute; reflexivity).
  assert (H60 : 2 ^ 53 < 2 ^ 60) by (vm_compute; reflexivity).
  destruct (Z.ltb_spec k (- 2 ^ 63)) as [H|_]; [lia|].
  destruct (Z.ltb_spec (2 ^ 63) k) as [H|_]; [lia|]. simpl orb. cbv iota.
  destruct (Z.eqb_spec k (2 ^ 63)) as [H|_]; [lia|].
  unfold allocate.
  assert (Hok : int64_ok k = true).
  { unfold int64_ok. apply andb_true_iff. split; [apply Z.leb_le|apply Z.ltb_lt]; lia. }
  destruct (Z.leb_spec k 0) as [H0|H0]; [rewrite Hok; reflexivity|].
  destruct (Z.leb_spec (2 ^ 60) k) as [H|_]; [lia|].
  destruct (Z.ltb_spec mem k) as [H|_]; [lia|].
  rewrite Hok. reflexivity.
Qed.

(** *** The velocity axis read from the header *)

(** C2, as amended.  In binary64, for a header whose [naxis3] is an
    integer [0 <= naxis3 < 2^53] that the machine has room for, whose
    [crpix3] is a float or an integer in the int64 range, and whose
    [crval3] and [cdelt3] are floats or integers no larger than the
    largest double: the velax block ends normally, [velax] has exactly
    [naxis3] entries and entry [i] is [crval3 + (i - crpix3 + 1.0) *
    cdelt3] as the doubles compute it.  When [crpix3] is a whole number
    with [1 <= crpix3 <= naxis3], and [crval3] and [cdelt3] are finite, the
    entry at index [crpix3 - 1] equals [crval3].  When [crpix3], [crval3]
    and [cdelt3] are finite and the int64 subtractions [i - crpix3] of an
    integer [crpix3] do not wrap around, the entries are in order: for a
    positive [cdelt3] an entry is never larger than a later one, for a
    negative [cdelt3] never smaller. *)
Theorem velax_axis_entries :
  (forall (ns : namespace float) (c : cube_t float) (k : Z)
          (p v0 d : scalar float),
      cube ns = Some c ->
      header c !! "naxis3" = Some (Int k) ->
      0 <= k < 2 ^ 53 -> k <= memory ns ->
      header c !! "crpix3" = Some p -> fits_int64 p = true ->
      header c !! "crval3" = Some v0 -> float_ok v0 = true ->
      header c !! "cdelt3" = Some d -> float_ok d = true ->
      exists l,
        velax_block ns = (Ok tt, set_velax (FloatArr l) ns)
        /\ Z.of_nat (length l) = k
        /\ forall i, 0 <= i < k ->
             l !! Z.to_nat i = Some (velax_entry p v0 d i))
  /\ (forall (k : Z) (p v0 d : scalar float) (c : Z),
        1 <= c <= k -> k < 2 ^ 53 ->
        p = Int c \/ p = Float (B64.of_int c) ->
        B64.finite (promote d) = true -> B64.finite (promote v0) = true ->
        PrimFloat.eqb (velax_entry p v0 d (c - 1)) (promote v0) = true)
  /\ (forall (k : Z) (p v0 d : scalar float) (i j : Z),
        0 <= i <= j -> j < k ->
        fits_int64 p = true -> int64_safe k p ->
        B64.finite (promote p) = true ->
        B64.finite (promote v0) = true -> B64.finite (promote d) = true ->
        (PrimFloat.ltb 0 (promote d) = true ->
         PrimFloat.leb (velax_entry p v0 d i) (velax_entry p v0 d j) = true)
        /\ (PrimFloat.ltb (promote d) 0 = true ->
            PrimFloat.leb (velax_entry p v0 d j) (velax_entry p v0 d i) = true)).
Proof.
  split; [|split].
  - intros ns c k p v0 d Hc Hn Hk Hm Hp Hp1 Hv Hv1 Hd Hd1.
    exists (map (velax_entry p v0 d) (count_up k)).
    split.
    { apply (velax_block_bound ns c k (Int k) p v0 d); try assumption.
      apply arange_count; assumption. }
    split; [rewrite length_map, length_count_up; lia|].
    intros i Hi. rewrite list_lookup_fmap, lookup_count_up by lia.
    simpl. rewrite Z2Nat.id by lia. reflexivity.
  - intros k p v0 d c Hc Hk. apply B64Facts.velax_reference_entry. lia.
  - intros k p v0 d i j Hij Hj _. apply OrderFacts.velax_entry_mono; assumption.
Qed.

(** C2 fails as stated.  In binary64, for [naxis3 = 4], [crpix3 = 1.0],
    [crval3 = -2.0], [cdelt3 = 0.1] the entries at indices 1 and 2 do not
    differ by [cdelt3]: neither their double difference, nor the double
    sum of the first and [cdelt3], nor their exact difference agrees.  With
    [naxis3 = -1] the axis has no entry, and with [crpix3 = 10] on four
    channels there is no entry at index [crpix3 - 1]. *)
Lemma velax_steps_not_exact :
  (exists a b : float,
      velax (snd (velax_block Sample.ns))
        = Some (FloatArr [(-2)%float; a; b; (-1.7)%float])
      /\ PrimFloat.eqb (PrimFloat.sub b a) 0.1%float = false
      /\ PrimFloat.eqb (PrimFloat.add a 0.1%float) b = false
      /\ ~ (B64.to_Q b - B64.to_Q a == B64.to_Q 0.1%float)%Q)
  /\ (exists l : list float,
        velax (snd (velax_block Sample.ns_negative)) = Some (FloatArr l)
        /\ Z.of_nat (length l) <> -1)
  /\ (exists l : list float,
        velax (snd (velax_block Sample.ns_far_pixel)) = Some (FloatArr l)
        /\ l !! Z.to_nat (10 - 1) = None).
Proof.
  split; [|split].
  - exists (-1.9)%float, (-1.8)%float.
    split; [vm_compute; reflexivity|].
    split; [vm_compute; reflexivity|].
    split; [vm_compute; reflexivity|].
    intros H. apply Qeq_bool_iff in H. vm_compute in H. discriminate.
  - exists []. split; [vm_compute; reflexivity | simpl; lia].
  - eexists. split; [vm_compute; reflexivity | reflexivity].
Qed.

Lemma velax_axis_entries_witness :
  (exists l,
      velax_block Sample.ns = (Ok tt, set_velax (FloatArr l) Sample.ns)
      /\ Z.of_nat (length l) = 4
      /\ forall i, 0 <= i < 4 ->
           l !! Z.to_nat i
           = Some (velax_entry (Float 1%float) (Float (-2)%float)
                     (Float 0.1%float) i))
  /\ PrimFloat.eqb
       (velax_entry (Float 1%float) (Float (-2)%float) (Float 0.1%float) (1 - 1))
       (-2)%float = true
  /\ PrimFloat.leb
       (velax_entry (Float 1%float) (Float (-2)%float) (Float 0.1%float) 1)
       (velax_entry (Float 1%float) (Float (-2)%float) (Float 0.1%float) 2)
     = true.
Proof.
  destruct velax_axis_entries as (Hcode & Href64 & Horder).
  split; [|split].
  - apply (Hcode Sample.ns Sample.fits 4
             (Float 1%float) (Float (-2)%float) (Float 0.1%float));
      solve [reflexivity | lia | vm_compute; intros ?; discriminate].
  - apply (Href64 4 (Float 1%float) (Float (-2)%float) (Float 0.1%float) 1);
      solve [lia | reflexivity | right; reflexivity].
  - apply (Horder 4 (Float 1%float) (Float (-2)%float) (Float 0.1%float) 1 2);
      solve [lia | reflexivity | exact I].
Defined.

(** *** The conversion from frequency *)

(** C3, as amended.  For a rest frequency no larger than the largest
    double, the conversion block replaces every entry [f] of [velax] by
    [2.9979e8 * (nu - f) / nu], in binary64 as in any arithmetic.  In
    binary64 a finite nonzero rest frequency is mapped to velocity zero,
    and for a finite positive rest frequency the conversion never
    increases with the frequency: the velocity of [f2] is no larger than
    that of [f1] whenever [f1 <= f2]. *)
Theorem frequency_to_velocity :
  (forall (F : Type) (num : Float64 F) (ns : namespace F) (c : cube_t F)
          (n : scalar F) (l : list F),
      cube ns = Some c -> header c !! "restfreq" = Some n ->
      float_ok n = true ->
      velax ns = Some (FloatArr l) ->
      convert_block ns =
        (Ok tt,
         set_velax (FloatArr (map (freq_to_vel (promote n)) l)) (set_nu n ns)))
  /\ (forall x : float,
        B64.finite_nonzero x = true ->
        PrimFloat.eqb (freq_to_vel x x) 0%float = true)
  /\ (forall nu f1 f2 : float,
        B64.finite nu = true -> PrimFloat.ltb 0 nu = true ->
        PrimFloat.leb f1 f2 = true ->
        PrimFloat.leb (freq_to_vel nu f2) (freq_to_vel nu f1) = true).
Proof.
  split; [|split].
  - intros F num. exact convert_block_bound.
  - exact B64Facts.freq_to_vel_at_rest.
  - exact OrderFacts.freq_to_vel_antitone.
Qed.

(** C3 fails as stated.  In binary64, for the rest frequency 230.538 GHz
    the two neighbouring doubles [f1 < f2] at 50 GHz are converted to the
    same velocity, so the conversion is not strictly decreasing. *)
Lemma conversion_not_strictly_decreasing :
  exists v1 v2 : float,
    PrimFloat.ltb Sample.f1 Sample.f2 = true
    /\ velax (snd (convert_block Sample.ns_frequency))
       = Some (FloatArr [v1; v2])
    /\ v1 = freq_to_vel 230538000000%float Sample.f1
    /\ v2 = freq_to_vel 230538000000%float Sample.f2
    /\ PrimFloat.ltb v2 v1 = false.
Proof.
  do 2 eexists. split; [vm_compute; reflexivity|].
  split; [vm_compute; reflexivity|].
  split; [vm_compute; reflexivity|].
  split; [vm_compute; reflexivity|].
  vm_compute. reflexivity.
Qed.

Lemma frequency_to_velocity_witness :
  convert_block Sample.ns_at_rest =
    (Ok tt,
     set_velax (FloatArr (map (freq_to_vel 230538000000%float)
                            [230538000000%float]))
       (set_nu (Float 230538000000%float) Sample.ns_at_rest))
  /\ PrimFloat.eqb (freq_to_vel 230538000000%float 230538000000%float)
       0%float = true
  /\ PrimFloat.leb (freq_to_vel 230538000000%float Sample.f2)
       (freq_to_vel 230538000000%float Sample.f1) = true.
Proof.
  destruct frequency_to_velocity as (Hcode & Hrest & Horder).
  split; [|split].
  - apply (Hcode float binary64 Sample.ns_at_rest Sample.fits
             (Float 230538000000%float) [230538000000%float]); reflexivity.
  - apply Hrest. reflexivity.
  - apply Horder; reflexivity.
Defined.

(** *** Missing keywords *)

(** C4, as amended.  No validation, no default.  A header without
    [naxis3] ends the velax block in KeyError with nothing assigned.  A
    header without [crpix3] does so when [np.arange(naxis3)] returns an
    array.  A header without [crval3] or [cdelt3] ends it in KeyError when
    [np.arange(naxis3)] returns an array and the subtraction of [crpix3]
    raises nothing.  A header without [restfreq] ends the conversion block
    in KeyError with nothing assigned.  In each case the name [cube] still
    holds the same data and header.  In binary64 [np.arange(naxis3)]
    returns an array for an integer [0 <= naxis3 < 2^53] that the machine
    has room for, and the subtraction raises nothing for a float [crpix3]
    or an integer one in the int64 range. *)
Theorem missing_keyword_raises_KeyError
    (ns : namespace float) (c : cube_t float) :
  cube ns = Some c ->
  (header c !! "naxis3" = None -> velax_block ns = (Raise KeyError, ns))
  /\ (forall n a,
        header c !! "naxis3" = Some n -> arange (memory ns) n = Ok a ->
        header c !! "crpix3" = None ->
        velax_block ns = (Raise KeyError, ns))
  /\ (forall n a p b,
        header c !! "naxis3" = Some n -> arange (memory ns) n = Ok a ->
        header c !! "crpix3" = Some p -> arr_op_scalar Z.sub fsub a p = Ok b ->
        header c !! "crval3" = None \/ header c !! "cdelt3" = None ->
        exists ns', velax_block ns = (Raise KeyError, ns') /\ cube ns' = Some c)
  /\ (header c !! "restfreq" = None -> convert_block ns = (Raise KeyError, ns))
  /\ (forall k p,
        0 <= k < 2 ^ 53 -> k <= memory ns -> fits_int64 p = true ->
        exists b,
          arange (memory ns) (Int k) = Ok (IntArr (count_up k))
          /\ arr_op_scalar Z.sub fsub (IntArr (count_up k)) p = Ok b).
Proof.
  intros Hc. split; [|split; [|split; [|split]]].
  - intros Hn.
    unfold velax_block, velax_index_stmt, bind, read, lift, getitem_header.
    rewrite Hc; simpl. rewrite Hn. reflexivity.
  - intros n a Hn Ha Hp.
    unfold velax_block, velax_index_stmt, np_arange, bind, read, lift,
      getitem_header.
    rewrite Hc; simpl. rewrite Hn; simpl. rewrite Ha; simpl.
    rewrite Hc; simpl. rewrite Hp. reflexivity.
  - intros n a p b Hn Ha Hp Hb Hmiss.
    assert (exists key, In key ["naxis3"; "crpix3"; "crval3"; "cdelt3"]
                        /\ header c !! key = None) as (key & Hin & Hkey).
    { destruct Hmiss as [H|H];
        [exists "crval3"%string | exists "cdelt3"%string];
        (split; [simpl; tauto | exact H]). }
    apply (velax_block_missing ns c key Hc); [|exact Hin|exact Hkey].
    intros n' Hn'. rewrite Hn in Hn'. injection Hn' as <-.
    exists a. split; [exact Ha|].
    intros p' Hp'. rewrite Hp in Hp'. injection Hp' as <-. eauto.
  - intros Hk. exact (convert_block_missing ns c Hc Hk).
  - intros k p Hk Hm Hp.
    destruct (index_values k p Hp) as (b & Hb & _).
    exists b. split; [apply arange_count; assumption | exact Hb].
Qed.

(** C4 fails as stated: a header can lack a keyword and the velax block
    end in another exception, raised before the missing lookup is reached.
    Without [crpix3] and with [naxis3 = 1e30], [np.arange] raises
    ValueError; without [crval3] and with the integer [crpix3 = 2^63], the
    subtraction raises OverflowError.  Nothing is assigned. *)
Lemma missing_keyword_other_exception :
  (exists c,
      cube Edge.ns_huge_naxis3_no_crpix3 = Some c
      /\ header c !! "crpix3" = None
      /\ velax_block Edge.ns_huge_naxis3_no_crpix3
         = (Raise ValueError, Edge.ns_huge_naxis3_no_crpix3))
  /\ (exists c,
        cube Edge.ns_big_crpix3_no_crval3 = Some c
        /\ header c !! "crval3" = None
        /\ velax_block Edge.ns_big_crpix3_no_crval3
           = (Raise OverflowError, Edge.ns_big_crpix3_no_crval3)).
Proof.
  split; eexists; (split; [reflexivity|]); split; vm_compute; reflexivity.
Qed.

Lemma missing_keyword_raises_KeyError_witness :
  velax_block Sample.ns_no_crpix3 = (Raise KeyError, Sample.ns_no_crpix3)
  /\ (exists ns',
        velax_block Edge.ns_no_crval3 = (Raise KeyError, ns')
        /\ cube ns' = cube Edge.ns_no_crval3)
  /\ convert_block Sample.ns_no_restfreq
     = (Raise KeyError, Sample.ns_no_restfreq).
Proof.
  split; [|split].
  - destruct (missing_keyword_raises_KeyError Sample.ns_no_crpix3
                (mk_cube (data Sample.fits) (delete "crpix3" Sample.hdr))
                eq_refl) as (_ & H & _).
    apply (H (Int 4) (IntArr [0; 1; 2; 3])); reflexivity.
  - destruct (missing_keyword_raises_KeyError Edge.ns_no_crval3
                (mk_cube (data Sample.fits) (delete "crval3" Sample.hdr))
                eq_refl) as (_ & _ & H & _).
    apply (H (Int 4) (IntArr [0; 1; 2; 3]) (Float 1%float)
             (FloatArr [-1; 0; 1; 2]%float));
      solve [reflexivity | left; reflexivity].
  - destruct (missing_keyword_raises_KeyError Sample.ns_no_restfreq
                (mk_cube (data Sample.fits) (delete "restfreq" Sample.hdr))
                eq_refl) as (_ & _ & _ & H & _).
    apply H. reflexivity.
Defined.

(** ** What a block reads and what it rebinds *)

Section Outcomes.
Context {F : Type} {num : Float64 F}.

Lemma mask_block_assigns (ns : namespace F) (r_min r_max : F) :
  snd (mask_block r_min r_max ns) = ns
  \/ exists m, snd (mask_block r_min r_max ns) = set_mask m ns.
Proof.
  destruct (rvals ns) as [rv|] eqn:Hr.
  - right. rewrite (mask_block_bound ns rv r_min r_max Hr). eauto.
  - left. rewrite (mask_block_unbound ns r_min r_max Hr). reflexivity.
Qed.

Lemma spectra_select_assigns (ns : namespace F) :
  (exists e, spectra_select_stmt ns = (Raise e, ns))
  \/ exists s, spectra_select_stmt ns = (Ok tt, set_spectra s ns).
Proof.
  unfold spectra_select_stmt, bind, read, lift, assign_spectra.
  destruct (spectra ns) as [s|]; simpl; [|eauto].
  destruct (mask ns) as [m|]; simpl; [|eauto].
  destruct (getitem_slice_mask (flatten s) m) as [s'|e]; simpl; eauto.
Qed.

Lemma theta_stmt_cases (ns : namespace F) :
  exists r ns', theta_stmt ns = (r, ns')
                /\ (ns' = ns \/ exists t, ns' = set_theta t ns).
Proof.
  unfold theta_stmt, bind, read, lift, assign_theta.
  destruct (tvals ns) as [tv|]; simpl; [|eauto].
  destruct (mask ns) as [m|]; simpl; [|eauto].
  destruct (getitem_mask (flatten tv) m) as [th|e]; simpl; eauto 6.
Qed.

Lemma spectra_block_cases (ns : namespace F) :
  exists r ns', spectra_block ns = (r, ns')
    /\ (ns' = ns
        \/ (exists s, ns' = set_spectra s ns)
        \/ (exists s t, ns' = set_theta t (set_spectra s ns))).
Proof.
  unfold spectra_block. unfold bind at 1.
  destruct (spectra_reshape_cases ns) as [[s E]|[e E]]; rewrite E; [|eauto].
  unfold bind at 1.
  destruct (spectra_select_assigns (set_spectra s ns)) as [[e E2]|[s2 E2]];
    rewrite E2.
  - do 2 eexists. split; [reflexivity|]. right. left. eauto.
  - destruct (theta_stmt_cases (set_spectra s2 (set_spectra s ns)))
      as (r & ns' & E3 & [->|[t ->]]); rewrite E3;
      do 2 eexists; (split; [reflexivity|]); right; [left|right]; eauto.
Qed.

(** The first statement of the velax block reads the name [cube] and asks
    the machine for memory, and nothing else: it raises, or it binds
    [velax], the same way in two name spaces that agree on these. *)
Lemma velax_index_agree (ns1 ns2 : namespace F) :
  cube ns1 = cube ns2 -> memory ns1 = memory ns2 ->
  (exists e, velax_index_stmt ns1 = (Raise e, ns1)
             /\ velax_index_stmt ns2 = (Raise e, ns2))
  \/ (exists a, velax_index_stmt ns1 = (Ok tt, set_velax a ns1)
                /\ velax_index_stmt ns2 = (Ok tt, set_velax a ns2)).
Proof.
  intros Hc Hm.
  unfold velax_index_stmt, np_arange, bind, read, lift, getitem_header,
    assign_velax.
  rewrite Hc. destruct (cube ns2) as [c|] eqn:Hc2; simpl; [|eauto].
  destruct (header c !! "naxis3") as [n|]; simpl; [|eauto].
  rewrite Hm. destruct (arange (memory ns2) n) as [a|e]; simpl; [|eauto].
  rewrite ?Hc, ?Hc2; simpl.
  destruct (header c !! "crpix3") as [p|]; simpl; [|eauto].
  destruct (arr_op_scalar Z.sub fsub a p) as [b|e]; simpl; [|eauto].
  destruct (arr_op_scalar Z.add fadd b (Float (of_int 1))) as [v|e]; simpl;
    eauto.
Qed.

(** The second statement reads [cube] and [velax]. *)
Lemma velax_scale_agree (ns1 ns2 : namespace F) :
  cube ns1 = cube ns2 -> velax ns1 = velax ns2 ->
  (exists e, velax_scale_stmt ns1 = (Raise e, ns1)
             /\ velax_scale_stmt ns2 = (Raise e, ns2))
  \/ (exists a, velax_scale_stmt ns1 = (Ok tt, set_velax a ns1)
                /\ velax_scale_stmt ns2 = (Ok tt, set_velax a ns2)).
Proof.
  intros Hc Hv.
  unfold velax_scale_stmt, bind, read, lift, getitem_header, assign_velax.
  rewrite Hc. destruct (cube ns2) as [c|] eqn:Hc2; simpl; [|eauto].
  destruct (header c !! "crval3") as [v0|]; simpl; [|eauto].
  rewrite Hv. destruct (velax ns2) as [v|] eqn:Hv2; simpl; [|eauto].
  rewrite ?Hc, ?Hc2; simpl.
  destruct (header c !! "cdelt3") as [d|]; simpl; [|eauto].
  destruct (arr_op_scalar Z.mul fmul v d) as [w|e]; simpl; [|eauto].
  destruct (scalar_op_arr Z.add fadd v0 w) as [v'|e]; simpl; eauto.
Qed.

(** The velax block: either its first statement raises and nothing is
    assigned, or [velax] is bound, in both name spaces to the same
    array. *)
Lemma velax_block_agree (ns1 ns2 : namespace F) :
  cube ns1 = cube ns2 -> memory ns1 = memory ns2 ->
  (exists e, velax_block ns1 = (Raise e, ns1)
             /\ velax_block ns2 = (Raise e, ns2)
             /\ fst (velax_index_stmt ns1) = Raise e)
  \/ (exists r a, velax_block ns1 = (r, set_velax a ns1)
                  /\ velax_block ns2 = (r, set_velax a ns2)
                  /\ fst (velax_index_stmt ns1) = Ok tt).
Proof.
  intros Hc Hm. unfold velax_block, bind.
  destruct (velax_index_agree ns1 ns2 Hc Hm) as [(e & E1 & E2)|(a & E1 & E2)];
    rewrite E1, E2.
  - left. exists e. repeat split.
  - right.
    destruct (velax_scale_agree (set_velax a ns1) (set_velax a ns2) Hc eq_refl)
      as [(e & S1 & S2)|(a' & S1 & S2)]; rewrite S1, S2.
    + exists (Raise e), a. repeat split.
    + exists (Ok tt), a'. repeat split.
Qed.

Lemma velax_block_reads_cube (ns1 ns2 : namespace F) :
  cube ns1 = cube ns2 -> memory ns1 = memory ns2 ->
  exists r,
    (velax_block ns1 = (r, ns1) /\ velax_block ns2 = (r, ns2))
    \/ exists a, velax_block ns1 = (r, set_velax a ns1)
                 /\ velax_block ns2 = (r, set_velax a ns2).
Proof.
  intros Hc Hm.
  destruct (velax_block_agree ns1 ns2 Hc Hm)
    as [(e & E1 & E2 & _)|(r & a & E1 & E2 & _)]; eauto 6.
Qed.

Lemma velax_block_cases (ns : namespace F) :
  exists r ns', velax_block ns = (r, ns')
                /\ (ns' = ns \/ exists a, ns' = set_velax a ns).
Proof.
  destruct (velax_block_reads_cube ns ns eq_refl eq_refl)
    as [r [[E _]|[a [E _]]]]; rewrite E; eauto 6.
Qed.

Lemma convert_block_cases (ns : namespace F) :
  exists r ns', convert_block ns = (r, ns')
    /\ (ns' = ns
        \/ (exists n, ns' = set_nu n ns)
        \/ (exists n a, ns' = set_velax a (set_nu n ns))).
Proof.
  unfold convert_block, nu_stmt, convert_stmt, bind, read, lift, getitem_header,
    assign_nu, assign_velax.
  destruct (cube ns) as [c|]; simpl; [|eauto].
  destruct (header c !! "restfreq") as [n|]; simpl; [|eauto].
  destruct (velax ns) as [v|]; simpl; [|eauto 8].
  destruct (scalar_op_arr Z.sub fsub n v) as [d|e]; simpl; [|eauto 8].
  destruct (scalar_op_arr Z.mul fmul (Float (of_int 299790000)) d) as [w|e];
    simpl; [|eauto 8].
  destruct (arr_truediv w n) as [q|e]; simpl; eauto 8.
Qed.




Lemma same_inputs_mask_block (ns : namespace F) (r_min r_max : F) :
  same_inputs ns (snd (mask_block r_min r_max ns))
  /\ velax (snd (mask_block r_min r_max ns)) = velax ns.
Proof.
  destruct (mask_block_assigns ns r_min r_max) as [->|[m ->]];
    repeat split.
Qed.


Lemma same_inputs_velax_block (ns : namespace F) :
  same_inputs ns (snd (velax_block ns)).
Proof.
  destruct (velax_block_cases ns) as (r & ns' & -> & [->|[a ->]]); repeat split.
Qed.


End Outcomes.

(** ** Deprojection *)

Section Deprojection.
Context {F : Type} {num : Float64 F}.
Variable sky_coords : cube_t F -> ndarray (F * F).
Variable deproject : geometry F -> F * F -> F * F * F.

(** C6.  For every geometry, the optional [z0], [psi] and [tilt] given or
    not, [disk_coords] returns [rvals] and [tvals] of the shape of the
    pixel map, each holding for every pixel the radius, respectively the
    polar angle, that the deprojection assigns to that pixel's sky-plane
    coordinates. *)
Theorem disk_coords_one_value_per_pixel (c : cube_t F) (g : geometry F) :
  let '(rv, tv, _) := disk_coords sky_coords deproject c g in
  shape rv = shape (sky_coords c)
  /\ shape tv = shape (sky_coords c)
  /\ length (flat rv) = length (flat (sky_coords c))
  /\ length (flat tv) = length (flat (sky_coords c))
  /\ forall i p,
       flat (sky_coords c) !! i = Some p ->
       flat rv !! i = Some (fst (fst (deproject g p)))
       /\ flat tv !! i = Some (snd (fst (deproject g p))).
Proof.
  unfold disk_coords, nd_map. simpl.
  repeat split; try apply length_map.
  - exact (lookup_map_Some (fun q => fst (fst (deproject g q))) _ _ _ H).
  - exact (lookup_map_Some (fun q => snd (fst (deproject g q))) _ _ _ H).
Qed.

End Deprojection.

(** ** The blocks run one after the other *)

Section Workflow.
Context {F : Type} {num : Float64 F}.












End Workflow.



(** ** The theorems at the sample cube *)

Lemma spectra_block_raises_IndexError_witness :
  exists ns',
    bind (mask_block 1%float 2%float) (fun _ => spectra_block) Sample.ns
      = (Raise IndexError, ns')
    /\ spectra ns'
       = Some (mk_ndarray [4; 2]%nat [1; 2; 3; 4; 5; 6; 7; 8]%float)
    /\ theta ns' = None.
Proof.
  apply (spectra_block_raises_IndexError Sample.ns Sample.fits
           (mk_ndarray [1; 2]%nat [0.5; 1.5]%float) 1%float 2%float
           4%nat [1; 2]%nat);
    solve [reflexivity | discriminate].
Defined.

Lemma mask_selects_closed_annulus_witness :
  exists m th,
    mask_block 1%float 2%float Sample.ns = (Ok tt, set_mask m Sample.ns)
    /\ flat m = [false; true]
    /\ theta_of_annulus 1%float 2%float Sample.ns
       = (Ok tt, set_theta th (set_mask m Sample.ns))
    /\ flat th = [(-2)%float].
Proof.
  destruct (mask_selects_closed_annulus Sample.ns
              (mk_ndarray [1; 2]%nat [0.5; 1.5]%float)
              (mk_ndarray [1; 2]%nat [0.25; -2]%float) 1%float 2%float
              eq_refl eq_refl eq_refl)
    as (m & th & Hm & _ & _ & Hentries & Hth & Hsel & _ & _).
  exists m, th. split; [exact Hm|].
  assert (Hflat : flat m = [false; true]).
  { pose proof (f_equal (fun r => mask (snd r)) Hm) as E.
    vm_compute in E. injection E as E. rewrite <- E. reflexivity. }
  split; [exact Hflat|]. split; [exact Hth|].
  rewrite Hsel, Hflat. reflexivity.
Defined.

Lemma widening_keeps_selection_witness :
  exists m m' th th',
    mask (snd (mask_block 1%float 2%float Sample.ns)) = Some m
    /\ mask (snd (mask_block 0.25%float 2%float Sample.ns)) = Some m'
    /\ (forall i, flat m !! i = Some true -> flat m' !! i = Some true)
    /\ theta (snd (theta_of_annulus 1%float 2%float Sample.ns)) = Some th
    /\ theta (snd (theta_of_annulus 0.25%float 2%float Sample.ns)) = Some th'
    /\ sublist (flat th) (flat th').
Proof.
  apply (widening_keeps_selection Sample.ns
           (mk_ndarray [1; 2]%nat [0.5; 1.5]%float)
           (mk_ndarray [1; 2]%nat [0.25; -2]%float)
           1%float 2%float 0.25%float 2%float);
    reflexivity.
Defined.

(** * Further properties of the blocks *)

(** ** Which names a block rebinds *)

Section Rebinding.
Context {F : Type} {num : Float64 F}.

(** X1.  A block rebinds only its own names, whether it ends normally or
    raises: the mask block at most [mask]; the spectra block at most
    [spectra], or [spectra] and [theta]; the velax block at most [velax];
    the conversion block at most [nu], or [nu] and [velax].  Every other
    name of the interpreter is bound as before. *)
Theorem blocks_rebind_only_their_names (ns : namespace F) (r_min r_max : F) :
  (snd (mask_block r_min r_max ns) = ns
   \/ exists m, snd (mask_block r_min r_max ns) = set_mask m ns)
  /\ (snd (spectra_block ns) = ns
      \/ (exists s, snd (spectra_block ns) = set_spectra s ns)
      \/ (exists s t, snd (spectra_block ns) = set_theta t (set_spectra s ns)))
  /\ (snd (velax_block ns) = ns
      \/ exists a, snd (velax_block ns) = set_velax a ns)
  /\ (snd (convert_block ns) = ns
      \/ (exists n, snd (convert_block ns) = set_nu n ns)
      \/ (exists n a, snd (convert_block ns) = set_velax a (set_nu n ns))).
Proof.
  split; [apply mask_block_assigns|].
  split; [destruct (spectra_block_cases ns) as (r & ns' & -> & H); exact H|].
  split; [destruct (velax_block_cases ns) as (r & ns' & -> & H); exact H|].
  destruct (convert_block_cases ns) as (r & ns' & -> & H); exact H.
Qed.

(** X2.  The mask block and the velax block can be run again: a second
    run, on the names the first one left, has the same outcome and leaves
    the names as the first run left them. *)
Theorem mask_and_velax_blocks_idempotent (ns : namespace F) (r_min r_max : F) :
  mask_block r_min r_max (snd (mask_block r_min r_max ns))
    = (fst (mask_block r_min r_max ns), snd (mask_block r_min r_max ns))
  /\ velax_block (snd (velax_block ns))
     = (fst (velax_block ns), snd (velax_block ns)).
Proof.
  split.
  - destruct (rvals ns) as [rv|] eqn:Hr.
    + rewrite (mask_block_bound ns rv r_min r_max Hr). simpl.
      rewrite (mask_block_bound _ rv r_min r_max); [reflexivity|exact Hr].
    + rewrite (mask_block_unbound ns r_min r_max Hr). simpl.
      apply mask_block_unbound. exact Hr.
  - destruct (same_inputs_velax_block ns) as (Hc & _ & Hm).
    destruct (velax_block_reads_cube ns (snd (velax_block ns))
                (eq_sym Hc) (eq_sym Hm)) as [r H].
    destruct H as [[E1 E2]|[a [E1 E2]]].
    + rewrite E1 in *. simpl in *. exact E1.
    + rewrite E1 in *. simpl in *. exact E2.
Qed.

(** ** Blocks run too early *)

(** X3.  A block run before the names it reads are assigned raises
    NameError.  Without [rvals] the mask block, and without [cube] the
    spectra, velax and conversion blocks, assign nothing.  With [cube] but
    without [velax], the conversion block stops after it has bound [nu];
    with [cube] but without [mask], the spectra block stops after it has
    bound [spectra] to the reshaped cube. *)
Theorem blocks_run_too_early (ns : namespace F) (r_min r_max : F) :
  (rvals ns = None -> mask_block r_min r_max ns = (Raise NameError, ns))
  /\ (cube ns = None ->
      spectra_block ns = (Raise NameError, ns)
      /\ velax_block ns = (Raise NameError, ns)
      /\ convert_block ns = (Raise NameError, ns))
  /\ (forall c n, cube ns = Some c -> header c !! "restfreq" = Some n ->
      velax ns = None ->
      convert_block ns = (Raise NameError, set_nu n ns))
  /\ (forall c n0 rest, cube ns = Some c -> shape (data c) = n0 :: rest ->
      n0 <> 0%nat -> well_shaped (data c) -> mask ns = None ->
      spectra_block ns
      = (Raise NameError,
         set_spectra (mk_ndarray [n0; numel rest] (flat (data c))) ns)).
Proof.
  split; [apply mask_block_unbound|]. split; [|split].
  - intros Hc. repeat split.
    + unfold spectra_block, spectra_reshape_stmt, bind, read. rewrite Hc.
      reflexivity.
    + unfold velax_block, velax_index_stmt, bind, read. rewrite Hc. reflexivity.
    + unfold convert_block, nu_stmt, bind, read. rewrite Hc. reflexivity.
  - intros c n Hc Hn Hv.
    unfold convert_block, nu_stmt, convert_stmt, bind, read, lift, getitem_header,
      assign_nu.
    rewrite Hc; simpl. rewrite Hn; simpl. rewrite Hv. reflexivity.
  - intros c n0 rest Hc Hs Hn Hw Hm.
    unfold spectra_block, bind at 1.
    rewrite (spectra_reshape_bound ns c n0 rest Hc Hs Hn Hw).
    unfold bind at 1, spectra_select_stmt, bind, read. simpl. rewrite Hm.
    reflexivity.
Qed.

(** X4.  Degenerate cubes stop the spectra block at its first statement
    and leave every name as it was: a zero-dimensional data array has no
    [shape[0]] (IndexError), and [reshape(0, -1)] of a cube with an empty
    first axis is a ValueError. *)
Theorem spectra_block_on_degenerate_cubes (ns : namespace F) (c : cube_t F) :
  cube ns = Some c ->
  (shape (data c) = [] -> spectra_block ns = (Raise IndexError, ns))
  /\ (forall rest, shape (data c) = 0%nat :: rest ->
      spectra_block ns = (Raise ValueError, ns)).
Proof.
  intros Hc. split.
  - intros Hs. unfold spectra_block, spectra_reshape_stmt, bind, read, lift, shape0.
    rewrite Hc; simpl. rewrite Hc; simpl. rewrite Hs. reflexivity.
  - intros rest Hs.
    unfold spectra_block, spectra_reshape_stmt, bind, read, lift, shape0, reshape.
    rewrite Hc; simpl. rewrite Hc; simpl. rewrite Hs. reflexivity.
Qed.

End Rebinding.

(** ** The velocity axis: partial runs, element type and length *)

(** X5.  The velax block assigns [velax] twice.  In binary64, when
    [naxis3] is an integer [0 <= naxis3 < 2^53] that the machine has room
    for and [crpix3] is a float or an integer in the int64 range, but
    [crval3] or [cdelt3] is not in the header, the block raises KeyError
    after its first statement: [velax] is left bound to the pixel offsets
    [i - crpix3 + 1.0], one per channel, not to velocities. *)
Theorem velax_block_stops_halfway
    (ns : namespace float) (c : cube_t float) (k : Z) (p : scalar float) :
  cube ns = Some c ->
  header c !! "naxis3" = Some (Int k) -> 0 <= k < 2 ^ 53 -> k <= memory ns ->
  header c !! "crpix3" = Some p -> fits_int64 p = true ->
  header c !! "crval3" = None \/ header c !! "cdelt3" = None ->
  exists l,
    velax_block ns = (Raise KeyError, set_velax (FloatArr l) ns)
    /\ Z.of_nat (length l) = k
    /\ forall i, 0 <= i < k -> l !! Z.to_nat i = Some (channel_offset p i).
Proof.
  intros Hc Hn Hk Hmem Hp Hp1 Hmiss.
  exists (map (channel_offset p) (count_up k)).
  split; [|split].
  - unfold velax_block, bind at 1.
    rewrite (velax_index_bound ns c (Int k) p k Hc Hn
               (arange_count (memory ns) k Hk Hmem) Hp Hp1).
    unfold velax_scale_stmt, bind, read, lift, getitem_header.
    simpl. rewrite Hc; simpl.
    destruct (header c !! "crval3") as [v0|]; simpl; [|reflexivity].
    rewrite Hc; simpl.
    destruct Hmiss as [H|H]; [discriminate|]. rewrite H. reflexivity.
  - rewrite length_map, length_count_up. lia.
  - intros i Hi. rewrite list_lookup_fmap, lookup_count_up by lia.
    simpl. rewrite Z2Nat.id by lia. reflexivity.
Qed.

Section VelaxEdges.
Context {F : Type} {num : Float64 F}.

Lemma sub_keeps_length (a b : arr F) (p : scalar F) :
  arr_op_scalar Z.sub fsub a p = Ok b ->
  length (as_floats b) = length (as_floats a).
Proof.
  unfold arr_op_scalar.
  destruct a as [l|l], p as [q|x]; simpl;
    repeat match goal with
           | |- context [if ?c then _ else _] => destruct c
           end;
    intros [= <-]; simpl; rewrite ?length_map; reflexivity.
Qed.

Lemma length_arange (mem : Z) (n : scalar F) (a : arr F) :
  arange mem n = Ok a ->
  exists len,
    arange_length (promote n) = Ok len /\ len <= Z.max 0 mem
    /\ length (as_floats a) = Z.to_nat len.
Proof.
  unfold arange.
  destruct (arange_length (promote n)) as [len|e]; [|discriminate].
  destruct (allocate mem len) as [[]|e] eqn:Ha; [|discriminate].
  intros H. exists len. split; [reflexivity|]. split.
  - unfold allocate in Ha.
    destruct (Z.leb_spec len 0); [lia|].
    destruct (2 ^ 60 <=? len); [discriminate|].
    destruct (Z.ltb_spec mem len); [discriminate|]. lia.
  - destruct n as [k|x]; [destruct (int64_ok k)|]; injection H as <-;
      simpl; rewrite ?length_map; apply length_count_up.
Qed.

(** X6.  The velax block ends normally only when [cube] is bound and its
    header holds all four of [naxis3], [crpix3], [crval3] and [cdelt3].
    Then [velax] is the one name rebound, it is a float64 array whatever
    the types of the header cards (the [+ 1.0] promotes an all-integer
    header), and it has as many entries as [np.arange(naxis3)], no more
    than the machine has room for. *)
Theorem velax_block_normal_end (ns ns' : namespace F) :
  velax_block ns = (Ok tt, ns') ->
  exists c n p v0 d len l,
    cube ns = Some c
    /\ header c !! "naxis3" = Some n
    /\ header c !! "crpix3" = Some p
    /\ header c !! "crval3" = Some v0
    /\ header c !! "cdelt3" = Some d
    /\ arange_length (promote n) = Ok len
    /\ len <= Z.max 0 (memory ns)
    /\ ns' = set_velax (FloatArr l) ns
    /\ length l = Z.to_nat len.
Proof.
  unfold velax_block, velax_index_stmt, velax_scale_stmt, np_arange, bind, read,
    lift, getitem_header, assign_velax.
  destruct (cube ns) as [c|] eqn:Hc; simpl; [|discriminate].
  destruct (header c !! "naxis3") as [n|] eqn:Hn; simpl; [|discriminate].
  destruct (arange (memory ns) n) as [a|e] eqn:Ha; simpl; [|discriminate].
  rewrite Hc; simpl.
  destruct (header c !! "crpix3") as [p|] eqn:Hp; simpl; [|discriminate].
  destruct (arr_op_scalar Z.sub fsub a p) as [b|e] eqn:Hb; simpl; [|discriminate].
  destruct (add_float_is_float64 b (of_int 1)) as (l1 & -> & Hl1). simpl.
  rewrite Hc; simpl.
  destruct (header c !! "crval3") as [v0|] eqn:Hv; simpl; [|discriminate].
  rewrite Hc; simpl.
  destruct (header c !! "cdelt3") as [d|] eqn:Hd; simpl; [|discriminate].
  unfold arr_op_scalar, scalar_op_arr.
  destruct (float_ok d); simpl; [|discriminate].
  destruct (float_ok v0); simpl; [|discriminate].
  intros [= <-].
  destruct (length_arange (memory ns) n a Ha) as (len & Hlen & Hmem & Hla).
  exists c, n, p, v0, d, len,
    (map (fun v => fadd (promote v0) v) (map (fun v => fmul v (promote d)) l1)).
  repeat split; try assumption; try reflexivity.
  rewrite !length_map, Hl1, (sub_keeps_length a b p Hb). exact Hla.
Qed.

End VelaxEdges.

Lemma nonfinite_ceil (x : float) : B64.finite x = false -> B64.ceil x = None.
Proof.
  unfold B64.finite, B64.ceil. destruct (Prim2SF x); intros H;
    try discriminate; reflexivity.
Qed.

(** X7.  In binary64, a float card [naxis3] that is nan or an infinity, or
    whose ceiling lies beyond [2^63] in absolute value (1e30, say), ends
    the velax block in ValueError, [np.arange] having no length for it;
    nothing is assigned. *)
Theorem unbounded_naxis3_raises_ValueError
    (ns : namespace float) (c : cube_t float) (x : float) :
  cube ns = Some c -> header c !! "naxis3" = Some (Float x) ->
  B64.finite x = false
  \/ (exists k, B64.ceil x = Some k /\ (k < - 2 ^ 63 \/ 2 ^ 63 < k)) ->
  velax_block ns = (Raise ValueError, ns).
Proof.
  intros Hc Hn Hx.
  assert (Ha : arange (memory ns) (Float x) = Raise ValueError).
  { unfold arange, arange_length. simpl promote.
    change (fceil x) with (B64.ceil x).
    destruct Hx as [Hx|(k & Hk & Hr)].
    - rewrite (nonfinite_ceil x Hx). reflexivity.
    - rewrite Hk.
      destruct (Z.ltb_spec k (- 2 ^ 63)); [reflexivity|].
      destruct (Z.ltb_spec (2 ^ 63) k); [reflexivity|]. lia. }
  unfold velax_block, velax_index_stmt, np_arange, bind, read, lift,
    getitem_header.
  rewrite Hc; simpl. rewrite Hn; simpl. rewrite Ha. reflexivity.
Qed.

(** ** A rest frequency of zero *)

Lemma div_by_zero_not_finite (y z : float) :
  B64.finite z = true -> B64.finite_nonzero z = false ->
  B64.finite (PrimFloat.div y z) = false.
Proof.
  unfold B64.finite, B64.finite_nonzero. rewrite FloatAxioms.div_spec.
  destruct (Prim2SF z) as [sz|sz| |sz mz ez]; try discriminate. intros _ _.
  destruct (Prim2SF y) as [sy|sy| |sy my ey]; reflexivity.
Qed.

Lemma finite_float_ok (n : scalar float) :
  B64.finite (promote n) = true -> float_ok n = true.
Proof. destruct n as [k|x]; intros H; [exact H | reflexivity]. Qed.

(** X10.  In binary64, a header whose [restfreq] is zero does not stop the
    conversion block: the division by zero raises nothing, the block ends
    normally, and every entry of the converted [velax] is nan or an
    infinity. *)
Theorem zero_rest_frequency_gives_no_finite_velocity
    (ns : namespace float) (c : cube_t float) (n : scalar float) (l : list float) :
  cube ns = Some c -> header c !! "restfreq" = Some n ->
  B64.finite (promote n) = true -> B64.finite_nonzero (promote n) = false ->
  velax ns = Some (FloatArr l) ->
  exists l',
    convert_block ns = (Ok tt, set_velax (FloatArr l') (set_nu n ns))
    /\ length l' = length l
    /\ forall v, In v l' -> B64.finite v = false.
Proof.
  intros Hc Hn Hfin Hz Hv.
  exists (map (freq_to_vel (promote n)) l).
  split; [exact (convert_block_bound ns c n l Hc Hn (finite_float_ok n Hfin) Hv)|].
  split; [apply length_map|].
  intros v Hin. apply in_map_iff in Hin as (f & <- & _).
  unfold freq_to_vel. apply div_by_zero_not_finite; assumption.
Qed.

(** ** The order of the velocity axis *)

Lemma lookup_velax_entries (p v0 d : scalar float) (k : Z) (i : nat) (x : float) :
  map (velax_entry p v0 d) (count_up k) !! i = Some x ->
  Z.of_nat i < k /\ x = velax_entry p v0 d (Z.of_nat i).
Proof.
  intros H. apply lookup_lt_Some in H as Hlt.
  rewrite length_map, length_count_up in Hlt.
  rewrite list_lookup_fmap, (lookup_count_up k i Hlt) in H.
  injection H as <-. split; [lia | reflexivity].
Qed.

(** X8.  In binary64, on a header with an integer [0 <= naxis3 < 2^53]
    that the machine has room for and finite [crpix3], [crval3] and
    [cdelt3], the int64 subtractions of an integer [crpix3] clear of the
    wrap-around: the velax block ends normally with [naxis3] entries that
    are in order, none larger than a later one for a positive [cdelt3],
    none smaller for a negative one. *)
Theorem velocity_axis_in_order
    (ns : namespace float) (c : cube_t float) (k : Z) (p v0 d : scalar float) :
  cube ns = Some c ->
  header c !! "naxis3" = Some (Int k) -> 0 <= k < 2 ^ 53 -> k <= memory ns ->
  header c !! "crpix3" = Some p -> fits_int64 p = true -> int64_safe k p ->
  B64.finite (promote p) = true ->
  header c !! "crval3" = Some v0 -> B64.finite (promote v0) = true ->
  header c !! "cdelt3" = Some d -> B64.finite (promote d) = true ->
  exists l,
    velax_block ns = (Ok tt, set_velax (FloatArr l) ns)
    /\ Z.of_nat (length l) = k
    /\ (PrimFloat.ltb 0 (promote d) = true -> ascending l)
    /\ (PrimFloat.ltb (promote d) 0 = true -> descending l).
Proof.
  intros Hc Hn Hk Hm Hp Hp1 Hs Hpf Hv Hvf Hd Hdf.
  exists (map (velax_entry p v0 d) (count_up k)).
  split.
  { apply (velax_block_bound ns c k (Int k) p v0 d); try assumption.
    - apply arange_count; assumption.
    - apply finite_float_ok; assumption.
    - apply finite_float_ok; assumption. }
  split; [rewrite length_map, length_count_up; lia|].
  split; intros Hsign i j x y Hij Hi Hj;
    apply lookup_velax_entries in Hi as [Hik ->];
    apply lookup_velax_entries in Hj as [Hjk ->];
    destruct (OrderFacts.velax_entry_mono k p v0 d (Z.of_nat i) (Z.of_nat j))
      as [Hup Hdown]; try assumption; try lia; auto.
Qed.

(** X9.  In binary64, for a finite positive rest frequency the conversion
    block turns the order of the axis round: an axis in which no entry is
    larger than a later one becomes one in which none is smaller, and the
    other way round. *)
Theorem conversion_reverses_order
    (ns : namespace float) (c : cube_t float) (n : scalar float) (l : list float) :
  cube ns = Some c -> header c !! "restfreq" = Some n ->
  B64.finite (promote n) = true -> PrimFloat.ltb 0 (promote n) = true ->
  velax ns = Some (FloatArr l) ->
  exists l',
    convert_block ns = (Ok tt, set_velax (FloatArr l') (set_nu n ns))
    /\ length l' = length l
    /\ (ascending l -> descending l')
    /\ (descending l -> ascending l').
Proof.
  intros Hc Hn Hfin Hpos Hv.
  exists (map (freq_to_vel (promote n)) l).
  split; [exact (convert_block_bound ns c n l Hc Hn (finite_float_ok n Hfin) Hv)|].
  split; [apply length_map|].
  split; intros Hl i j x' y' Hij Hi Hj;
    rewrite list_lookup_fmap in Hi, Hj;
    destruct (l !! i) as [x|] eqn:Ei; try discriminate;
    destruct (l !! j) as [y|] eqn:Ej; try discriminate;
    injection Hi as <-; injection Hj as <-;
    apply OrderFacts.freq_to_vel_antitone; try assumption;
    exact (Hl i j x y Hij Ei Ej).
Qed.

(** ** The annulus at its edges *)

Lemma nan_is_nan (x : float) :
  PrimFloat.eqb x x = false -> Prim2SF x = S754_nan.
Proof.
  rewrite FloatAxioms.eqb_spec. intros H.
  destruct (Prim2SF x) as [s|s| |s m e] eqn:E; try reflexivity;
    rewrite B64Facts.SFeqb_refl in H; discriminate.
Qed.

Lemma leb_nan_l (x y : float) :
  PrimFloat.eqb x x = false -> PrimFloat.leb x y = false.
Proof.
  intros H. rewrite FloatAxioms.leb_spec, (nan_is_nan x H). reflexivity.
Qed.

Lemma leb_nan_r (x y : float) :
  PrimFloat.eqb y y = false -> PrimFloat.leb x y = false.
Proof.
  intros H. rewrite FloatAxioms.leb_spec, (nan_is_nan y H).
  unfold SFleb, SFcompare. destruct (Prim2SF x); reflexivity.
Qed.

Lemma nan_excluded (r_min r_max r : float) :
  PrimFloat.eqb r_min r_min = false \/ PrimFloat.eqb r_max r_max = false
  \/ PrimFloat.eqb r r = false ->
  in_annulus r_min r_max r = false.
Proof.
  unfold in_annulus. simpl. intros [H|[H|H]].
  - rewrite (leb_nan_l r_min r H). reflexivity.
  - rewrite (leb_nan_r r r_max H). apply andb_false_r.
  - rewrite (leb_nan_r r_min r H). reflexivity.
Qed.

Lemma whole_line (r : float) :
  PrimFloat.eqb r r = true -> in_annulus neg_infinity infinity r = true.
Proof.
  unfold in_annulus. simpl. rewrite FloatAxioms.eqb_spec, !FloatAxioms.leb_spec.
  change (Prim2SF neg_infinity) with (S754_infinity true).
  change (Prim2SF infinity) with (S754_infinity false).
  destruct (Prim2SF r) as [s|s| |s m e]; try destruct s; simpl;
    try reflexivity; try discriminate.
Qed.

Lemma SFleb_antisym (x y : spec_float) :
  SFleb x y && SFleb y x = SFeqb x y.
Proof.
  unfold SFleb, SFeqb.
  destruct x as [sx|sx| |sx mx ex], y as [sy|sy| |sy my ey];
    try (destruct sx); try (destruct sy); cbn; try reflexivity.
  all: rewrite (Z.compare_antisym ex ey); destruct (Z.compare ex ey); cbn;
    try reflexivity.
  all: fold (Pos.compare mx my) (Pos.compare my mx);
    rewrite (Pos.compare_antisym mx my); destruct (Pos.compare mx my); reflexivity.
Qed.

Lemma point_annulus (r0 r : float) :
  in_annulus r0 r0 r = PrimFloat.eqb r0 r.
Proof.
  unfold in_annulus. simpl.
  rewrite FloatAxioms.eqb_spec, !FloatAxioms.leb_spec. apply SFleb_antisym.
Qed.

Lemma select_all_true {A B} (p : A -> bool) (rl : list A) (tl : list B) :
  (forall r, In r rl -> p r = true) -> length tl = length rl ->
  select (map p rl) tl = tl.
Proof.
  revert tl. induction rl as [|r rl IH]; intros [|t tl] H Hl; simpl in *;
    try reflexivity; try discriminate.
  rewrite (H r) by auto. f_equal. apply IH; [auto | lia].
Qed.

Lemma length_select {A} (m : list bool) (l : list A) :
  length m = length l -> length (select m l) = count_true m.
Proof.
  unfold count_true. revert l. induction m as [|b m IH]; intros [|x l] H;
    simpl in *; try reflexivity; try discriminate.
  destruct b; simpl; rewrite IH by lia; reflexivity.
Qed.

Lemma count_true_none {A} (l : list A) :
  count_true (map (fun _ => false) l) = 0%nat.
Proof.
  unfold count_true. induction l as [|x l IH]; simpl; [reflexivity | exact IH].
Qed.

Lemma count_true_le (m : list bool) : (count_true m <= length m)%nat.
Proof. unfold count_true. apply List.filter_length_le. Qed.

(** X11.  In binary64, nan is in no annulus: a pixel whose radius is nan is
    never selected, whatever the bounds, and when [r_min] or [r_max] is nan
    the mask is False everywhere and [theta] is the empty array.  Nothing
    is raised. *)
Theorem nan_selects_nothing
    (ns : namespace float) (rv tv : ndarray float) (r_min r_max : float) :
  rvals ns = Some rv -> tvals ns = Some tv ->
  length (flat tv) = length (flat rv) ->
  exists m th,
    theta_of_annulus r_min r_max ns = (Ok tt, set_theta th (set_mask m ns))
    /\ length (flat m) = length (flat rv)
    /\ (forall i r, flat rv !! i = Some r -> PrimFloat.eqb r r = false ->
        flat m !! i = Some false)
    /\ (PrimFloat.eqb r_min r_min = false \/ PrimFloat.eqb r_max r_max = false ->
        (forall b, In b (flat m) -> b = false)
        /\ th = mk_ndarray [0%nat] []).
Proof.
  intros Hr Ht Hl.
  set (ml := map (in_annulus r_min r_max) (flat rv)).
  exists (mk_ndarray [length (flat rv)] ml),
         (mk_ndarray [count_true ml] (select ml (flat tv))).
  split; [apply theta_of_annulus_bound; assumption|].
  split; [apply length_map|]. split.
  - intros i r Hi Hnan. simpl. unfold ml.
    rewrite (lookup_map_Some (in_annulus r_min r_max) _ _ _ Hi).
    rewrite nan_excluded by auto. reflexivity.
  - intros Hnan. unfold ml. split.
    + simpl. intros b Hb. apply in_map_iff in Hb as (r & <- & _).
      apply nan_excluded. tauto.
    + assert (E : map (in_annulus r_min r_max) (flat rv)
                  = map (fun _ => false) (flat rv)).
      { apply map_ext. intros r. apply nan_excluded. tauto. }
      rewrite E. rewrite (select_all_false (fun _ => false)) by reflexivity.
      rewrite count_true_none. reflexivity.
Qed.

(** X12.  In binary64, the bounds [-inf] and [inf] select every pixel
    whose radius is a number: when no radius is nan, [theta] is the whole
    of [tvals.flatten()]. *)
Theorem infinite_bounds_select_every_pixel
    (ns : namespace float) (rv tv : ndarray float) :
  rvals ns = Some rv -> tvals ns = Some tv ->
  length (flat tv) = length (flat rv) ->
  (forall r, In r (flat rv) -> PrimFloat.eqb r r = true) ->
  exists m,
    theta_of_annulus neg_infinity infinity ns
    = (Ok tt, set_theta (flatten tv) (set_mask m ns)).
Proof.
  intros Hr Ht Hl Hall.
  set (ml := map (in_annulus neg_infinity infinity) (flat rv)).
  exists (mk_ndarray [length (flat rv)] ml).
  rewrite (theta_of_annulus_bound ns rv tv neg_infinity infinity Hr Ht Hl).
  fold ml.
  assert (Hsel : select ml (flat tv) = flat tv).
  { apply select_all_true; [|exact Hl]. intros r Hin. apply whole_line, Hall, Hin. }
  rewrite Hsel. unfold flatten.
  rewrite <- (length_select ml (flat tv)), Hsel; [reflexivity|].
  unfold ml. rewrite length_map. symmetry. exact Hl.
Qed.

(** X13.  In binary64, equal bounds [r_min = r_max = r0] select the pixels
    whose radius compares equal to [r0], and no other: entry [i] of the
    mask is [r0 == rvals.flatten()[i]]. *)
Theorem equal_bounds_select_equal_radii
    (ns : namespace float) (rv : ndarray float) (r0 : float) :
  rvals ns = Some rv ->
  exists m,
    mask_block r0 r0 ns = (Ok tt, set_mask m ns)
    /\ forall i r, flat rv !! i = Some r ->
         flat m !! i = Some (PrimFloat.eqb r0 r).
Proof.
  intros Hr. eexists. split; [apply (mask_block_bound ns rv r0 r0 Hr)|].
  intros i r Hi. simpl.
  rewrite (lookup_map_Some (in_annulus r0 r0) _ _ _ Hi), point_annulus. reflexivity.
Qed.

Section Counts.
Context {F : Type} {num : Float64 F}.

(** X14.  The mask and [theta] are one-dimensional whatever the shape of
    [rvals] and [tvals]: the mask has one entry per pixel, [theta] one
    entry per True entry of the mask, so never more entries than there are
    pixels. *)
Theorem theta_has_one_entry_per_selected_pixel
    (ns : namespace F) (rv tv : ndarray F) (r_min r_max : F) :
  rvals ns = Some rv -> tvals ns = Some tv ->
  length (flat tv) = length (flat rv) ->
  exists m th,
    theta_of_annulus r_min r_max ns = (Ok tt, set_theta th (set_mask m ns))
    /\ well_shaped m /\ well_shaped th
    /\ shape m = [length (flat rv)]
    /\ shape th = [count_true (flat m)]
    /\ (count_true (flat m) <= length (flat rv))%nat.
Proof.
  intros Hr Ht Hl.
  set (ml := map (in_annulus r_min r_max) (flat rv)).
  assert (Hml : length ml = length (flat rv)) by apply length_map.
  exists (mk_ndarray [length (flat rv)] ml),
         (mk_ndarray [count_true ml] (select ml (flat tv))).
  split; [apply theta_of_annulus_bound; assumption|].
  unfold well_shaped. simpl. repeat split.
  - lia.
  - rewrite length_select by lia. lia.
  - rewrite <- Hml. apply count_true_le.
Qed.

(** X15.  When [tvals] does not hold as many values as [rvals], the mask
    is built as usual, and [theta = tvals.flatten()[mask]] raises
    IndexError, the mask being of another length than the array it
    indexes; [theta] is not assigned. *)
Theorem theta_needs_one_angle_per_radius
    (ns : namespace F) (rv tv : ndarray F) (r_min r_max : F) :
  rvals ns = Some rv -> tvals ns = Some tv ->
  length (flat tv) <> length (flat rv) ->
  exists m,
    theta_of_annulus r_min r_max ns = (Raise IndexError, set_mask m ns)
    /\ shape m = [length (flat rv)].
Proof.
  intros Hr Ht Hl.
  exists (mk_ndarray [length (flat rv)] (map (in_annulus r_min r_max) (flat rv))).
  split; [|reflexivity].
  unfold theta_of_annulus, bind at 1.
  rewrite (mask_block_bound ns rv r_min r_max Hr).
  unfold theta_stmt, bind, read, lift. simpl. rewrite Ht. simpl.
  unfold getitem_mask, flatten. simpl.
  destruct (Nat.eqb_spec (length (flat rv)) (length (flat tv))) as [E|_];
    [congruence | reflexivity].
Qed.

End Counts.

(** ** Annuli side by side *)

Lemma SFleb_total (x y : spec_float) :
  x <> S754_nan -> y <> S754_nan -> SFleb x y = true \/ SFleb y x = true.
Proof.
  unfold SFleb.
  destruct x as [sx|sx| |sx mx ex], y as [sy|sy| |sy my ey];
    try (destruct sx); try (destruct sy); cbn; try congruence; intros _ _;
    try (left; reflexivity); try (right; reflexivity).
  all: rewrite (Z.compare_antisym ex ey); destruct (Z.compare ex ey); cbn;
    try (left; reflexivity); try (right; reflexivity).
  all: fold (Pos.compare mx my) (Pos.compare my mx);
    rewrite (Pos.compare_antisym mx my); destruct (Pos.compare mx my); cbn;
    try (left; reflexivity); try (right; reflexivity).
Qed.

Lemma not_nan (x : float) : PrimFloat.eqb x x = true -> Prim2SF x <> S754_nan.
Proof. rewrite FloatAxioms.eqb_spec. intros H E. rewrite E in H. discriminate. Qed.

Lemma leb_total (x y : float) :
  PrimFloat.eqb x x = true -> PrimFloat.eqb y y = true ->
  PrimFloat.leb x y = true \/ PrimFloat.leb y x = true.
Proof.
  intros Hx Hy. rewrite !FloatAxioms.leb_spec.
  apply SFleb_total; apply not_nan; assumption.
Qed.

Lemma leb_not_nan_r (x y : float) :
  PrimFloat.leb x y = true -> PrimFloat.eqb y y = true.
Proof.
  intros H. destruct (PrimFloat.eqb y y) eqn:E; [reflexivity|].
  rewrite (leb_nan_r x y E) in H. discriminate.
Qed.

Lemma split_annulus (a b c r : float) :
  PrimFloat.leb a b = true -> PrimFloat.leb b c = true ->
  in_annulus a c r = in_annulus a b r || in_annulus b c r.
Proof.
  intros Hab Hbc. unfold in_annulus. simpl.
  destruct (PrimFloat.leb a r) eqn:Har; simpl.
  - destruct (PrimFloat.leb r b) eqn:Hrb; simpl.
    + exact (B64Facts.leb_trans _ _ _ Hrb Hbc).
    + destruct (PrimFloat.leb r c) eqn:Hrc; [|rewrite andb_false_r; reflexivity].
      destruct (leb_total r b (leb_not_nan_r a r Har) (leb_not_nan_r a b Hab))
        as [H|H]; [congruence|].
      rewrite H. reflexivity.
  - destruct (PrimFloat.leb b r) eqn:Hbr; [|reflexivity].
    pose proof (B64Facts.leb_trans _ _ _ Hab Hbr). congruence.
Qed.

Lemma shared_bound (a b c r : float) :
  PrimFloat.leb a b = true -> PrimFloat.leb b c = true ->
  in_annulus a b r && in_annulus b c r = PrimFloat.eqb b r.
Proof.
  intros Hab Hbc. rewrite <- point_annulus. unfold in_annulus. simpl.
  destruct (PrimFloat.leb b r) eqn:Hbr; simpl; [|apply andb_false_r].
  rewrite (B64Facts.leb_trans _ _ _ Hab Hbr). simpl.
  destruct (PrimFloat.leb r b) eqn:Hrb; simpl; [|reflexivity].
  exact (B64Facts.leb_trans _ _ _ Hrb Hbc).
Qed.

Lemma apart (a b c d r : float) :
  PrimFloat.ltb b c = true ->
  in_annulus a b r && in_annulus c d r = false.
Proof.
  intros Hlt. unfold in_annulus. simpl.
  destruct (PrimFloat.leb r b) eqn:Hrb; [|rewrite andb_false_r; reflexivity].
  destruct (PrimFloat.leb c r) eqn:Hcr; [|rewrite andb_false_r; reflexivity].
  pose proof (B64Facts.leb_trans _ _ _ Hcr Hrb) as H.
  rewrite (B64Facts.ltb_not_leb _ _ Hlt) in H. discriminate.
Qed.

(** X16.  In binary64, two annuli that share a bound, [(a, b)] and [(b, c)]
    with [a <= b <= c], select between them exactly the pixels of the
    annulus [(a, c)]; both bounds being included, they have in common the
    pixels whose radius compares equal to [b], and no other. *)
Theorem annuli_sharing_a_bound
    (ns : namespace float) (rv : ndarray float) (a b c : float) :
  rvals ns = Some rv ->
  PrimFloat.leb a b = true -> PrimFloat.leb b c = true ->
  exists m_in m_out m_all,
    mask_block a b ns = (Ok tt, set_mask m_in ns)
    /\ mask_block b c ns = (Ok tt, set_mask m_out ns)
    /\ mask_block a c ns = (Ok tt, set_mask m_all ns)
    /\ forall i r, flat rv !! i = Some r ->
         exists x y,
           flat m_in !! i = Some x /\ flat m_out !! i = Some y
           /\ flat m_all !! i = Some (x || y)
           /\ x && y = PrimFloat.eqb b r.
Proof.
  intros Hr Hab Hbc. do 3 eexists.
  split; [exact (mask_block_bound ns rv a b Hr)|].
  split; [exact (mask_block_bound ns rv b c Hr)|].
  split; [exact (mask_block_bound ns rv a c Hr)|].
  intros i r Hi. exists (in_annulus a b r), (in_annulus b c r). simpl.
  rewrite !(lookup_map_Some _ _ _ _ Hi).
  rewrite (split_annulus a b c r Hab Hbc), (shared_bound a b c r Hab Hbc).
  repeat split.
Qed.

(** X17.  In binary64, two annuli [(a, b)] and [(c, d)] with [b < c] have
    no pixel in common: no entry is True in both masks. *)
Theorem annuli_apart_share_no_pixel
    (ns : namespace float) (rv : ndarray float) (a b c d : float) :
  rvals ns = Some rv ->
  PrimFloat.ltb b c = true ->
  exists m_in m_out,
    mask_block a b ns = (Ok tt, set_mask m_in ns)
    /\ mask_block c d ns = (Ok tt, set_mask m_out ns)
    /\ forall i, flat m_in !! i = Some true -> flat m_out !! i = Some true ->
         False.
Proof.
  intros Hr Hlt. do 2 eexists.
  split; [exact (mask_block_bound ns rv a b Hr)|].
  split; [exact (mask_block_bound ns rv c d Hr)|].
  simpl. intros i H1 H2.
  rewrite list_lookup_fmap in H1, H2.
  destruct (flat rv !! i) as [r|]; simpl in H1, H2; [|discriminate].
  injection H1 as H1. injection H2 as H2.
  pose proof (apart a b c d r Hlt) as H. rewrite H1, H2 in H. discriminate.
Qed.

(** ** Whole-number headers *)

Module ExactFacts.
Import Round RoundFacts OrderFacts.













End ExactFacts.


(** ** The further properties at sample inputs *)

Lemma blocks_run_too_early_witness :
  mask_block 1%float 2%float Edge.fresh = (Raise NameError, Edge.fresh)
  /\ (spectra_block Edge.fresh = (Raise NameError, Edge.fresh)
      /\ velax_block Edge.fresh = (Raise NameError, Edge.fresh)
      /\ convert_block Edge.fresh = (Raise NameError, Edge.fresh))
  /\ convert_block Sample.ns
     = (Raise NameError, set_nu (Float 230538000000%float) Sample.ns)
  /\ spectra_block Sample.ns
     = (Raise NameError,
        set_spectra (mk_ndarray [4; 2]%nat [1; 2; 3; 4; 5; 6; 7; 8]%float)
          Sample.ns).
Proof.
  destruct (blocks_run_too_early Edge.fresh 1%float 2%float)
    as (Hmask & Hcube & _ & _).
  destruct (blocks_run_too_early Sample.ns 1%float 2%float)
    as (_ & _ & Hnu & Hspectra).
  split; [apply Hmask; reflexivity|].
  split; [apply Hcube; reflexivity|].
  split; [apply (Hnu Sample.fits); reflexivity|].
  apply (Hspectra Sample.fits 4%nat [1; 2]%nat);
    solve [reflexivity | discriminate].
Defined.

Lemma spectra_block_on_degenerate_cubes_witness :
  spectra_block Edge.ns_scalar_data = (Raise IndexError, Edge.ns_scalar_data)
  /\ spectra_block Edge.ns_empty_axis = (Raise ValueError, Edge.ns_empty_axis).
Proof.
  split.
  - apply (spectra_block_on_degenerate_cubes Edge.ns_scalar_data
             (mk_cube (mk_ndarray [] [1%float]) Sample.hdr) eq_refl).
    reflexivity.
  - apply (spectra_block_on_degenerate_cubes Edge.ns_empty_axis
             (mk_cube (mk_ndarray [0; 1; 2]%nat []) Sample.hdr) eq_refl)
      with (rest := [1; 2]%nat).
    reflexivity.
Defined.

Lemma velax_block_stops_halfway_witness :
  exists l,
    velax_block Edge.ns_no_crval3
    = (Raise KeyError, set_velax (FloatArr l) Edge.ns_no_crval3)
    /\ Z.of_nat (length l) = 4
    /\ forall i, 0 <= i < 4 ->
         l !! Z.to_nat i = Some (channel_offset (Float 1%float) i).
Proof.
  apply (velax_block_stops_halfway Edge.ns_no_crval3
           (mk_cube (data Sample.fits) (delete "crval3" Sample.hdr)) 4
           (Float 1%float));
    solve [reflexivity | lia | left; reflexivity
          | vm_compute; intros ?; discriminate].
Defined.

Lemma velax_block_normal_end_witness :
  exists c n p v0 d len l,
    cube Sample.ns = Some c
    /\ header c !! "naxis3" = Some n
    /\ header c !! "crpix3" = Some p
    /\ header c !! "crval3" = Some v0
    /\ header c !! "cdelt3" = Some d
    /\ arange_length (promote n) = Ok len
    /\ len <= Z.max 0 (memory Sample.ns)
    /\ snd (velax_block Sample.ns) = set_velax (FloatArr l) Sample.ns
    /\ length l = Z.to_nat len.
Proof.
  apply (velax_block_normal_end Sample.ns (snd (velax_block Sample.ns))).
  vm_compute. reflexivity.
Defined.

Lemma unbounded_naxis3_raises_ValueError_witness :
  velax_block Edge.ns_nan_naxis3 = (Raise ValueError, Edge.ns_nan_naxis3)
  /\ velax_block Edge.ns_huge_naxis3 = (Raise ValueError, Edge.ns_huge_naxis3).
Proof.
  split.
  - apply (unbounded_naxis3_raises_ValueError Edge.ns_nan_naxis3
             (mk_cube (data Sample.fits) (<["naxis3" := Float nan]> Sample.hdr))
             nan); solve [reflexivity | left; reflexivity].
  - apply (unbounded_naxis3_raises_ValueError Edge.ns_huge_naxis3
             (mk_cube (data Sample.fits)
                (<["naxis3" := Float 1e30%float]> Sample.hdr))
             1e30%float); try reflexivity.
    right. eexists. split; [vm_compute; reflexivity|]. right.
    vm_compute. reflexivity.
Defined.

Lemma zero_rest_frequency_gives_no_finite_velocity_witness :
  exists l',
    convert_block Edge.ns_zero_restfreq
    = (Ok tt, set_velax (FloatArr l') (set_nu (Int 0) Edge.ns_zero_restfreq))
    /\ length l' = 2%nat
    /\ forall v, In v l' -> B64.finite v = false.
Proof.
  apply (zero_rest_frequency_gives_no_finite_velocity Edge.ns_zero_restfreq
           (mk_cube (data Sample.fits) (<["restfreq" := Int 0]> Sample.hdr))
           (Int 0) [1; 2]%float);
    reflexivity.
Defined.

Lemma velocity_axis_in_order_witness :
  exists l,
    velax_block Sample.ns = (Ok tt, set_velax (FloatArr l) Sample.ns)
    /\ Z.of_nat (length l) = 4
    /\ ascending l.
Proof.
  destruct (velocity_axis_in_order Sample.ns Sample.fits 4
              (Float 1%float) (Float (-2)%float) (Float 0.1%float))
    as (l & Hrun & Hlen & Hup & _);
    try solve [reflexivity | lia | exact I | vm_compute; intros ?; discriminate].
  exists l. split; [exact Hrun|]. split; [exact Hlen|].
  apply Hup. reflexivity.
Defined.

Lemma conversion_reverses_order_witness :
  exists l',
    convert_block Sample.ns_frequency
    = (Ok tt, set_velax (FloatArr l')
                (set_nu (Float 230538000000%float) Sample.ns_frequency))
    /\ length l' = 2%nat
    /\ descending l'.
Proof.
  destruct (conversion_reverses_order Sample.ns_frequency Sample.fits
              (Float 230538000000%float) [Sample.f1; Sample.f2])
    as (l' & Hrun & Hlen & Hdown & _); try reflexivity.
  exists l'. split; [exact Hrun|]. split; [exact Hlen|].
  apply Hdown. intros i j x y Hij Hi Hj.
  destruct i as [|[|i]], j as [|[|j]]; simpl in Hi, Hj;
    try discriminate; try lia;
    injection Hi as <-; injection Hj as <-; vm_compute; reflexivity.
Defined.

Lemma nan_selects_nothing_witness :
  exists m th,
    theta_of_annulus nan 2%float Edge.ns_nan_radius
    = (Ok tt, set_theta th (set_mask m Edge.ns_nan_radius))
    /\ length (flat m) = 2%nat
    /\ (forall i r, [nan; 1.5%float] !! i = Some r ->
        PrimFloat.eqb r r = false -> flat m !! i = Some false)
    /\ (forall b, In b (flat m) -> b = false)
    /\ th = mk_ndarray [0%nat] [].
Proof.
  destruct (nan_selects_nothing Edge.ns_nan_radius
              (mk_ndarray [1; 2]%nat [nan; 1.5]%float)
              (mk_ndarray [1; 2]%nat [0.25; -2]%float) nan 2%float
              eq_refl eq_refl eq_refl)
    as (m & th & Hrun & Hlen & Hnan & Hbound).
  exists m, th. split; [exact Hrun|]. split; [exact Hlen|].
  split; [exact Hnan|]. apply Hbound. left. reflexivity.
Defined.

Lemma infinite_bounds_select_every_pixel_witness :
  exists m,
    theta_of_annulus neg_infinity infinity Sample.ns
    = (Ok tt,
       set_theta (mk_ndarray [2%nat] [0.25; -2]%float) (set_mask m Sample.ns)).
Proof.
  apply (infinite_bounds_select_every_pixel Sample.ns
           (mk_ndarray [1; 2]%nat [0.5; 1.5]%float)
           (mk_ndarray [1; 2]%nat [0.25; -2]%float));
    try reflexivity.
  intros r [<-|[<-|[]]]; reflexivity.
Defined.

Lemma equal_bounds_select_equal_radii_witness :
  exists m,
    mask_block 1.5%float 1.5%float Sample.ns = (Ok tt, set_mask m Sample.ns)
    /\ forall i r, [0.5; 1.5]%float !! i = Some r ->
         flat m !! i = Some (PrimFloat.eqb 1.5 r).
Proof.
  apply (equal_bounds_select_equal_radii Sample.ns
           (mk_ndarray [1; 2]%nat [0.5; 1.5]%float) 1.5%float).
  reflexivity.
Defined.

Lemma theta_has_one_entry_per_selected_pixel_witness :
  exists m th,
    theta_of_annulus 1%float 2%float Sample.ns
    = (Ok tt, set_theta th (set_mask m Sample.ns))
    /\ well_shaped m /\ well_shaped th
    /\ shape m = [2%nat]
    /\ shape th = [count_true (flat m)]
    /\ (count_true (flat m) <= 2)%nat.
Proof.
  apply (theta_has_one_entry_per_selected_pixel Sample.ns
           (mk_ndarray [1; 2]%nat [0.5; 1.5]%float)
           (mk_ndarray [1; 2]%nat [0.25; -2]%float) 1%float 2%float);
    reflexivity.
Defined.

Lemma theta_needs_one_angle_per_radius_witness :
  exists m,
    theta_of_annulus 1%float 2%float Edge.ns_short_tvals
    = (Raise IndexError, set_mask m Edge.ns_short_tvals)
    /\ shape m = [2%nat].
Proof.
  apply (theta_needs_one_angle_per_radius Edge.ns_short_tvals
           (mk_ndarray [1; 2]%nat [0.5; 1.5]%float)
           (mk_ndarray [1; 1]%nat [0.25%float]) 1%float 2%float);
    solve [reflexivity | discriminate].
Defined.

Lemma annuli_sharing_a_bound_witness :
  exists m_in m_out m_all,
    mask_block 0.25%float 1.5%float Sample.ns = (Ok tt, set_mask m_in Sample.ns)
    /\ mask_block 1.5%float 2%float Sample.ns = (Ok tt, set_mask m_out Sample.ns)
    /\ mask_block 0.25%float 2%float Sample.ns = (Ok tt, set_mask m_all Sample.ns)
    /\ forall i r, [0.5; 1.5]%float !! i = Some r ->
         exists x y,
           flat m_in !! i = Some x /\ flat m_out !! i = Some y
           /\ flat m_all !! i = Some (x || y)
           /\ x && y = PrimFloat.eqb 1.5 r.
Proof.
  apply (annuli_sharing_a_bound Sample.ns
           (mk_ndarray [1; 2]%nat [0.5; 1.5]%float) 0.25%float 1.5%float 2%float);
    reflexivity.
Defined.

Lemma annuli_apart_share_no_pixel_witness :
  exists m_in m_out,
    mask_block 0.25%float 1%float Sample.ns = (Ok tt, set_mask m_in Sample.ns)
    /\ mask_block 1.25%float 2%float Sample.ns = (Ok tt, set_mask m_out Sample.ns)
    /\ forall i, flat m_in !! i = Some true -> flat m_out !! i = Some true ->
         False.
Proof.
  apply (annuli_apart_share_no_pixel Sample.ns
           (mk_ndarray [1; 2]%nat [0.5; 1.5]%float)
           0.25%float 1%float 1.25%float 2%float);
    reflexivity.
Defined.

